(** * Control: the scheduler core and the repository manager

    A shallow embedding of [core/scheduler.go] (the OFFERS, MESSAGE and
    device-event handlers) and of [core/repos/repomanager.go] (the refresh
    operations), followed by the properties established about them.

    Conventions.  A Go [uint64] is an [N] whose arithmetic is wrapped with
    [u64]; a [float64] scalar resource is an exact rational [Q]; a Go map is a
    [gmap] (or a [gset] when only its keys are used); a nil pointer is [None].
    Collaborators whose code lives in other packages (the task manager, the
    environment manager, the command servant, [encoding/json], the Mesos
    client) are fields of a record of functions, so every statement below is
    quantified over their behaviour; the module [Scenario] instantiates them
    for concrete runs. *)

From Stdlib Require Import QArith Ascii.
From stdpp Require Import gmap strings list sorting pretty.

Open Scope N_scope.

(** ** The mesos-go resource API, as far as the scheduler calls it *)

Module mesos.

Definition u64 (n : N) : N := n mod 2 ^ 64.

Record Value_Range := { Begin : N; End : N }.

Abbreviation Ranges := (list Value_Range).

#[global] Instance Value_Range_eq_dec : EqDecision Value_Range.
Proof. solve_decision. Defined.

(** [BuildRanges().Span(b, e)] appends one range. *)
Definition Span (b e : N) : Value_Range := {| Begin := b; End := e |}.

(** The ports a list of ranges stands for. *)
Definition InRanges (p : N) (rs : Ranges) : Prop :=
  ∃ r, r ∈ rs ∧ Begin r ≤ p ∧ p ≤ End r.

(** [Ranges.Squash]: merge overlapping and contiguous ranges of a sorted
    list.  [last] is the range at the end of the output built so far. *)
Fixpoint squashFrom (last : Value_Range) (rs : Ranges) : Ranges :=
  match rs with
  | [] => [last]
  | r :: rs' =>
    if u64 (1 + End last) <? Begin r then last :: squashFrom r rs'
    else if End last <=? End r
      then squashFrom {| Begin := Begin last; End := End r |} rs'
      else squashFrom last rs'
  end.

Definition Squash (rs : Ranges) : Ranges :=
  match rs with
  | [] => []
  | r :: rs' => squashFrom r rs'
  end.

(** The order of [Ranges.Less]: by [Begin], then by [End]. *)
Definition range_le (a b : Value_Range) : Prop :=
  Begin a < Begin b ∨ (Begin a = Begin b ∧ End a ≤ End b).

#[global] Instance range_le_dec : RelDecision range_le.
Proof. intros a b. unfold range_le. apply _. Defined.

Definition Sort (rs : Ranges) : Ranges := merge_sort range_le rs.

(** One iteration of the loop of [Ranges.Remove]: what is left of [r] once
    [removal] is taken out of it. *)
Definition removeFrom (removal r : Value_Range) : Ranges :=
  if (Begin removal <=? Begin r) && (End r <=? End removal) then
    []
  else if (Begin r <? Begin removal) && (End removal <? End r) then
    [ {| Begin := Begin r; End := u64 (Begin removal + (2 ^ 64 - 1)) |};
      {| Begin := u64 (End removal + 1); End := End r |} ]
  else if (End r <? Begin removal) || (End removal <? Begin r) then
    [ r ]
  else if End removal <? End r then
    [ {| Begin := u64 (End removal + 1); End := End r |} ]
  else
    [ {| Begin := Begin r; End := u64 (Begin removal + (2 ^ 64 - 1)) |} ].

(** [Ranges.Remove]: take the removal out of every range, then squash. *)
Definition Remove (rs : Ranges) (removal : Value_Range) : Ranges :=
  Squash (flat_map (removeFrom removal) rs).

(** [Ranges.Min]: the first range's [Begin]; indexing an empty slice
    panics, which is [None] here. *)
Definition Min (rs : Ranges) : option N :=
  match rs with
  | [] => None
  | r :: _ => Some (Begin r)
  end.

(** A resource bundle, by resource name: the scalars "cpus" and "mem" and
    the ranges "ports".  A bundle without a "ports" resource has [ports = []]:
    Mesos offers no empty resource and [Resources.Subtract] drops a resource
    that becomes empty. *)
Record Resources := { cpus : Q; mem : Q; ports : Ranges }.

(** [resources.Ports]: the port ranges summed by [Value_Ranges.Add], which
    sorts and squashes them, and whether there are any: the sum of no range
    is nil, and nil is reported as no ports. *)
Definition Ports (resources : Resources) : option Ranges :=
  match ports resources with
  | [] => None
  | rs => Some (Squash (Sort rs))
  end.

(** [Value_Ranges.Subtract]: a minuend of more than one range is sorted and
    squashed, then the ranges of the subtrahend are removed one by one. *)
Definition Subtract (a b : Ranges) : Ranges :=
  let a := if (1 <? length a)%nat then Squash (Sort a) else a in
  foldl Remove a b.

(** [Resources.Subtract] of a "ports" resource holding [rs]. *)
Definition SubtractPorts (resources : Resources) (rs : Ranges) : Resources :=
  {| cpus := cpus resources;
     mem := mem resources;
     ports := Subtract (ports resources) rs |}.

(** [Resources.Add]: scalars are summed, ranges are appended, sorted and
    squashed.  The sums are exact here; mesos-go adds scalars in thousandths,
    which is the same sum for scalars of at most three decimals. *)
Definition Add (a b : Resources) : Resources :=
  {| cpus := (cpus a + cpus b)%Q;
     mem := (mem a + mem b)%Q;
     ports := Squash (Sort (ports a ++ ports b)) |}.

(** Ranges of 64-bit numbers that each hold at least one: [Begin] is at or
    below [End].  They may come in any order and may overlap. *)
Definition wellFormed (rs : Ranges) : Prop :=
  Forall (λ r, Begin r ≤ End r ∧ End r < 2 ^ 64) rs.

(** How a range stands to a later one of the same list.  [apart] is the
    test of [Squash] that keeps the two as they are; the ranges [Squash]
    returns for a sorted list are [squashed]; the ranges [Remove] gives to
    [Squash] are [linked]. *)
Definition apart (x y : Value_Range) : Prop := u64 (1 + End x) < Begin y.
Definition ascending (x y : Value_Range) : Prop := Begin x ≤ Begin y.
Definition squashed (x y : Value_Range) : Prop := apart x y ∧ ascending x y.
Definition linked (x y : Value_Range) : Prop :=
  Begin x ≤ Begin y ∨ (End x = 2 ^ 64 - 1 ∧ 0 < Begin y).

End mesos.

(** ** Package task: what the scheduler sees of descriptors and tasks *)

Module task.

(** The resource demand of a task class. *)
Record Wants := {
  Cpu : Q;
  Memory : Q;
  StaticPorts : mesos.Ranges;
  BindPorts : list string   (* the names of the inbound channels *)
}.

Record Descriptor := { TaskClassName : string; TaskRolePath : string }.

#[global] Instance Descriptor_eq_dec : EqDecision Descriptor.
Proof. solve_decision. Defined.

Record Task := {
  GetTaskId : string;
  GetName : string;
  GetExecutorId : string;
  GetEnvironmentId : string
}.

(** The command handed to the executor in the LAUNCH data. *)
Record CommandInfo := {
  Value : string;
  Arguments : list string;
  Env : list string;
  ControlPort : N
}.

(** Modelled from the spec: [Resources.Satisfy] belongs to package task, of
    which only the call is at hand.  A descriptor is skipped "if the offer's
    remaining resources do not satisfy the descriptor's resource demand", the
    demand being a CPU count, an amount of memory and a set of required
    static ports: there must be enough of both scalars, and every static
    range must lie within an available range. *)
Definition Satisfy (r : mesos.Resources) (wants : Wants) : bool :=
  Qle_bool (Cpu wants) (mesos.cpus r)
  && Qle_bool (Memory wants) (mesos.mem r)
  && forallb (λ w, existsb (λ a, (mesos.Begin a <=? mesos.Begin w)
                                 && (mesos.End w <=? mesos.End a))
                           (mesos.ports r))
             (StaticPorts wants).

(** A [DeploymentMap], a Go map from tasks to descriptors: the list of its
    entries in the order they are inserted, an order the map does not
    keep. *)
Abbreviation DeploymentMap := (list (Task * Descriptor)).

End task.

(** ** Package core: the handlers of scheduler.go *)

Module sched.
Import mesos task.

Record Offer := {
  ID : string;
  AgentID : string;
  Hostname : string;
  Attributes : list (string * string);
  Resources : mesos.Resources;
  ExecutorIDs : list string
}.

Record TaskInfo := {
  Name : string;
  TaskID : string;
  TaskAgentID : string;
  ExecutorID : string;
  ExecutorEnvironment : list (string * string);
  TaskResources : mesos.Resources;
  Data : string
}.

(** The calls the handler sends to Mesos. *)
Inductive Call :=
| Accept (offerId : string) (launch : list TaskInfo)
| Decline (offerIds : list string).

(** What a cycle does that is visible outside the handler. *)
Inductive Event :=
| ELock
| EUnlock
| EProcessing (d : Descriptor)
| EAgentCacheUpdate (agentId : string)
| ENewTask (offerId : string) (t : option Task)
| ECall (c : Call)
| ENotify (deployed : DeploymentMap).

(** A handler either returns or panics; the state reached is kept in both
    cases. *)
Inductive Outcome (A : Type) :=
| Returned (a : A)
| Panicked (a : A).
Arguments Returned {A} a.
Arguments Panicked {A} a.

(** The state reached, however the handler ended. *)
Definition stateOf {A : Type} (o : Outcome A) : A :=
  match o with
  | Returned a => a
  | Panicked a => a
  end.

(** The collaborators of [resourceOffers]. *)
Record Collaborators := {
  (* state.taskman.BuildDescriptorConstraints *)
  BuildDescriptorConstraints :
    list Descriptor → Descriptor → list (string * string);
  (* constraint.Attributes.Satisfy *)
  AttributesSatisfy : list (string * string) → list (string * string) → bool;
  (* state.taskman.GetWantsForDescriptor; nil is None *)
  GetWantsForDescriptor : Descriptor → option Wants;
  (* task.Resources.Satisfy *)
  ResourcesSatisfy : mesos.Resources → Wants → bool;
  (* state.taskman.NewTaskForMesosOffer; nil is None *)
  NewTaskForMesosOffer :
    Offer → Descriptor → gmap string N → string → option Task;
  (* Task.BuildTaskCommand *)
  BuildTaskCommand : Task → CommandInfo;
  (* json.Marshal of the command; an error is None *)
  jsonMarshal : CommandInfo → option string;
  (* uuid.NewUUID().String() for an offer without executor *)
  NewUUID : Offer → string;
  (* calls.CallNoData; true when it returns an error *)
  CallNoData : Call → bool;
  (* state.executor.Resources *)
  executorResources : mesos.Resources;
  (* whether a listener takes the value sent on resourceOffersDone *)
  listenerReady : bool
}.

(** The variables of the per-offer loop. *)
Record MatchState := {
  remainingResources : mesos.Resources;
  tasks : list TaskInfo;
  tasksDeployedForCurrentOffer : DeploymentMap;
  offerIDsToDecline : gset string;
  descriptorsToDeploy : list Descriptor;
  trace : list Event
}.

Definition emit (e : Event) (st : MatchState) : MatchState :=
  {| remainingResources := remainingResources st;
     tasks := tasks st;
     tasksDeployedForCurrentOffer := tasksDeployedForCurrentOffer st;
     offerIDsToDecline := offerIDsToDecline st;
     descriptorsToDeploy := descriptorsToDeploy st;
     trace := trace st ++ [e] |}.

Definition setRemaining (r : mesos.Resources) (st : MatchState) : MatchState :=
  {| remainingResources := r;
     tasks := tasks st;
     tasksDeployedForCurrentOffer := tasksDeployedForCurrentOffer st;
     offerIDsToDecline := offerIDsToDecline st;
     descriptorsToDeploy := descriptorsToDeploy st;
     trace := trace st |}.

(** [delete(offerIDsToDecline, offer.ID)] *)
Definition doNotDecline (offerId : string) (st : MatchState) : MatchState :=
  {| remainingResources := remainingResources st;
     tasks := tasks st;
     tasksDeployedForCurrentOffer := tasksDeployedForCurrentOffer st;
     offerIDsToDecline := offerIDsToDecline st ∖ {[ offerId ]};
     descriptorsToDeploy := descriptorsToDeploy st;
     trace := trace st |}.

(** The three updates that end a successful match: the task is appended to
    the launch list, the descriptor at index [i] is cut out of the pending
    list and the deployment is recorded. *)
Definition launch (info : TaskInfo) (i : nat) (t : Task) (d : Descriptor)
    (st : MatchState) : MatchState :=
  {| remainingResources := remainingResources st;
     tasks := tasks st ++ [info];
     tasksDeployedForCurrentOffer := tasksDeployedForCurrentOffer st ++ [(t, d)];
     offerIDsToDecline := offerIDsToDecline st;
     descriptorsToDeploy :=
       take i (descriptorsToDeploy st) ++ drop (S i) (descriptorsToDeploy st);
     trace := trace st |}.

(** The two cut-offs below which ports are never picked. *)
Definition dynamicPortFloor : N := 8999.
Definition controlPortFloor : N := 29999.

(** Claiming one port: the available ranges of the remaining resources, cut
    below the floor, give their minimum, which is subtracted from the
    remaining resources.  The handler does this for each channel to bind and
    once more for the control port. *)
Inductive PortClaim :=
| Claimed (port : N) (remaining : mesos.Resources)
| NoPorts          (* resources.Ports reports no "ports" resource *)
| MinOfNothing.    (* Min of empty ranges *)

Definition claimPort (floor : N) (remaining : mesos.Resources) : PortClaim :=
  match Ports remaining with
  | None => NoPorts
  | Some availPorts =>
    let availPorts := Remove availPorts {| Begin := 0; End := floor |} in
    match Min availPorts with
    | None => MinOfNothing
    | Some port => Claimed port (SubtractPorts remaining [Span port port])
    end
  end.

Inductive BindResult :=
| Bound (bindMap : gmap string N) (remaining : mesos.Resources)
| Exhausted (remaining : mesos.Resources)
| BindPanicked (remaining : mesos.Resources).

(** The loop over [wants.BindPorts]. *)
Fixpoint bindPorts (chs : list string) (remaining : mesos.Resources)
    (bindMap : gmap string N) : BindResult :=
  match chs with
  | [] => Bound bindMap remaining
  | ch :: chs' =>
    match claimPort dynamicPortFloor remaining with
    | NoPorts => Exhausted remaining
    | MinOfNothing => BindPanicked remaining
    | Claimed port remaining' =>
      bindPorts chs' remaining' (<[ ch := port ]> bindMap)
    end
  end.

(** The resources requested for one task. *)
Definition resourcesRequest (wants : Wants) (bindMap : gmap string N)
    (controlPort : N) (executorResources : mesos.Resources) : mesos.Resources :=
  let spans :=
    StaticPorts wants
    ++ map (λ kv, Span kv.2 kv.2) (map_to_list bindMap)
    ++ [Span controlPort controlPort] in
  Add {| cpus := Cpu wants; mem := Memory wants; ports := Squash (Sort spans) |}
      executorResources.

Definition ldLibraryPath (attributes : list (string * string))
    : list (string * string) :=
  match list_find (λ kv, kv.1 = "executor_env_LD_LIBRARY_PATH"%string) attributes with
  | Some (_, kv) => [("LD_LIBRARY_PATH"%string, kv.2)]
  | None => []
  end.

(** [p] is the minimum port available in [rs] strictly above [floor]. *)
Definition leastAbove (floor : N) (rs : Ranges) (p : N) : Prop :=
  floor < p ∧ InRanges p rs ∧ ∀ q, InRanges q rs → floor < q → p ≤ q.

(** [r'] is [r] with the port [p] taken out of its port ranges. *)
Definition withoutPort (p : N) (r r' : mesos.Resources) : Prop :=
  cpus r' = cpus r ∧ mem r' = mem r ∧ wellFormed (ports r')
  ∧ ∀ q, InRanges q (ports r') ↔ InRanges q (ports r) ∧ q ≠ p.

(** Two bundles with the same scalars; their ports may differ. *)
Definition sameScalars (r r' : mesos.Resources) : Prop :=
  cpus r' = cpus r ∧ mem r' = mem r.

(** The ports [ps] are taken out of [r] one after the other, each being the
    minimum available above [floor] in what remains when it is picked;
    [r'] is what remains in the end. *)
Fixpoint claimedInOrder (floor : N) (r : mesos.Resources) (ps : list N)
    (r' : mesos.Resources) : Prop :=
  match ps with
  | [] => r' = r
  | p :: ps' =>
    leastAbove floor (ports r) p
    ∧ ∃ r1, withoutPort p r r1 ∧ claimedInOrder floor r1 ps' r'
  end.

(** The bind map once the channels [chs] are bound to the ports [ps], in
    this order. *)
Definition bindAll (bindMap : gmap string N) (chs : list string) (ps : list N)
    : gmap string N :=
  foldl (λ m cp, <[ cp.1 := cp.2 ]> m) bindMap (zip chs ps).

Section Matcher.
Context (C : Collaborators).
Context (constraints : Descriptor → list (string * string)).
Context (offer : Offer) (targetExecutorId : string).

(** The body of the [FOR_DESCRIPTORS] loop at index [i]. *)
Definition matchDescriptor (i : nat) (st : MatchState) : Outcome MatchState :=
  match descriptorsToDeploy st !! i with
  | None => Panicked st
  | Some descriptor =>
    let st := emit (EProcessing descriptor) st in
    if negb (AttributesSatisfy C (Attributes offer) (constraints descriptor))
    then Returned st
    else
    match GetWantsForDescriptor C descriptor with
    | None => Returned st
    | Some wants =>
    if negb (ResourcesSatisfy C (remainingResources st) wants) then Returned st
    else
    (* Point of no return, we start subtracting resources *)
    match bindPorts (BindPorts wants) (remainingResources st) ∅ with
    | BindPanicked remaining => Panicked (setRemaining remaining st)
    | Exhausted remaining => Returned (setRemaining remaining st)
    | Bound bindMap remaining =>
    let st := emit (EAgentCacheUpdate (AgentID offer)) (setRemaining remaining st) in
    let taskPtr := NewTaskForMesosOffer C offer descriptor bindMap targetExecutorId in
    let st := emit (ENewTask (ID offer) taskPtr) st in
    match taskPtr with
    | None => Returned st
    | Some taskPtr =>
    (* Do not decline this offer *)
    let st := doNotDecline (ID offer) st in
    let cmd := BuildTaskCommand C taskPtr in
    (* Claim the control port *)
    match claimPort controlPortFloor (remainingResources st) with
    | NoPorts => Returned st
    | MinOfNothing => Panicked st
    | Claimed controlPort remaining =>
    let st := setRemaining remaining st in
    let runCommand :=
      {| Value := Value cmd;
         Arguments := Arguments cmd ++ ["--control-port"; pretty controlPort]%string;
         Env := Env cmd ++ [ "OCC_CONTROL_PORT=" +:+ pretty controlPort;
                             "O2_ROLE=" +:+ Hostname offer ]%string;
         ControlPort := controlPort |} in
    match jsonMarshal C runCommand with
    | None => Returned (emit EUnlock st)
    | Some jsonCommand =>
    let mesosTaskInfo :=
      {| Name := GetName taskPtr;
         TaskID := GetTaskId taskPtr;
         TaskAgentID := AgentID offer;
         ExecutorID := GetExecutorId taskPtr;
         ExecutorEnvironment := ldLibraryPath (Attributes offer);
         TaskResources :=
           resourcesRequest wants bindMap controlPort (executorResources C);
         Data := jsonCommand |} in
    Returned (launch mesosTaskInfo i taskPtr descriptor st)
    end end end end end
  end.

(** [for i := len(descriptorsToDeploy)-1; i >= 0; i--], entered with
    [n = i + 1]. *)
Fixpoint forDescriptors (n : nat) (st : MatchState) : Outcome MatchState :=
  match n with
  | O => Returned st
  | S i =>
    match matchDescriptor i st with
    | Returned st' => forDescriptors i st'
    | Panicked st' => Panicked st'
    end
  end.

End Matcher.

(** The states in which one iteration of the descriptor loop can return,
    for the descriptor [d] found at index [i]. *)
Inductive stepOf (offer : Offer) (d : Descriptor) (i : nat) (st : MatchState)
    : MatchState → Prop :=
| step_skipped r :
    (* a check failed, or the ports ran out while binding *)
    stepOf offer d i st
      {| remainingResources := r;
         tasks := tasks st;
         tasksDeployedForCurrentOffer := tasksDeployedForCurrentOffer st;
         offerIDsToDecline := offerIDsToDecline st;
         descriptorsToDeploy := descriptorsToDeploy st;
         trace := trace st ++ [EProcessing d] |}
| step_no_task r :
    (* the task manager returned no task *)
    stepOf offer d i st
      {| remainingResources := r;
         tasks := tasks st;
         tasksDeployedForCurrentOffer := tasksDeployedForCurrentOffer st;
         offerIDsToDecline := offerIDsToDecline st;
         descriptorsToDeploy := descriptorsToDeploy st;
         trace := trace st ++ [EProcessing d; EAgentCacheUpdate (AgentID offer);
                               ENewTask (ID offer) None] |}
| step_abandoned r t (unlocked : bool) :
    (* a task was created, then the control port or the serialization
       failed *)
    stepOf offer d i st
      {| remainingResources := r;
         tasks := tasks st;
         tasksDeployedForCurrentOffer := tasksDeployedForCurrentOffer st;
         offerIDsToDecline := offerIDsToDecline st ∖ {[ ID offer ]};
         descriptorsToDeploy := descriptorsToDeploy st;
         trace := trace st ++ [EProcessing d; EAgentCacheUpdate (AgentID offer);
                               ENewTask (ID offer) (Some t)]
                           ++ (if unlocked then [EUnlock] else []) |}
| step_launched r t info :
    stepOf offer d i st
      {| remainingResources := r;
         tasks := tasks st ++ [info];
         tasksDeployedForCurrentOffer := tasksDeployedForCurrentOffer st ++ [(t, d)];
         offerIDsToDecline := offerIDsToDecline st ∖ {[ ID offer ]};
         descriptorsToDeploy :=
           take i (descriptorsToDeploy st) ++ drop (S i) (descriptorsToDeploy st);
         trace := trace st ++ [EProcessing d; EAgentCacheUpdate (AgentID offer);
                               ENewTask (ID offer) (Some t)] |}.

(** The variables of a whole cycle. *)
Record CycleState := {
  cyclePending : list Descriptor;         (* descriptorsToDeploy *)
  cycleToDecline : gset string;           (* offerIDsToDecline *)
  tasksDeployed : DeploymentMap;
  tasksLaunchedThisCycle : nat;
  offersDeclined : nat;
  cycleTrace : list Event
}.

Definition cycleEmit (e : Event) (cs : CycleState) : CycleState :=
  {| cyclePending := cyclePending cs;
     cycleToDecline := cycleToDecline cs;
     tasksDeployed := tasksDeployed cs;
     tasksLaunchedThisCycle := tasksLaunchedThisCycle cs;
     offersDeclined := offersDeclined cs;
     cycleTrace := cycleTrace cs ++ [e] |}.

Section Cycle.
Context (C : Collaborators).

(** The state in which the descriptor loop is entered for [offer], the lock
    being taken. *)
Definition enterOffer (offer : Offer) (cs : CycleState) : MatchState :=
  {| remainingResources := Resources offer;
     tasks := [];
     tasksDeployedForCurrentOffer := [];
     offerIDsToDecline := cycleToDecline cs;
     descriptorsToDeploy := cyclePending cs;
     trace := cycleTrace cs ++ [ELock] |}.

(** What the cycle keeps of a per-offer state; the counters and the
    deployment map are those given. *)
Definition leaveOffer (st : MatchState) (deployed : DeploymentMap)
    (launched declined : nat) (tr : list Event) : CycleState :=
  {| cyclePending := descriptorsToDeploy st;
     cycleToDecline := offerIDsToDecline st;
     tasksDeployed := deployed;
     tasksLaunchedThisCycle := launched;
     offersDeclined := declined;
     cycleTrace := tr |}.

Definition targetExecutorIdFor (offer : Offer) : string :=
  match ExecutorIDs offer with
  | [] => NewUUID C offer
  | e :: _ => e
  end.

(** One iteration of [for _, offer := range offers]. *)
Definition processOffer (constraints : Descriptor → list (string * string))
    (offer : Offer) (cs : CycleState) : Outcome CycleState :=
  let st0 := enterOffer offer cs in
  match forDescriptors C constraints offer (targetExecutorIdFor offer)
          (length (descriptorsToDeploy st0)) st0 with
  | Panicked st =>
    Panicked (leaveOffer st (tasksDeployed cs) (tasksLaunchedThisCycle cs)
                (offersDeclined cs) (trace st))
  | Returned st =>
    let accept := Accept (ID offer) (tasks st) in
    let tr := trace st ++ [EUnlock; ECall accept] in
    if CallNoData C accept then
      Returned (leaveOffer st (tasksDeployed cs) (tasksLaunchedThisCycle cs)
                  (offersDeclined cs) tr)
    else if (0 <? length (tasks st))%nat then
      Returned (leaveOffer st
                  (tasksDeployed cs ++ tasksDeployedForCurrentOffer st)
                  (tasksLaunchedThisCycle cs + length (tasks st))%nat
                  (offersDeclined cs) tr)
    else
      Returned (leaveOffer st (tasksDeployed cs) (tasksLaunchedThisCycle cs)
                  (S (offersDeclined cs)) tr)
  end.

Fixpoint forOffers (constraints : Descriptor → list (string * string))
    (offers : list Offer) (cs : CycleState) : Outcome CycleState :=
  match offers with
  | [] => Returned cs
  | offer :: offers' =>
    match processOffer constraints offer cs with
    | Returned cs' => forOffers constraints offers' cs'
    | Panicked cs' => Panicked cs'
    end
  end.

(** The DECLINE for the offers we do not need any more. *)
Definition declineRest (cs : CycleState) : CycleState :=
  let declineSlice := elements (cycleToDecline cs) in
  if (0 <? size (cycleToDecline cs))%nat
  then cycleEmit (ECall (Decline declineSlice)) cs
  else cs.

(** The non-blocking send on [state.resourceOffersDone]. *)
Definition notifyListeners (cs : CycleState) : CycleState :=
  if listenerReady C then cycleEmit (ENotify (tasksDeployed cs)) cs else cs.

(** The handler of an OFFERS event.  [tasksToDeploy] is what the
    non-blocking receive on [state.tasksToDeploy] yields. *)
Definition resourceOffers (offers : list Offer)
    (tasksToDeploy : option (list Descriptor)) : Outcome CycleState :=
  let descriptorsToDeploy := default [] tasksToDeploy in
  (* by default we get ready to decline all offers *)
  let cs0 :=
    {| cyclePending := descriptorsToDeploy;
       cycleToDecline := list_to_set (ID <$> offers);
       tasksDeployed := [];
       tasksLaunchedThisCycle := 0;
       offersDeclined := 0;
       cycleTrace := [] |} in
  let matched :=
    if (0 <? length descriptorsToDeploy)%nat then
      forOffers (BuildDescriptorConstraints C descriptorsToDeploy) offers cs0
    else Returned cs0 in
  match matched with
  | Panicked cs => Panicked cs
  | Returned cs => Returned (notifyListeners (declineRest cs))
  end.

End Cycle.

(** What the state mutex does not allow. *)
Inductive MutexFault :=
| UnlockOfUnlocked   (* fatal error: sync: unlock of unlocked mutex *)
| LockOfLocked       (* the handler waits for itself *)
| CallUnderLock.     (* a network call while the mutex is held *)

(** The state mutex, run over a trace from the state [held]: the state it
    ends in, or the first fault. *)
Fixpoint mutexAfter (held : bool) (tr : list Event) : MutexFault + bool :=
  match tr with
  | [] => inr held
  | ELock :: tr' => if held then inl LockOfLocked else mutexAfter true tr'
  | EUnlock :: tr' => if held then mutexAfter false tr' else inl UnlockOfUnlocked
  | ECall _ :: tr' => if held then inl CallUnderLock else mutexAfter held tr'
  | _ :: tr' => mutexAfter held tr'
  end.

(** The events that neither touch the mutex nor call Mesos. *)
Definition quiet (e : Event) : bool :=
  match e with
  | ELock | EUnlock | ECall _ => false
  | _ => true
  end.

Definition countLocks (tr : list Event) : nat :=
  length (List.filter (λ e, match e with ELock => true | _ => false end) tr).

Definition countUnlocks (tr : list Event) : nat :=
  length (List.filter (λ e, match e with EUnlock => true | _ => false end) tr).

(** The launches sent for an offer, and the offers declined, in a trace. *)
Definition launchesOn (offerId : string) (tr : list Event) : list TaskInfo :=
  flat_map (λ e, match e with
                 | ECall (Accept o l) => if decide (o = offerId) then l else []
                 | _ => []
                 end) tr.

Definition acceptedOffers (tr : list Event) : list string :=
  flat_map (λ e, match e with ECall (Accept o _) => [o] | _ => [] end) tr.

Definition declineBatches (tr : list Event) : list (list string) :=
  flat_map (λ e, match e with ECall (Decline l) => [l] | _ => [] end) tr.

Definition tasksCreatedOn (offerId : string) (tr : list Event) : list Task :=
  flat_map (λ e, match e with
                 | ENewTask o (Some t) => if decide (o = offerId) then [t] else []
                 | _ => []
                 end) tr.

Definition processed (tr : list Event) : list Descriptor :=
  flat_map (λ e, match e with EProcessing d => [d] | _ => [] end) tr.

(** The invariant of a cycle, for the identifiers [ids0] of the offers
    received, the decline-set [D] and the trace [tr] so far: an offer with a
    launch is out of the decline-set, an offer for which no task was created
    is in it, and no DECLINE was sent yet. *)
Definition cycleInv (ids0 D : gset string) (tr : list Event) : Prop :=
  (∀ id, launchesOn id tr ≠ [] → id ∉ D)
  ∧ (∀ id, id ∈ ids0 → tasksCreatedOn id tr = [] → id ∈ D)
  ∧ D ⊆ ids0
  ∧ declineBatches tr = [].

(** The same within the descriptor loop of the offer [o], whose launches are
    not sent yet. *)
Definition offerInv (ids0 : gset string) (o : string) (st : MatchState) : Prop :=
  cycleInv ids0 (offerIDsToDecline st) (trace st)
  ∧ (tasks st ≠ [] → o ∉ offerIDsToDecline st).

(** *** The MESSAGE handler and the device events *)

Inductive Level := Debug | Info | Warning | Error.

(** [pb.DeviceEventType] *)
Inductive DeviceEventType :=
| NULL_DEVICE_EVENT
| END_OF_DATA
| UnknownDeviceEventType (n : Z).

Record DeviceEventOrigin := { OriginTaskId : string; OriginHostname : string }.

(** A non-nil [event.DeviceEvent]. *)
Record DeviceEvent := { GetType : DeviceEventType; GetOrigin : DeviceEventOrigin }.

(** A non-nil [*environment.Environment]. *)
Record Environment := { EnvironmentId : string; SmCurrent : string }.

Inductive Transition := StopActivityTransition.

Record MesosCommandResponse_Transition := {
  CommandName : string;
  CommandId : string;
  TaskId : string;
  CurrentState : string;
  ResponseOk : bool;
  ResponseMessage : string
}.

Record MesosCommandTarget := {
  TargetAgentId : string;
  TargetExecutorId : string;
  TargetTaskId : string
}.

(** The calls made by the goroutine that delivers a response. *)
Inductive Delivery :=
| UpdateTaskState (taskId state : string)
| ProcessResponse (res : MesosCommandResponse_Transition)
                  (sender : MesosCommandTarget).

(** What the handlers do that is visible outside them. *)
Inductive Action :=
| ALog (level : Level) (msg : string)
| ACurrentState (env : option Environment)
| ATryTransition (env : Environment) (t : Transition)
| AGo (body : list Delivery).

(** The collaborators of the device-event handler. *)
Record EnvCollaborators := {
  (* state.taskman.GetTask; nil is None *)
  GetTask : string → option Task;
  (* state.environments.Environment: the pair (env, err) *)
  LookupEnvironment : string → option Environment * option string;
  (* Environment.TryTransition; its error, if any *)
  TryTransition : Environment → Transition → option string
}.

(** Modelled from the spec: [Environment.CurrentState] belongs to package
    environment, of which only the calls are at hand.  It reports the state
    of the receiver's state machine ("running", "configured", ... in the
    spec's words), so a nil receiver has nothing to read: that is the nil
    dereference, [None] here. *)
Definition EnvironmentCurrentState (env : option Environment) : option string :=
  match env with
  | None => None
  | Some e => Some (SmCurrent e)
  end.

Section DeviceEvents.
Context (H : EnvCollaborators).

Definition handleDeviceEvent (evt : option DeviceEvent) : Outcome (list Action) :=
  match evt with
  | None => Returned [ALog Error "cannot handle null DeviceEvent"]
  | Some evt =>
    match GetType evt with
    | END_OF_DATA =>
      let taskId := OriginTaskId (GetOrigin evt) in
      match GetTask H taskId with
      | None => Returned [ALog Error "cannot find task for DeviceEvent"]
      | Some t =>
        let '(env, err) := LookupEnvironment H (GetEnvironmentId t) in
        let logged :=
          match err with
          | Some _ => [ALog Error "cannot find environment for DeviceEvent"]
          | None => []
          end in
        match EnvironmentCurrentState env, env with
        | Some current, Some e =>
          if String.eqb current "RUNNING" then
            match TryTransition H e StopActivityTransition with
            | Some _ =>
              Returned (logged ++
                [ACurrentState env; ATryTransition e StopActivityTransition;
                 ALog Error "cannot stop run after END_OF_DATA event"])
            | None =>
              Returned (logged ++
                [ACurrentState env; ATryTransition e StopActivityTransition])
            end
          else Returned (logged ++ [ACurrentState env])
        | _, _ => Panicked (logged ++ [ACurrentState env])
        end
      end
    | _ => Returned []
    end
  end.

End DeviceEvents.

(** The result of [json.Unmarshal] into a Go value of type [A]. *)
Inductive Decoded (A : Type) :=
| Parsed (a : A)
| Unparsed (err : string).
Arguments Parsed {A} a.
Arguments Unparsed {A} err.

(** [json.Unmarshal] at the four types the handler decodes a payload into,
    and [event.NewDeviceEvent]. *)
Record Decoders (Bytes : Type) := {
  unmarshalMessageType : Bytes → Decoded string;
  unmarshalDeviceEvent : Bytes → Decoded (DeviceEventType * DeviceEventOrigin);
  unmarshalCommandName : Bytes → Decoded string;
  unmarshalTransition : Bytes → Decoded MesosCommandResponse_Transition;
  NewDeviceEvent : DeviceEventOrigin → DeviceEventType → option DeviceEvent
}.
Arguments unmarshalMessageType {Bytes} _ _.
Arguments unmarshalDeviceEvent {Bytes} _ _.
Arguments unmarshalCommandName {Bytes} _ _.
Arguments unmarshalTransition {Bytes} _ _.
Arguments NewDeviceEvent {Bytes} _ _ _.

(** A non-nil [*scheduler.Event_Message]. *)
Record Message (Bytes : Type) := {
  MessageAgentID : string;
  MessageExecutorID : string;
  MessageData : Bytes
}.
Arguments MessageAgentID {Bytes} _.
Arguments MessageExecutorID {Bytes} _.
Arguments MessageData {Bytes} _.

Section Messages.
Context {Bytes : Type} (J : Decoders Bytes) (H : EnvCollaborators).

(** The body of the handler between its first and its deferred log: the
    error returned and what was done. *)
Definition routeMessage (mesosMessage : option (Message Bytes))
    : Outcome (option string * list Action) :=
  match mesosMessage with
  | None =>
    Returned (Some "message handler got bad MESSAGE"%string,
              [ALog Warning "message handler cannot continue"])
  | Some m =>
    let agentId := MessageAgentID m in
    let executorId := MessageExecutorID m in
    if (String.length agentId =? 0)%nat || (String.length executorId =? 0)%nat then
      Returned (Some "message handler got MESSAGE with no valid sender"%string,
                [ALog Warning "message handler cannot continue"])
    else
    let data := MessageData m in
    match unmarshalMessageType J data with
    | Unparsed err => Returned (Some err, [])
    | Parsed messageType =>
      if String.eqb messageType "DeviceEvent" then
        match unmarshalDeviceEvent J data with
        | Unparsed err => Returned (Some err, [])
        | Parsed (type, origin) =>
          match NewDeviceEvent J origin type with
          | Some ev =>
            match handleDeviceEvent H (Some ev) with
            | Returned acts => Returned (None, acts)
            | Panicked acts => Panicked (None, acts)
            end
          | None =>
            Returned (None, [ALog Error "cannot handle incoming device event"])
          end
        end
      else if String.eqb messageType "MesosCommandResponse" then
        match unmarshalCommandName J data with
        | Unparsed err => Returned (Some err, [])
        | Parsed commandName =>
          let logged := [ALog Debug "processing incoming MESSAGE"] in
          if String.eqb commandName "MesosCommand_Transition" then
            match unmarshalTransition J data with
            | Unparsed err =>
              Returned (Some err,
                        logged ++ [ALog Error "cannot unmarshal incoming MESSAGE"])
            | Parsed res =>
              let sender :=
                {| TargetAgentId := agentId;
                   TargetExecutorId := executorId;
                   TargetTaskId := TaskId res |} in
              Returned (None,
                        logged ++
                        [AGo [UpdateTaskState (TaskId res) (CurrentState res);
                              ProcessResponse res sender]])
            end
          else
            Returned (Some ("unrecognized response for controlcommand "
                            +:+ commandName)%string, logged)
        end
      else Returned (None, [])
    end
  end.

(** Handler for Event_MESSAGE. *)
Definition incomingMessageHandler (mesosMessage : option (Message Bytes))
    : Outcome (option string * list Action) :=
  let first := ALog Debug "scheduler.incomingMessageHandler BEGIN" in
  let deferred := ALog Debug "scheduler.incomingMessageHandler END" in
  match routeMessage mesosMessage with
  | Returned (err, acts) => Returned (err, first :: acts ++ [deferred])
  | Panicked (err, acts) => Panicked (err, first :: acts ++ [deferred])
  end.

End Messages.

(** The levels at which a run of a handler logged. *)
Fixpoint logLevels (acts : list Action) : list Level :=
  match acts with
  | [] => []
  | ALog l _ :: acts' => l :: logLevels acts'
  | _ :: acts' => logLevels acts'
  end.

Definition transitionsInitiated (acts : list Action) : list (Environment * Transition) :=
  flat_map (λ a, match a with ATryTransition e t => [(e, t)] | _ => [] end) acts.

Definition delivered (acts : list Action)
    : list (MesosCommandResponse_Transition * MesosCommandTarget) :=
  flat_map (λ a, match a with
                 | AGo body =>
                   flat_map (λ b, match b with
                                  | ProcessResponse r s => [(r, s)]
                                  | _ => []
                                  end) body
                 | _ => []
                 end) acts.

(** *** What a cycle sends *)

(** The tasks of all the ACCEPT calls of a trace, in order. *)
Definition allLaunches (tr : list Event) : list TaskInfo :=
  flat_map (λ e, match e with ECall (Accept _ l) => l | _ => [] end) tr.

(** *** The UPDATE handler *)

(** [mesos.TaskState] *)
Inductive TaskState :=
| TASK_STAGING | TASK_STARTING | TASK_RUNNING | TASK_KILLING
| TASK_FINISHED | TASK_FAILED | TASK_KILLED | TASK_ERROR | TASK_LOST
| TASK_DROPPED | TASK_UNREACHABLE | TASK_GONE | TASK_GONE_BY_OPERATOR
| TASK_UNKNOWN.

(** What the handler reads of a [mesos.TaskStatus]. *)
Record TaskStatus := {
  StatusTaskID : string;
  GetState : TaskState;
  GetReason : string;
  GetSource : string;
  GetMessage : string
}.

Inductive UpdateAction :=
| ULock
| UUnlock
| UTasksFinishedMetric
| ULog (level : Level) (msg : string)
| UGoUpdateTaskStatus (s : TaskStatus).   (* go state.taskman.UpdateTaskStatus(&s) *)

Section Update.
(* state.tasksFinished++, on the integer type the state gives the field *)
Context (increment : Z → Z).

(** [statusUpdate]: the handler of one UPDATE event, from the value of
    [state.tasksFinished] to its new value and what was done. *)
Definition statusUpdate (verbose : bool) (tasksFinished : Z) (s : TaskStatus)
    : Z * list UpdateAction :=
  let logged :=
    if verbose then [ULog Debug "task status update received"] else [] in
  (* What's the new task state? *)
  let '(tasksFinished, handled) :=
    match GetState s with
    | TASK_FINISHED =>
      (increment tasksFinished,
       [ULog Debug "state lock"; ULock; UTasksFinishedMetric; UUnlock;
        ULog Debug "state unlock"])
    | TASK_LOST | TASK_KILLED | TASK_FAILED | TASK_ERROR =>
      (tasksFinished, [ULog Info "task inactive exception"])
    | _ => (tasksFinished, [])
    end in
  (* Enqueue task state update *)
  (tasksFinished, logged ++ handled ++ [UGoUpdateTaskStatus s]).

(** The handler run on the UPDATE events of a subscription, in order. *)
Fixpoint statusUpdates (verbose : bool) (tasksFinished : Z)
    (updates : list TaskStatus) : Z * list UpdateAction :=
  match updates with
  | [] => (tasksFinished, [])
  | s :: updates' =>
    let '(n, acts) := statusUpdate verbose tasksFinished s in
    let '(n', acts') := statusUpdates verbose n updates' in
    (n', acts ++ acts')
  end.

End Update.

(** The updates of the go statements among the actions of the handler, in
    the order it executes them. *)
Definition goStatements (acts : list UpdateAction) : list TaskStatus :=
  flat_map (λ a, match a with UGoUpdateTaskStatus s => [s] | _ => [] end) acts.

Definition isFinished (s : TaskStatus) : bool :=
  match GetState s with TASK_FINISHED => true | _ => false end.

(** The state mutex over the actions of the UPDATE handler: whether it is
    held in the end, or [None] when it is locked while held or unlocked
    while free. *)
Fixpoint heldAfter (held : bool) (acts : list UpdateAction) : option bool :=
  match acts with
  | [] => Some held
  | ULock :: acts' => if held then None else heldAfter true acts'
  | UUnlock :: acts' => if held then heldAfter false acts' else None
  | _ :: acts' => heldAfter held acts'
  end.

(** *** The FAILURE handler *)

(** What the handler reads of a [scheduler.Event_Failure]: three pointers,
    nil when the failure does not say. *)
Record Failure := {
  FailureExecutorID : option string;
  FailureAgentID : option string;
  FailureStatus : option Z
}.

(** [failure]: the entries it logs, each with its level, its message and
    its fields; it returns nil. *)
Definition failure (f : Failure) : list (Level * string * gmap string string) :=
  let '(eid, aid, stat) :=
    (FailureExecutorID f, FailureAgentID f, FailureStatus f) in
  match eid with
  | Some eid =>
    (* executor failed.. *)
    let fields : gmap string string := {[ "executor"%string := eid ]} in
    let fields :=
      match aid with
      | Some aid => <[ "agent"%string := aid ]> fields
      | None => fields
      end in
    let fields :=
      match stat with
      | Some stat => <[ "error"%string := pretty stat ]> fields
      | None => fields
      end in
    [(Error, "executor failed"%string, fields)]
  | None =>
    match aid with
    | Some aid =>
      (* agent failed.. *)
      [(Error, "agent failed"%string, {[ "agent"%string := aid ]})]
    | None => []
    end
  end.

End sched.

(** ** Package repos: the refresh operations of the repository manager *)

Module repos.

(** What the manager reads of a [Repo]. *)
Record Repo := { GetIdentifier : string; Revision : string; Default : bool }.

Record RepoManager := {
  repoList : gmap string Repo;
  defaultRepo : option string
}.

(** What a call returning an [error] can do: return nil, return an error,
    or panic. *)
Inductive Result :=
| Nil
| Err (msg : string)
| Panic.

Fixpoint hasSuffixSlash (s : string) : bool :=
  match s with
  | EmptyString => false
  | String c EmptyString => Ascii.eqb c "/"%char
  | String _ s' => hasSuffixSlash s'
  end.

(** Modelled from the spec: [utils.EnsureTrailingSlash] belongs to package
    utils, of which only the calls are at hand; it is the trailing-slash
    normalization of a repository path: a path that does not end in a slash
    gets one. *)
Definition EnsureTrailingSlash (path : string) : string :=
  if hasSuffixSlash path then path else (path +:+ "/")%string.

Section Manager.
(* Repo.refresh on a receiver that may be nil *)
Context (refresh : option Repo → Result).
(* the conversion string(index) of an int *)
Context (runeToString : Z → string).
Context (manager : RepoManager).

(** Ensure alphabetical order of repos in output. *)
Definition GetOrderedRepolistKeys : list string :=
  merge_sort (λ a b, String.leb a b) (map_to_list (repoList manager)).*1.

Definition RefreshRepo (repoPath : string) : Result :=
  let repoPath := EnsureTrailingSlash repoPath in
  let repo := repoList manager !! repoPath in
  refresh repo.

(** The loop [for i, repoName := range keys], entered at position [i]. *)
Fixpoint refreshFrom (keys : list string) (i index : Z) : Result :=
  match keys with
  | [] =>
    Err ("RefreshRepoByIndex: repo not found for index: "
         +:+ runeToString index)%string
  | repoName :: keys' =>
    if (i =? index)%Z then refresh (repoList manager !! repoName)
    else refreshFrom keys' (i + 1)%Z index
  end.

Definition RefreshRepoByIndex (index : Z) : Result :=
  refreshFrom GetOrderedRepolistKeys 0%Z index.

End Manager.

(** Repos are compared field by field, as the keys of a map are. *)
#[global] Instance Repo_eq_dec : EqDecision Repo.
Proof. solve_decision. Defined.

(** *** Ranging over the repo list *)

Section Ranging.
(* Repo.refresh on a receiver that may be nil *)
Context (refresh : option Repo → Result).
(* Repo.getWorkflows: the templates of the repo, or the error *)
Context (getWorkflows : Repo → list string + string).
(* the entries of a map in the order in which a range yields them *)
Context (rangeOver : gmap string Repo → list (string * Repo)).

(** The loop [for _, repo := range manager.repoList] of RefreshRepos, over
    the repos left to visit. *)
Fixpoint refreshEach (repos : list Repo) : Result :=
  match repos with
  | [] => Nil
  | repo :: repos' =>
    match refresh (Some repo) with
    | Nil => refreshEach repos'
    | Err err =>
      Err ("refresh repo for " +:+ GetIdentifier repo +:+ ":" +:+ err)%string
    | Panic => Panic
    end
  end.

Definition RefreshRepos (manager : RepoManager) : Result :=
  refreshEach (rangeOver (repoList manager)).*2.

(** The loop of GetWorkflowTemplates, over the repos left to visit, with the
    list and the count built so far.  The count is a number of strings held
    in memory at once. *)
Fixpoint templatesOf (repos : list Repo)
    (templateList : gmap string (list string)) (numTemplates : nat)
    : option (gmap string (list string)) * nat * option string :=
  match repos with
  | [] => (Some templateList, numTemplates, None)
  | repo :: repos' =>
    match getWorkflows repo with
    | inr err => (None, 0%nat, Some err)
    | inl templates =>
      templatesOf repos' (<[GetIdentifier repo := templates]> templateList)
                  (numTemplates + length templates)%nat
    end
  end.

Definition GetWorkflowTemplates (manager : RepoManager)
    : option (gmap string (list string)) * nat * option string :=
  templatesOf (rangeOver (repoList manager)).*2 ∅ 0%nat.

End Ranging.

(** *** The manager and its pointers *)

(** The manager holds its repos by pointer, in the list and as the default
    repo, and writes their fields through either.  Here the pointers are
    numbers, [store] gives the [Repo] each one points to, and the pointers
    below [allocated] are those in use; nil is [None]. *)
Module pointers.

Record RepoManager := {
  store : nat → Repo;
  allocated : nat;
  repoList : gmap string nat;
  defaultRepo : option nat
}.

(** The store after [*p = repo]. *)
Definition assign (p : nat) (repo : Repo) (store : nat → Repo) : nat → Repo :=
  λ q, if decide (q = p) then repo else store q.

Definition write (p : nat) (f : Repo → Repo) (m : RepoManager) : RepoManager :=
  {| store := assign p (f (store m p)) (store m);
     allocated := allocated m;
     repoList := repoList m;
     defaultRepo := defaultRepo m |}.

Definition withDefault (b : bool) (repo : Repo) : Repo :=
  {| GetIdentifier := GetIdentifier repo; Revision := Revision repo; Default := b |}.

Definition withRevision (revision : string) (repo : Repo) : Repo :=
  {| GetIdentifier := GetIdentifier repo; Revision := revision;
     Default := Default repo |}.

(** What the manager does outside its own memory, in order. *)
Inductive Effect :=
| PlainClone (cloneDir url revision : string)
| Checkout (cloneDir revision : string)
| IsDirEmpty (dir : string)
| Remove (dir : string)
| RemoveAll (dir : string)
| NewDefaultRepo (identifier : string)
| GetDefaultRepo
| Glob (pattern : string)
| Warning (msg : string)
| Fatal (msg : string).

(** How [git.PlainClone] ends. *)
Inductive Cloned :=
| CloneDone
| CloneAlreadyExists            (* git.ErrRepositoryAlreadyExists *)
| CloneFailed (err : string).

(** What the manager calls and does not define.  What a call into the file
    system, into git or into the configuration backend gives depends on what
    was done before it. *)
Record World := {
  NewRepo : string → Repo + string;
  getCloneDir : Repo → string;
  getCloneParentDirs : Repo → list string;
  getUrl : Repo → string;
  getWorkflowDir : Repo → string;
  plainClone : list Effect → Repo → Cloned;
  (* Repo.checkoutRevision, on a pointer: the repo it leaves and its error *)
  checkoutRevision : list Effect → Repo → string → Repo * option string;
  isDirEmpty : list Effect → string → bool * option string;
  remove : list Effect → string → option string;
  newDefaultRepo : list Effect → string → option string;
  (* cService.GetDefaultRepo *)
  getDefaultRepo : list Effect → string + string;
  (* filepath.Glob *)
  glob : list Effect → string → list string + string;
  (* the keys of a map of repos in the order in which a range yields them *)
  rangeOverKeys : list Repo → list Repo;
  ErrRepositoryAlreadyExists : string;
  (* viper.GetString("defaultRepo") and viper.GetString("RepositoriesPath") *)
  defaultRepoSetting : string;
  RepositoriesPath : string
}.

(** What a call returning an [error] leaves: what was done, the manager,
    and the error. *)
Abbreviation Left := (list Effect * RepoManager * Result)%type.

Section Manager.
Context (W : World).

Definition GetOrderedRepolistKeys (manager : RepoManager) : list string :=
  merge_sort (λ a b, String.leb a b) (map_to_list (repoList manager)).*1.

Definition setDefaultRepo (repo : nat) (done : list Effect)
    (manager : RepoManager) : list Effect * RepoManager :=
  let manager :=
    match defaultRepo manager with
    | Some old => write old (withDefault false) manager (* Update old default repo *)
    | None => manager
    end in
  (* Update default_repo backend *)
  let identifier := GetIdentifier (store manager repo) in
  let done' := done ++ [NewDefaultRepo identifier] in
  let done' :=
    match newDefaultRepo W done identifier with
    | Some err =>
      done' ++ [Warning ("Failed to update default_repo backend: " +:+ err)]
    | None => done'
    end in
  (done',
   write repo (withDefault true)
     {| store := store manager; allocated := allocated manager;
        repoList := repoList manager; defaultRepo := Some repo |}).

Fixpoint cleanCloneParentDirs (parentDirs : list string) (done : list Effect)
    : list Effect * option string :=
  match parentDirs with
  | [] => (done, None)
  | dir :: parentDirs' =>
    let '(empty, err) := isDirEmpty W done dir in
    let done := done ++ [IsDirEmpty dir] in
    if empty then
      match err with
      | Some err => (done, Some err)
      | None =>
        match remove W done dir with
        | Some err => (done ++ [Remove dir], Some err)
        | None => cleanCloneParentDirs parentDirs' (done ++ [Remove dir])
        end
      end
    else cleanCloneParentDirs parentDirs' done
  end.

(** [manager.repoList[repo.GetIdentifier()] = repo] and what follows it in
    AddRepo, for a repo that no pointer of the manager points to yet. *)
Definition register (repo : Repo) (done : list Effect) (manager : RepoManager)
    : list Effect * RepoManager :=
  let p := allocated manager in
  let manager :=
    {| store := assign p repo (store manager);
       allocated := S p;
       repoList := <[GetIdentifier repo := p]> (repoList manager);
       defaultRepo := defaultRepo manager |} in
  (* Set default repo *)
  if (size (repoList manager) =? 1)%nat then setDefaultRepo p done manager
  else (done, manager).

Definition AddRepo (repoPath : string) (done : list Effect)
    (manager : RepoManager) : Left :=
  let repoPath := EnsureTrailingSlash repoPath in
  match NewRepo W repoPath with
  | inr err => (done, manager, Err err)
  | inl repo =>
    match repoList manager !! GetIdentifier repo with
    | None => (* Try to clone it *)
      let cloned := plainClone W done repo in
      let done :=
        done ++ [PlainClone (getCloneDir W repo) (getUrl W repo) (Revision repo)] in
      match cloned with
      | CloneDone => (register repo done manager, Nil)
      | CloneAlreadyExists => (* Make sure master is checked out *)
        let checkedOut := Checkout (getCloneDir W repo) (Revision repo) in
        let '(repo, checkoutErr) := checkoutRevision W done repo (Revision repo) in
        let done := done ++ [checkedOut] in
        match checkoutErr with
        | Some checkoutErr =>
          (done, manager,
           Err (ErrRepositoryAlreadyExists W +:+ " " +:+ checkoutErr))
        | None => (register repo done manager, Nil)
        end
      | CloneFailed err =>
        let '(done, cleanErr) :=
          cleanCloneParentDirs (getCloneParentDirs W repo) done in
        match cleanErr with
        | Some cleanErr =>
          (done, manager,
           Err (err +:+ " Failed to clean directories: " +:+ cleanErr))
        | None => (done, manager, Err err)
        end
      end
    | Some _ => (done, manager, Err "Repo already present")
    end
  end.

(** What RemoveRepoByIndex returns, [None] when it panics. *)
Abbreviation Removed := (option (bool * string))%type.

(** The body of the loop of RemoveRepoByIndex at the index asked for. *)
Definition removeRepo (repoName : string) (done : list Effect)
    (manager : RepoManager) : list Effect * RepoManager * Removed :=
  match repoList manager !! repoName with
  | None => (done, manager, None)       (* nil dereference *)
  | Some p =>
    let wasDefault := Default (store manager p) in
    (* Try, but don't crash if we fail *)
    let done := done ++ [RemoveAll (getCloneDir W (store manager p))] in
    let manager :=
      {| store := store manager; allocated := allocated manager;
         repoList := delete repoName (repoList manager);
         defaultRepo := defaultRepo manager |} in
    (* Set as default the repo sitting on top of the list *)
    if wasDefault && (0 <? size (repoList manager))%nat then
      match GetOrderedRepolistKeys manager with
      | [] => (done, manager, None)     (* index out of range *)
      | top :: _ =>
        match repoList manager !! top with
        | None => (done, manager, None) (* nil dereference *)
        | Some q =>
          let '(done, manager) := setDefaultRepo q done manager in
          (* Update keys after deletion *)
          match GetOrderedRepolistKeys manager with
          | [] => (done, manager, None)
          | newDefaultRepo :: _ => (done, manager, Some (true, newDefaultRepo))
          end
        end
      end
    else if (size (repoList manager) =? 0)%nat then
      let done' := done ++ [NewDefaultRepo (defaultRepoSetting W)] in
      let done' :=
        match newDefaultRepo W done (defaultRepoSetting W) with
        | Some _ => done' ++ [Warning "Failed to update default_repo backend"]
        | None => done'
        end in
      (done', manager, Some (true, ""%string))
    else (done, manager, Some (true, ""%string))
  end.

(** The loop [for i, repoName := range keys], entered at position [i]. *)
Fixpoint removeFrom (keys : list string) (i index : Z) (done : list Effect)
    (manager : RepoManager) : list Effect * RepoManager * Removed :=
  match keys with
  | [] => (done, manager, Some (false, ""%string))
  | repoName :: keys' =>
    if (i =? index)%Z then removeRepo repoName done manager
    else removeFrom keys' (i + 1)%Z index done manager
  end.

Definition RemoveRepoByIndex (index : Z) (done : list Effect)
    (manager : RepoManager) : list Effect * RepoManager * Removed :=
  removeFrom (GetOrderedRepolistKeys manager) 0%Z index done manager.

(** The two UpdateDefaultRepo functions after the lookup of the repo. *)
Definition updateDefault (newDefaultRepo : option nat) (done : list Effect)
    (manager : RepoManager) : Left :=
  match newDefaultRepo with
  | None => (done, manager, Err "Repo not found")
  | Some p =>
    if decide (Some p = defaultRepo manager) then
      (done, manager,
       Err (GetIdentifier (store manager p) +:+ " is already the default repo"))
    else (setDefaultRepo p done manager, Nil)
  end.

Definition UpdateDefaultRepoByIndex (index : Z) (done : list Effect)
    (manager : RepoManager) : Left :=
  (* the index expression panics out of the range of the keys *)
  match (if (0 <=? index)%Z
         then GetOrderedRepolistKeys manager !! Z.to_nat index else None) with
  | None => (done, manager, Panic)
  | Some key => updateDefault (repoList manager !! key) done manager
  end.

Definition UpdateDefaultRepo (repoPath : string) (done : list Effect)
    (manager : RepoManager) : Left :=
  let repoPath := EnsureTrailingSlash repoPath in
  updateDefault (repoList manager !! repoPath) done manager.

(** [strings.HasSuffix] *)
Fixpoint HasSuffix (s suffix : string) : bool :=
  String.eqb s suffix
  || match s with
     | EmptyString => false
     | String _ s' => HasSuffix s' suffix
     end.

(** [strings.Split] by a separator that is not empty: the pieces between
    the occurrences of the separator, found from the left and not
    overlapping.  [skip] counts the bytes of a separator still to pass and
    [piece] is the piece read so far. *)
Fixpoint splitFrom (sep : string) (skip : nat) (piece s : string) : list string :=
  match s with
  | EmptyString => [piece]
  | String c s' =>
    match skip with
    | S skip' => splitFrom sep skip' piece s'
    | O =>
      if String.prefix sep s
      then piece :: splitFrom sep (String.length sep - 1) "" s'
      else splitFrom sep 0 (piece +:+ String c "") s'
    end
  end.

Definition Split (s sep : string) : list string := splitFrom sep 0 "" s.

(** What GetWorkflow returns: the resolved path, the repo and the error, or
    [None] when it panics. *)
Abbreviation Resolved := (option (string * option nat * option string))%type.

(** A workflow path that names no repo: once the revision is cut off, it
    has no "workflows/" in it. *)
Definition namesNoRepo (workflowPath : string) : Prop :=
  ∃ workflowFile,
    Split (match Split workflowPath "@" with
           | [path; _] => path
           | _ => workflowPath
           end) "workflows/" = [workflowFile].

(** GetWorkflow from the point where the repo is resolved. *)
Definition resolveIn (workflowRepo : option nat) (revision workflowFile : string)
    (done : list Effect) (manager : RepoManager)
    : list Effect * RepoManager * Resolved :=
  match workflowRepo with
  | None => (done, manager, None)       (* nil dereference *)
  | Some p =>
    (* If a revision has been specified, update the Repo *)
    let manager :=
      if negb (String.eqb revision "")
      then write p (withRevision revision) manager else manager in
    (* Make sure that HEAD is on the expected revision *)
    let '(repo, err) :=
      checkoutRevision W done (store manager p) (Revision (store manager p)) in
    let done :=
      done ++ [Checkout (getCloneDir W (store manager p))
                        (Revision (store manager p))] in
    let manager := write p (λ _, repo) manager in
    match err with
    | Some err => (done, manager, Some (""%string, Some p, Some err))
    | None =>
      let workflowFile :=
        if negb (HasSuffix workflowFile ".yaml")
        then (workflowFile +:+ ".yaml")%string  (* Add trailing ".yaml" *)
        else workflowFile in
      (done, manager,
       Some ((getWorkflowDir W (store manager p) +:+ workflowFile)%string,
             Some p, None))
    end
  end.

Definition GetWorkflow (workflowPath : string) (done : list Effect)
    (manager : RepoManager) : list Effect * RepoManager * Resolved :=
  (* Get revision if present *)
  let revSlice := Split workflowPath "@" in
  let '(workflowPath, revision) :=
    match revSlice with
    | [path; revision] => (path, revision)
    | _ => (workflowPath, ""%string)
    end in
  (* Resolve repo *)
  let workflowInfo := Split workflowPath "workflows/" in
  match workflowInfo with
  | [workflowFile] => (* Repo not specified *)
    resolveIn (defaultRepo manager) revision workflowFile done manager
  | [repoKey; workflowFile] => (* Repo specified - try to find it *)
    match repoList manager !! repoKey with
    | None =>
      (done, manager,
       Some (""%string, None, Some "Workflow comes from an unknown repo"%string))
    | Some p => resolveIn (Some p) revision workflowFile done manager
    end
  | _ =>
    (done, manager,
     Some (""%string, None, Some "Workflow path resolution failed"%string))
  end.

(** The first loop of EnsureReposPresent: the repos of the task classes,
    or the error of the first class that gives one. *)
Fixpoint reposRequired (taskClassesRequired : list string) : list Repo + string :=
  match taskClassesRequired with
  | [] => inl []
  | taskClass :: taskClasses' =>
    match NewRepo W taskClass with
    | inr err => inr err
    | inl newRepo =>
      match reposRequired taskClasses' with
      | inr err => inr err
      | inl repos => inl (newRepo :: repos)
      end
    end
  end.

(** The body of its second loop. *)
Definition ensurePresent (repo : Repo) (done : list Effect)
    (manager : RepoManager) : Left :=
  match repoList manager !! GetIdentifier repo with
  | None => AddRepo (GetIdentifier repo) done manager
  | Some existingRepo =>
    if negb (String.eqb (Revision (store manager existingRepo)) (Revision repo))
    then
      let '(checkedOut, err) :=
        checkoutRevision W done (store manager existingRepo) (Revision repo) in
      (done ++ [Checkout (getCloneDir W (store manager existingRepo))
                         (Revision repo)],
       write existingRepo (λ _, checkedOut) manager,
       match err with Some err => Err err | None => Nil end)
    else (done, manager, Nil)
  end.

Fixpoint ensureEach (repos : list Repo) (done : list Effect)
    (manager : RepoManager) : Left :=
  match repos with
  | [] => (done, manager, Nil)
  | repo :: repos' =>
    match ensurePresent repo done manager with
    | (done, manager, Nil) => ensureEach repos' done manager
    | failed => failed
    end
  end.

Definition EnsureReposPresent (taskClassesRequired : list string)
    (done : list Effect) (manager : RepoManager) : Left :=
  match reposRequired taskClassesRequired with
  | inr err => (done, manager, Err err)
  | inl repos =>
    (* Make sure that the relevant repos are present and checked out on the
       expected revision *)
    ensureEach (rangeOverKeys W repos) done manager
  end.

(** [strings.TrimPrefix] *)
Definition TrimPrefix (s prefix : string) : string :=
  if String.prefix prefix s
  then String.substring (String.length prefix)
                        (String.length s - String.length prefix) s
  else s.

(** The loops of discoverRepos over the usernames of a hosting site and
    over the hosting sites, with the repos found so far, which are what is
    returned with the error when a pattern fails. *)
Fixpoint discoverIn (usernames : list string) (repos : list string)
    (done : list Effect) : list Effect * list string * option string :=
  match usernames with
  | [] => (done, repos, None)
  | username :: usernames' =>
    let found := glob W done (username +:+ "/*") in
    let done := done ++ [Glob (username +:+ "/*")] in
    match found with
    | inr err => (done, repos, Some err)
    | inl someRepos =>
      (* sanitize path *)
      discoverIn usernames'
        (repos ++ ((λ repo, TrimPrefix repo (RepositoriesPath W)) <$> someRepos))
        done
    end
  end.

Fixpoint discoverAt (hostingSites : list string) (repos : list string)
    (done : list Effect) : list Effect * list string * option string :=
  match hostingSites with
  | [] => (done, repos, None)
  | hostingSite :: hostingSites' =>
    let found := glob W done (hostingSite +:+ "/*") in
    let done := done ++ [Glob (hostingSite +:+ "/*")] in
    match found with
    | inr err => (done, repos, Some err)
    | inl usernames =>
      match discoverIn usernames repos done with
      | (done, repos, None) => discoverAt hostingSites' repos done
      | failed => failed
      end
    end
  end.

Definition discoverRepos (done : list Effect)
    : list Effect * list string * option string :=
  let found := glob W done (RepositoriesPath W +:+ "*") in
  let done := done ++ [Glob (RepositoriesPath W +:+ "*")] in
  match found with
  | inr err => (done, [], Some err)
  | inl hostingSites => discoverAt hostingSites [] done
  end.

(** The loop of initializeRepos over the repos discovered. *)
Fixpoint addDiscovered (discoveredRepos : list string) (done : list Effect)
    (manager : RepoManager) : option (list Effect * RepoManager) :=
  match discoveredRepos with
  | [] => Some (done, manager)
  | repo :: discoveredRepos' =>
    match AddRepo repo done manager with
    | (done, manager, Nil) => addDiscovered discoveredRepos' done manager
    | (done, manager, Err err) =>
      let done :=
        if String.eqb err "Repo already present"
        then done                       (* Skip error for default repo *)
        else done ++ [Warning ("Failed to add persistent repo: " +:+ repo
                               +:+ " | " +:+ err)] in
      addDiscovered discoveredRepos' done manager
    | (_, _, Panic) => None
    end
  end.

(** [initializeRepos], from the empty manager it makes: what was done and
    the manager, or [None] when log.Fatal ends the process. *)
Definition initializeRepos (rm : RepoManager)
    : list Effect * option RepoManager :=
  (* Get default repo *)
  let '(done, defaultRepo) :=
    match getDefaultRepo W [] with
    | inl defaultRepo => ([GetDefaultRepo], defaultRepo)
    | inr _ =>
      ([GetDefaultRepo; Warning "Failed to parse default_repo from backend"],
       defaultRepoSetting W)
    end in
  (* Add default repo *)
  match AddRepo defaultRepo done rm with
  | (done, rm, Nil) =>
    (* Discover & add repos from filesystem *)
    let '(done, discoveredRepos, err) := discoverRepos done in
    let done :=
      match err with
      | Some err =>
        done ++ [Warning ("Failed on discovery of existing repos: " +:+ err)]
      | None => done
      end in
    match addDiscovered discoveredRepos done rm with
    | Some (done, rm) => (done, Some rm)
    | None => (done, None)
    end
  | (done, _, Err err) =>
    (done ++ [Fatal ("Could not open default repo: " +:+ err)], None)
  | (done, _, Panic) => (done, None)
  end.

(** The calls on a manager, and a sequence of them; [None] when a call
    panics. *)
Inductive Op :=
| OpAddRepo (repoPath : string)
| OpRemoveRepoByIndex (index : Z)
| OpUpdateDefaultRepo (repoPath : string)
| OpUpdateDefaultRepoByIndex (index : Z)
| OpGetWorkflow (workflowPath : string)
| OpEnsureReposPresent (taskClassesRequired : list string).

Definition perform (op : Op) (done : list Effect) (manager : RepoManager)
    : option (list Effect * RepoManager) :=
  match op with
  | OpAddRepo repoPath =>
    match AddRepo repoPath done manager with
    | (_, _, Panic) => None
    | (done, manager, _) => Some (done, manager)
    end
  | OpRemoveRepoByIndex index =>
    match RemoveRepoByIndex index done manager with
    | (_, _, None) => None
    | (done, manager, Some _) => Some (done, manager)
    end
  | OpUpdateDefaultRepo repoPath =>
    match UpdateDefaultRepo repoPath done manager with
    | (_, _, Panic) => None
    | (done, manager, _) => Some (done, manager)
    end
  | OpUpdateDefaultRepoByIndex index =>
    match UpdateDefaultRepoByIndex index done manager with
    | (_, _, Panic) => None
    | (done, manager, _) => Some (done, manager)
    end
  | OpGetWorkflow workflowPath =>
    match GetWorkflow workflowPath done manager with
    | (_, _, None) => None
    | (done, manager, Some _) => Some (done, manager)
    end
  | OpEnsureReposPresent taskClassesRequired =>
    match EnsureReposPresent taskClassesRequired done manager with
    | (_, _, Panic) => None
    | (done, manager, _) => Some (done, manager)
    end
  end.

Fixpoint performAll (ops : list Op) (done : list Effect)
    (manager : RepoManager) : option (list Effect * RepoManager) :=
  match ops with
  | [] => Some (done, manager)
  | op :: ops' =>
    match perform op done manager with
    | None => None
    | Some (done, manager) => performAll ops' done manager
    end
  end.

End Manager.

(** [RepoManager{repoList: map[string]*Repo {}}]: no pointer is in use, and
    [repo] is what the store is filled with. *)
Definition newManager (repo : Repo) : RepoManager :=
  {| store := λ _, repo; allocated := 0; repoList := ∅; defaultRepo := None |}.

(** The manager as the functions above see it when they only read. *)
Definition view (manager : RepoManager) : repos.RepoManager :=
  {| repos.repoList := store manager <$> repoList manager;
     repos.defaultRepo :=
       (λ p, GetIdentifier (store manager p)) <$> defaultRepo manager |}.

(** In a manager of the right shape the pointers of the list are in use
    and distinct, and each repo is listed under its identifier. *)
Record shaped (manager : RepoManager) : Prop := {
  listed_allocated :
    ∀ k p, repoList manager !! k = Some p → (p < allocated manager)%nat;
  default_allocated :
    ∀ p, defaultRepo manager = Some p → (p < allocated manager)%nat;
  listed_distinct :
    ∀ k k' p, repoList manager !! k = Some p →
              repoList manager !! k' = Some p → k = k';
  listed_by_identifier :
    ∀ k p, repoList manager !! k = Some p →
           GetIdentifier (store manager p) = k
}.

(** In a sound manager, moreover, the default repo has its flag set, it is
    the only repo of the list that has, and it is a repo of the list while
    the list is not empty. *)
Record sound (manager : RepoManager) : Prop := {
  sound_shaped : shaped manager;
  default_listed :
    repoList manager ≠ ∅ →
    ∃ k p, defaultRepo manager = Some p ∧ repoList manager !! k = Some p;
  default_flagged :
    ∀ p, defaultRepo manager = Some p → Default (store manager p) = true;
  flagged_default :
    ∀ k p, repoList manager !! k = Some p →
           Default (store manager p) = true → defaultRepo manager = Some p
}.

End pointers.

End repos.

(** ** Concrete collaborators and runs *)

Module Scenario.
Import mesos task sched.

Definition wantsOf (d : Descriptor) : option Wants :=
  if String.eqb (TaskClassName d) "readout" then
    Some {| Cpu := 2; Memory := 1024; StaticPorts := []; BindPorts := ["data"%string] |}
  else if String.eqb (TaskClassName d) "stfbuilder" then
    Some {| Cpu := 3; Memory := 2048; StaticPorts := []; BindPorts := [] |}
  else if String.eqb (TaskClassName d) "stfsender" then
    Some {| Cpu := 1; Memory := 512; StaticPorts := [];
            BindPorts := ["data"; "monitoring"]%string |}
  else None.

(** Every constraint names an attribute the offer has with that value. *)
Definition attributesSatisfy (attributes constraints : list (string * string)) : bool :=
  forallb (λ c, existsb (λ a, String.eqb a.1 c.1 && String.eqb a.2 c.2) attributes)
          constraints.

Definition newTask (offer : Offer) (d : Descriptor) (bindMap : gmap string N)
    (executorId : string) : option Task :=
  Some {| GetTaskId := (TaskRolePath d +:+ "@" +:+ ID offer)%string;
          GetName := TaskClassName d;
          GetExecutorId := executorId;
          GetEnvironmentId := "env-1" |}.

Definition commandOf (t : Task) : CommandInfo :=
  {| Value := GetName t; Arguments := []; Env := []; ControlPort := 0 |}.

(** A lab where every class may go anywhere, every call succeeds and every
    command serializes. *)
Definition lab : Collaborators :=
  {| BuildDescriptorConstraints := λ _ _, [];
     AttributesSatisfy := attributesSatisfy;
     GetWantsForDescriptor := wantsOf;
     ResourcesSatisfy := Satisfy;
     NewTaskForMesosOffer := newTask;
     BuildTaskCommand := commandOf;
     jsonMarshal := λ cmd, Some (String.concat " " (Value cmd :: Arguments cmd));
     NewUUID := λ offer, ("executor-of-" +:+ ID offer)%string;
     CallNoData := λ _, false;
     executorResources := {| cpus := 1 # 10; mem := 64; ports := [] |};
     listenerReady := true |}.

(** The same lab, where [json.Marshal] rejects every command. *)
Definition labNoJson : Collaborators :=
  {| BuildDescriptorConstraints := BuildDescriptorConstraints lab;
     AttributesSatisfy := AttributesSatisfy lab;
     GetWantsForDescriptor := GetWantsForDescriptor lab;
     ResourcesSatisfy := ResourcesSatisfy lab;
     NewTaskForMesosOffer := NewTaskForMesosOffer lab;
     BuildTaskCommand := BuildTaskCommand lab;
     jsonMarshal := λ _, None;
     NewUUID := NewUUID lab;
     CallNoData := CallNoData lab;
     executorResources := executorResources lab;
     listenerReady := listenerReady lab |}.

Definition offerWith (id : string) (c m : Q) (ps : Ranges) : Offer :=
  {| ID := id;
     AgentID := ("agent-of-" +:+ id)%string;
     Hostname := ("host-of-" +:+ id)%string;
     Attributes := [];
     Resources := {| cpus := c; mem := m; ports := ps |};
     ExecutorIDs := [] |}.

Definition readout : Descriptor :=
  {| TaskClassName := "readout"; TaskRolePath := "flp.readout" |}.
Definition stfbuilder1 : Descriptor :=
  {| TaskClassName := "stfbuilder"; TaskRolePath := "flp.stfbuilder1" |}.
Definition stfbuilder2 : Descriptor :=
  {| TaskClassName := "stfbuilder"; TaskRolePath := "flp.stfbuilder2" |}.
Definition stfsender : Descriptor :=
  {| TaskClassName := "stfsender"; TaskRolePath := "flp.stfsender" |}.

(** The trace of a cycle, however it ended. *)
Definition traceOf (o : Outcome CycleState) : list Event :=
  cycleTrace (stateOf o).

Definition noConstraints : Descriptor → list (string * string) := λ _, [].

(** Offer A with room for everything, with less memory, with one data port
    and one control port, and with a single port; offer B with too little
    CPU. *)
Definition richOffer : Offer :=
  offerWith "A" 4 8192 [Span 9000 9010; Span 30000 30010].
Definition modestOffer : Offer :=
  offerWith "A" 4 4096 [Span 9000 9010; Span 30000 30010].
Definition tightOffer : Offer :=
  offerWith "A" 4 8192 [Span 9000 9000; Span 30000 30000].
Definition onePortOffer : Offer :=
  offerWith "A" 4 8192 [Span 9000 9000].

(** An offer whose port ranges come in descending order and overlap. *)
Definition shuffledOffer : Offer :=
  offerWith "A" 4 8192 [Span 30000 30010; Span 9005 9010; Span 9000 9007].

(** The offers of the end-to-end scenarios: data ports from 10000 and a
    control range from 47101. *)
Definition scenarioOffer : Offer :=
  offerWith "A" 4 8192 [Span 10000 11000; Span 47101 47200].
Definition oneDataPortOffer : Offer :=
  offerWith "A" 4 8192 [Span 10000 10000; Span 47101 47200].
Definition smallOffer : Offer :=
  offerWith "B" 1 8192 [Span 9000 9010; Span 30000 30010].

(** The state in which the descriptor loop of [offer] starts when it is the
    only offer of the cycle and [ds] is pending. *)
Definition entering (offer : Offer) (ds : list Descriptor) : MatchState :=
  enterOffer offer
    {| cyclePending := ds;
       cycleToDecline := {[ ID offer ]};
       tasksDeployed := [];
       tasksLaunchedThisCycle := 0;
       offersDeclined := 0;
       cycleTrace := [] |}.

(** The states reached by one iteration, by the loop of an offer and by a
    cycle. *)
Definition step (C : Collaborators) (offer : Offer) (i : nat) (st : MatchState)
    : MatchState :=
  stateOf (matchDescriptor C noConstraints offer (targetExecutorIdFor C offer) i st).


Definition cycle (C : Collaborators) (offers : list Offer) (ds : list Descriptor)
    : CycleState :=
  stateOf (resourceOffers C offers (Some ds)).

(** Payloads as a decoder sees them: not JSON at all, or an object with
    string fields. *)
Inductive Payload :=
| Garbage
| Object (fields : list (string * string)).

Definition field (name : string) (fields : list (string * string)) : string :=
  match list_find (λ kv, kv.1 = name) fields with
  | Some (_, kv) => kv.2
  | None => ""
  end.

Definition decodeWith {A : Type} (f : list (string * string) → A)
    (data : Payload) : Decoded A :=
  match data with
  | Garbage => Unparsed "invalid character looking for beginning of value"
  | Object fields => Parsed (f fields)
  end.

Definition flatJson : Decoders Payload :=
  {| unmarshalMessageType := decodeWith (field "_messageType");
     unmarshalDeviceEvent :=
       decodeWith (λ fs,
         (if String.eqb (field "type" fs) "END_OF_DATA"
          then END_OF_DATA else NULL_DEVICE_EVENT,
          {| OriginTaskId := field "taskId" fs;
             OriginHostname := field "hostname" fs |}));
     unmarshalCommandName := decodeWith (field "name");
     unmarshalTransition :=
       decodeWith (λ fs,
         {| CommandName := field "name" fs;
            CommandId := field "id" fs;
            TaskId := field "taskId" fs;
            CurrentState := field "currentState" fs;
            ResponseOk := String.eqb (field "ok" fs) "true";
            ResponseMessage := field "message" fs |});
     NewDeviceEvent := λ origin type,
       match type with
       | END_OF_DATA => Some {| GetType := type; GetOrigin := origin |}
       | _ => None
       end |}.

Definition runningEnvironment : Environment :=
  {| EnvironmentId := "env-1"; SmCurrent := "RUNNING" |}.

(** A roster with two tasks, of which the second belongs to an environment
    that is gone. *)
Definition roster : EnvCollaborators :=
  {| GetTask := λ id,
       if String.eqb id "flp.readout@A" then
         Some {| GetTaskId := id; GetName := "readout";
                 GetExecutorId := "executor-of-A"; GetEnvironmentId := "env-1" |}
       else if String.eqb id "flp.stfsender@A" then
         Some {| GetTaskId := id; GetName := "stfsender";
                 GetExecutorId := "executor-of-A"; GetEnvironmentId := "env-0" |}
       else None;
     LookupEnvironment := λ id,
       if String.eqb id "env-1" then (Some runningEnvironment, None)
       else (None, Some ("no environment with id " +:+ id)%string);
     TryTransition := λ _ _, None |}.

Definition endOfDataFrom (taskId : string) : DeviceEvent :=
  {| GetType := END_OF_DATA;
     GetOrigin := {| OriginTaskId := taskId; OriginHostname := "host-of-A" |} |}.

Definition messageOf (data : Payload) : Message Payload :=
  {| MessageAgentID := "agent-of-A";
     MessageExecutorID := "executor-of-A";
     MessageData := data |}.

Definition transitionResponse : Payload :=
  Object [("_messageType", "MesosCommandResponse");
          ("name", "MesosCommand_Transition");
          ("id", "cmd-7");
          ("taskId", "flp.readout@A");
          ("currentState", "CONFIGURED");
          ("ok", "true")]%string.

(** A manager with one repository; refreshing nil panics. *)
Definition workflows : repos.Repo :=
  {| repos.GetIdentifier := "github.com/AliceO2Group/ControlWorkflows/";
     repos.Revision := "master";
     repos.Default := true |}.

Definition oneRepo : repos.RepoManager :=
  {| repos.repoList := {[ "github.com/AliceO2Group/ControlWorkflows/"%string := workflows ]};
     repos.defaultRepo := Some "github.com/AliceO2Group/ControlWorkflows/"%string |}.

Definition refreshOrPanic (repo : option repos.Repo) : repos.Result :=
  match repo with
  | Some _ => repos.Nil
  | None => repos.Panic
  end.

(** Go's [string(index)] for an index from 0 to 127, where it is the one
    byte of that value. *)
Definition asciiRune (index : Z) : string :=
  String (ascii_of_N (Z.to_N index)) "".

Definition sumCpus (l : list TaskInfo) : Q :=
  foldr (λ t acc, (cpus (TaskResources t) + acc)%Q) 0%Q l.

Definition sumMem (l : list TaskInfo) : Q :=
  foldr (λ t acc, (mem (TaskResources t) + acc)%Q) 0%Q l.


(** A roster whose only task belongs to the running environment. *)
Definition soundRoster : EnvCollaborators :=
  {| GetTask := λ id,
       if String.eqb id "flp.readout@A" then
         Some {| GetTaskId := id; GetName := "readout";
                 GetExecutorId := "executor-of-A"; GetEnvironmentId := "env-1" |}
       else None;
     LookupEnvironment := λ id,
       if String.eqb id "env-1" then (Some runningEnvironment, None)
       else (None, Some ("no environment with id " +:+ id)%string);
     TryTransition := λ _ _, None |}.

Definition statusOf (id : string) (st : TaskState) : TaskStatus :=
  {| StatusTaskID := id; GetState := st; GetReason := ""; GetSource := "";
     GetMessage := "" |}.

(** The lab with a master that refuses every call. *)
Definition labNoCalls : Collaborators :=
  {| BuildDescriptorConstraints := BuildDescriptorConstraints lab;
     AttributesSatisfy := AttributesSatisfy lab;
     GetWantsForDescriptor := GetWantsForDescriptor lab;
     ResourcesSatisfy := ResourcesSatisfy lab;
     NewTaskForMesosOffer := NewTaskForMesosOffer lab;
     BuildTaskCommand := BuildTaskCommand lab;
     jsonMarshal := jsonMarshal lab;
     NewUUID := NewUUID lab;
     CallNoData := λ _, true;
     executorResources := executorResources lab;
     listenerReady := listenerReady lab |}.

(** A failure of an executor with its agent and its status. *)
Definition executorLost : Failure :=
  {| FailureExecutorID := Some "executor-of-A"%string;
     FailureAgentID := Some "agent-of-A"%string;
     FailureStatus := Some 137%Z |}.

(** Three repos with workflow templates in two of them. *)
Definition controlWorkflows : repos.Repo :=
  {| repos.GetIdentifier := "github.com/AliceO2Group/ControlWorkflows/";
     repos.Revision := "master"; repos.Default := true |}.
Definition control : repos.Repo :=
  {| repos.GetIdentifier := "github.com/AliceO2Group/Control/";
     repos.Revision := "master"; repos.Default := false |}.

Definition twoListed : repos.RepoManager :=
  {| repos.repoList :=
       {[ "github.com/AliceO2Group/ControlWorkflows/"%string := controlWorkflows;
          "github.com/AliceO2Group/Control/"%string := control ]};
     repos.defaultRepo := Some "github.com/AliceO2Group/ControlWorkflows/"%string |}.

Definition templatesIn (repo : repos.Repo) : list string + string :=
  if String.eqb (repos.GetIdentifier repo)
                "github.com/AliceO2Group/ControlWorkflows/"
  then inl ["readout-qc"; "readout-stfb"]%string
  else inl ["example"%string].

Definition refreshUnlessNil (repo : option repos.Repo) : repos.Result :=
  match repo with
  | Some _ => repos.Nil
  | None => repos.Panic
  end.

(** A world where every path but the root names a repo, whose identifier
    is the path with its trailing slash, where every clone and every
    checkout succeeds, and where the disk holds two repos of one user. *)
Definition repoOf (path : string) : repos.Repo :=
  {| repos.GetIdentifier := path; repos.Revision := "master";
     repos.Default := false |}.

Definition disk : repos.pointers.World :=
  {| repos.pointers.NewRepo := λ path,
       if String.eqb path "/" then inr "repo path resolution failed"%string
       else inl (repoOf (repos.EnsureTrailingSlash path));
     repos.pointers.getCloneDir := λ repo,
       ("/var/lib/o2/aliecs/repos/" +:+ repos.GetIdentifier repo)%string;
     repos.pointers.getCloneParentDirs := λ _, [];
     repos.pointers.getUrl := λ repo,
       ("https://" +:+ repos.GetIdentifier repo)%string;
     repos.pointers.getWorkflowDir := λ repo,
       ("/var/lib/o2/aliecs/repos/" +:+ repos.GetIdentifier repo
        +:+ "workflows/")%string;
     repos.pointers.plainClone := λ _ _, repos.pointers.CloneDone;
     repos.pointers.checkoutRevision := λ _ repo revision,
       (repos.pointers.withRevision revision repo, None);
     repos.pointers.isDirEmpty := λ _ _, (false, None);
     repos.pointers.remove := λ _ _, None;
     repos.pointers.newDefaultRepo := λ _ _, None;
     repos.pointers.getDefaultRepo := λ _,
       inl "github.com/AliceO2Group/ControlWorkflows"%string;
     repos.pointers.glob := λ _ pattern,
       if String.eqb pattern "/var/lib/o2/aliecs/repos/*" then
         inl ["/var/lib/o2/aliecs/repos/github.com"%string]
       else if String.eqb pattern "/var/lib/o2/aliecs/repos/github.com/*" then
         inl ["/var/lib/o2/aliecs/repos/github.com/AliceO2Group"%string]
       else if String.eqb pattern
                 "/var/lib/o2/aliecs/repos/github.com/AliceO2Group/*" then
         inl ["/var/lib/o2/aliecs/repos/github.com/AliceO2Group/ControlWorkflows";
              "/var/lib/o2/aliecs/repos/github.com/AliceO2Group/Control"]%string
       else inl [];
     repos.pointers.rangeOverKeys := remove_dups;
     repos.pointers.ErrRepositoryAlreadyExists := "repository already exists";
     repos.pointers.defaultRepoSetting :=
       "github.com/AliceO2Group/ControlWorkflows";
     repos.pointers.RepositoriesPath := "/var/lib/o2/aliecs/repos/" |}.

(** The manager after the calls [ops] in that world, from the empty one. *)
Definition after (ops : list repos.pointers.Op) : repos.pointers.RepoManager :=
  match repos.pointers.performAll disk ops [] (repos.pointers.newManager (repoOf "")) with
  | Some (_, manager) => manager
  | None => repos.pointers.newManager (repoOf "")
  end.

Definition doneAfter (ops : list repos.pointers.Op) : list repos.pointers.Effect :=
  match repos.pointers.performAll disk ops [] (repos.pointers.newManager (repoOf "")) with
  | Some (done, _) => done
  | None => []
  end.

Definition addBoth : list repos.pointers.Op :=
  [repos.pointers.OpAddRepo "github.com/AliceO2Group/ControlWorkflows";
   repos.pointers.OpAddRepo "github.com/AliceO2Group/Control"].

Definition addOne : list repos.pointers.Op :=
  [repos.pointers.OpAddRepo "github.com/AliceO2Group/ControlWorkflows"].

Definition bothClasses : list string :=
  ["github.com/AliceO2Group/Control";
   "github.com/AliceO2Group/ControlWorkflows/"]%string.

(** The manager that initializeRepos returns in that world. *)
Definition started : repos.pointers.RepoManager :=
  match repos.pointers.initializeRepos disk (repos.pointers.newManager (repoOf "")) with
  | (_, Some manager) => manager
  | (_, None) => repos.pointers.newManager (repoOf "")
  end.

End Scenario.

(** * Properties *)

Import mesos task sched.

(** ** Port ranges *)

Section RangesFacts.

Lemma InRanges_nil q : ¬ InRanges q [].
Proof. intros (r & Hr & _). by apply elem_of_nil in Hr. Qed.

Lemma InRanges_cons q r (rs : Ranges) :
  InRanges q (r :: rs) ↔ (Begin r ≤ q ∧ q ≤ End r) ∨ InRanges q rs.
Proof.
  unfold InRanges. split.
  - intros (x & Hx & Hq). apply elem_of_cons in Hx as [->|Hx]; [by left|].
    right. by exists x.
  - intros [Hq|(x & Hx & Hq)].
    + exists r. split; [apply list_elem_of_here|done].
    + exists x. split; [by apply list_elem_of_further|done].
Qed.

Lemma InRanges_app q (l1 l2 : Ranges) :
  InRanges q (l1 ++ l2) ↔ InRanges q l1 ∨ InRanges q l2.
Proof.
  induction l1 as [|r l1 IH]; simpl.
  - split; [by right|]. intros [H|H]; [by apply InRanges_nil in H|done].
  - rewrite !InRanges_cons, IH. tauto.
Qed.

Lemma InRanges_Permutation q (l1 l2 : Ranges) :
  l1 ≡ₚ l2 → InRanges q l1 ↔ InRanges q l2.
Proof.
  intros Hp. unfold InRanges. split; intros (r & Hr & Hq); exists r.
  - by rewrite <- Hp.
  - by rewrite Hp.
Qed.

Lemma u64_small n : n < 2 ^ 64 → u64 n = n.
Proof. apply N.mod_small. Qed.

Lemma u64_pred n : 0 < n → n < 2 ^ 64 → u64 (n + (2 ^ 64 - 1)) = n - 1.
Proof.
  intros ? ?. unfold u64.
  replace (n + (2 ^ 64 - 1)) with ((n - 1) + 1 * 2 ^ 64) by lia.
  rewrite N.Div0.mod_add. apply N.mod_small. lia.
Qed.

(** The test of [Squash] on a range that ends below [2 ^ 64]: past the
    largest number the successor wraps around to zero. *)
Lemma apart_cases (x y : Value_Range) :
  End x < 2 ^ 64 →
  apart x y ↔ (End x + 1 < Begin y) ∨ (End x = 2 ^ 64 - 1 ∧ 0 < Begin y).
Proof.
  intros Hx. unfold apart.
  destruct (decide (End x = 2 ^ 64 - 1)) as [->|Hne].
  - replace (u64 (1 + (2 ^ 64 - 1))) with 0 by (by vm_compute). lia.
  - rewrite u64_small by lia. lia.
Qed.

(** ** Sorting *)

#[local] Instance range_le_trans : Transitive range_le.
Proof. intros a b c. unfold range_le. lia. Qed.

#[local] Instance range_le_total : Total range_le.
Proof. intros a b. unfold range_le. lia. Qed.

#[local] Instance squashed_trans : Transitive squashed.
Proof. intros a b c. unfold squashed, apart, ascending. lia. Qed.

Lemma Sorted_weaken (R R' : relation Value_Range) (rs : Ranges) :
  (∀ x y, R x y → R' x y) → Sorted R rs → Sorted R' rs.
Proof.
  intros HR. induction 1 as [|x l Hl IH Hhd]; constructor; [done|].
  destruct Hhd; constructor. by apply HR.
Qed.

Lemma Sort_ascending (rs : Ranges) : Sorted ascending (Sort rs).
Proof.
  apply Sorted_weaken with range_le.
  - unfold range_le, ascending. lia.
  - apply Sorted_merge_sort, _.
Qed.

Lemma Sort_Permutation (rs : Ranges) : Sort rs ≡ₚ rs.
Proof. apply merge_sort_Permutation. Qed.

Lemma Sorted_app (R : relation Value_Range) (l1 l2 : Ranges) :
  Sorted R l1 → Sorted R l2 →
  (∀ u v, last l1 = Some u → head l2 = Some v → R u v) →
  Sorted R (l1 ++ l2).
Proof.
  induction l1 as [|x l1 IH]; simpl; intros H1 H2 Hlink; [done|].
  apply Sorted_inv in H1 as [H1 Hhd]. constructor.
  - apply IH; [done..|]. intros u v Hu Hv. apply Hlink; [|done].
    destruct l1; [done|]. done.
  - destruct l1 as [|y l1]; simpl.
    + destruct l2 as [|v l2]; constructor. by apply Hlink.
    + constructor. by inversion Hhd.
Qed.

(** ** Squash *)

(** The first range of the output begins where the first of the input
    does. *)
Lemma squashFrom_head (rs : Ranges) : ∀ last,
  ∃ e tl, squashFrom last rs = {| Begin := Begin last; End := e |} :: tl.
Proof.
  induction rs as [|r rs IH]; intros last; simpl.
  - exists (End last), []. by destruct last.
  - destruct (_ <? _).
    + exists (End last), (squashFrom r rs). by destruct last.
    + destruct (_ <=? _); [|apply IH].
      destruct (IH {| Begin := Begin last; End := End r |}) as (e & tl & ->).
      by exists e, tl.
Qed.

(** On well-formed ranges of which each begins at or after the one before
    it, unless that one ends at the largest number, [Squash] keeps the
    ports and the well-formedness. *)
Lemma squashFrom_linked (rs : Ranges) : ∀ last,
  wellFormed (last :: rs) → Sorted linked (last :: rs) →
  wellFormed (squashFrom last rs)
  ∧ ∀ q, InRanges q (squashFrom last rs) ↔ InRanges q (last :: rs).
Proof.
  induction rs as [|r rs IH]; intros last Hwf Hs; simpl; [done|].
  apply Forall_cons in Hwf as [Hlast Hwf].
  pose proof Hwf as Hwf'. apply Forall_cons in Hwf' as [Hr Hrs].
  apply Sorted_inv in Hs as [Hs Hhd]. apply HdRel_inv in Hhd.
  pose proof (apart_cases last r (proj2 Hlast)) as Hap. unfold apart in Hap.
  destruct (N.ltb_spec (u64 (1 + End last)) (Begin r)) as [Hlt|Hge].
  - destruct (IH r Hwf Hs) as (IHwf & IHin). split.
    + by apply Forall_cons.
    + intros q. rewrite InRanges_cons, IHin. by rewrite (InRanges_cons q last).
  - assert (Begin last ≤ Begin r ∧ Begin r ≤ End last + 1) as [Hb Hc].
    { unfold linked in Hhd. lia. }
    assert (∀ r', HdRel linked r rs → head rs = Some r' →
              End r < 2 ^ 64 - 1 → Begin r ≤ Begin r') as Hnext.
    { intros r' Hh Hr'. destruct rs as [|r'' rs']; [done|].
      injection Hr' as ->. apply HdRel_inv in Hh. unfold linked in Hh. lia. }
    apply Sorted_inv in Hs as [Hs' Hhd'].
    destruct (N.leb_spec (End last) (End r)) as [Hle|Hgt].
    + destruct (IH {| Begin := Begin last; End := End r |}) as (IHwf & IHin).
      * apply Forall_cons. split; [simpl; lia|done].
      * constructor; [done|]. destruct rs as [|r' rs']; constructor.
        apply HdRel_inv in Hhd'. unfold linked in *. simpl. lia.
      * split; [done|]. intros q. rewrite IHin, !InRanges_cons. simpl.
        assert (Begin last ≤ q ∧ q ≤ End r
                ↔ (Begin last ≤ q ∧ q ≤ End last) ∨ (Begin r ≤ q ∧ q ≤ End r))
          by lia.
        tauto.
    + destruct (IH last) as (IHwf & IHin).
      * by apply Forall_cons.
      * constructor; [done|]. destruct rs as [|r' rs']; constructor.
        apply HdRel_inv in Hhd'. unfold linked in *. lia.
      * split; [done|]. intros q. rewrite IHin, !InRanges_cons.
        assert (Begin r ≤ q ∧ q ≤ End r → Begin last ≤ q ∧ q ≤ End last) by lia.
        tauto.
Qed.

Lemma Squash_linked (rs : Ranges) :
  wellFormed rs → Sorted linked rs →
  wellFormed (Squash rs) ∧ ∀ q, InRanges q (Squash rs) ↔ InRanges q rs.
Proof.
  destruct rs as [|r rs]; [done|]. apply squashFrom_linked.
Qed.

(** On ranges in ascending order of [Begin], the ranges that [Squash]
    returns are in that order too, and each passed its test with the one
    before it. *)
Lemma squashFrom_ascending (rs : Ranges) : ∀ last,
  Sorted ascending (last :: rs) → Sorted squashed (squashFrom last rs).
Proof.
  induction rs as [|r rs IH]; intros last Hs; simpl.
  - repeat constructor.
  - apply Sorted_inv in Hs as [Hs Hhd]. apply HdRel_inv in Hhd.
    assert (∀ x, Begin x = Begin last → Sorted ascending (x :: rs)) as Hskip.
    { intros x Hx. apply Sorted_inv in Hs as [Hs' Hhd'].
      constructor; [done|]. destruct rs as [|r' rs']; constructor.
      apply HdRel_inv in Hhd'. unfold ascending in *. lia. }
    destruct (N.ltb_spec (u64 (1 + End last)) (Begin r)) as [Hlt|Hge].
    + constructor; [by apply IH|].
      destruct (squashFrom_head rs r) as (e & tl & ->). constructor.
      split; [done|]. done.
    + destruct (_ <=? _); apply IH; by apply Hskip.
Qed.

Lemma Squash_ascending (rs : Ranges) :
  Sorted ascending rs → StronglySorted squashed (Squash rs).
Proof.
  intros Hs. apply Sorted_StronglySorted; [apply _|].
  destruct rs as [|r rs]; [constructor|]. by apply squashFrom_ascending.
Qed.

(** Sorting and squashing well-formed ranges keeps their ports. *)
Lemma Squash_Sort_spec (rs : Ranges) :
  wellFormed rs →
  wellFormed (Squash (Sort rs))
  ∧ StronglySorted squashed (Squash (Sort rs))
  ∧ ∀ q, InRanges q (Squash (Sort rs)) ↔ InRanges q rs.
Proof.
  intros Hwf.
  assert (wellFormed (Sort rs)) as Hwf'.
  { unfold wellFormed. by rewrite Sort_Permutation. }
  destruct (Squash_linked (Sort rs) Hwf') as (Hwf'' & Hin).
  { apply Sorted_weaken with ascending; [|apply Sort_ascending].
    intros x y. unfold ascending, linked. lia. }
  split; [done|]. split; [apply Squash_ascending, Sort_ascending|].
  intros q. rewrite Hin. apply InRanges_Permutation, Sort_Permutation.
Qed.

(** ** Remove *)

(** What [removeFrom] leaves of a range. *)
Lemma removeFrom_spec removal r :
  Begin r ≤ End r → End r < 2 ^ 64 → Begin removal ≤ End removal →
  wellFormed (removeFrom removal r)
  ∧ Sorted linked (removeFrom removal r)
  ∧ Forall (λ v, Begin r ≤ Begin v) (removeFrom removal r)
  ∧ (∀ u, last (removeFrom removal r) = Some u →
          End u = End r ∨ Begin u = Begin r)
  ∧ ∀ q, InRanges q (removeFrom removal r) ↔
         (Begin r ≤ q ∧ q ≤ End r) ∧ ¬ (Begin removal ≤ q ∧ q ≤ End removal).
Proof.
  intros Hr Hr64 Hrem. unfold removeFrom.
  assert (∀ q, InRanges q [] ↔ False) as Hnil.
  { intros q. split; [apply InRanges_nil|done]. }
  destruct (N.leb_spec (Begin removal) (Begin r)) as [?|?],
    (N.leb_spec (End r) (End removal)) as [?|?]; simpl.
  - split_and!; [constructor|constructor|constructor|done|].
    intros q. rewrite Hnil. lia.
  - destruct (N.ltb_spec (Begin r) (Begin removal)) as [?|?]; [lia|]. simpl.
    destruct (N.ltb_spec (End r) (Begin removal)) as [?|?]; [lia|]. simpl.
    destruct (N.ltb_spec (End removal) (Begin r)) as [?|?]; simpl.
    + split_and!; [repeat constructor; lia|repeat constructor
                  |repeat constructor; lia|intros u [= <-]; by left|].
      intros q. rewrite InRanges_cons, Hnil. lia.
    + destruct (N.ltb_spec (End removal) (End r)) as [?|?]; [|lia].
      rewrite u64_small by lia.
      split_and!; [repeat constructor; simpl; lia|repeat constructor
                  |repeat constructor; simpl; lia|intros u [= <-]; by left|].
      intros q. rewrite InRanges_cons, Hnil. simpl. lia.
  - destruct (N.ltb_spec (Begin r) (Begin removal)) as [?|?]; [|lia].
    destruct (N.ltb_spec (End removal) (End r)) as [?|?]; [lia|]. simpl.
    destruct (N.ltb_spec (End r) (Begin removal)) as [?|?]; simpl.
    + split_and!; [repeat constructor; lia|repeat constructor
                  |repeat constructor; lia|intros u [= <-]; by left|].
      intros q. rewrite InRanges_cons, Hnil. lia.
    + destruct (N.ltb_spec (End removal) (Begin r)) as [?|?]; [lia|]. simpl.
      rewrite u64_pred by lia.
      split_and!; [repeat constructor; simpl; lia|repeat constructor
                  |repeat constructor; simpl; lia|intros u [= <-]; by right|].
      intros q. rewrite InRanges_cons, Hnil. simpl. lia.
  - destruct (N.ltb_spec (Begin r) (Begin removal)) as [?|?]; [|lia].
    destruct (N.ltb_spec (End removal) (End r)) as [?|?]; [|lia]. simpl.
    rewrite u64_pred, u64_small by lia.
    split_and!; [repeat constructor; simpl; lia
                |repeat constructor; unfold linked; simpl; lia
                |repeat constructor; simpl; lia|intros u [= <-]; by left|].
    intros q. rewrite !InRanges_cons, Hnil. simpl. lia.
Qed.

(** Removing from squashed ranges leaves ranges that [Squash] handles. *)
Lemma flat_map_removeFrom_spec removal (rs : Ranges) :
  Begin removal ≤ End removal →
  wellFormed rs → StronglySorted squashed rs →
  wellFormed (flat_map (removeFrom removal) rs)
  ∧ Sorted linked (flat_map (removeFrom removal) rs)
  ∧ Forall (λ v, ∃ y, y ∈ rs ∧ Begin y ≤ Begin v)
           (flat_map (removeFrom removal) rs)
  ∧ ∀ q, InRanges q (flat_map (removeFrom removal) rs) ↔
         InRanges q rs ∧ ¬ (Begin removal ≤ q ∧ q ≤ End removal).
Proof.
  intros Hrem. induction rs as [|r rs IH]; intros Hwf Hs; simpl.
  - split_and!; [constructor..|]. intros q.
    split; [intros Hq; by apply InRanges_nil in Hq|].
    intros [Hq _]. by apply InRanges_nil in Hq.
  - apply Forall_cons in Hwf as [[Hr Hr64] Hwf].
    apply StronglySorted_inv in Hs as [Hs Hall].
    destruct (removeFrom_spec removal r Hr Hr64 Hrem)
      as (Hpwf & Hps & Hpb & Hplast & Hpin).
    destruct (IH Hwf Hs) as (IHwf & IHs & IHb & IHin).
    split_and!.
    + by apply Forall_app.
    + apply Sorted_app; [done..|]. intros u v Hu Hv.
      assert (v ∈ flat_map (removeFrom removal) rs) as Hvin.
      { destruct (flat_map _ rs); [done|]. injection Hv as ->. apply list_elem_of_here. }
      rewrite Forall_forall in IHb. destruct (IHb v Hvin) as (y & Hy & Hyv).
      rewrite Forall_forall in Hall. destruct (Hall y Hy) as [Hap Hasc].
      assert (u ∈ removeFrom removal r) as Huin.
      { by apply last_Some_elem_of. }
      unfold wellFormed in Hpwf. rewrite Forall_forall in Hpwf.
      destruct (Hpwf u Huin) as [Hu1 Hu2].
      apply apart_cases in Hap; [|done].
      unfold linked, ascending in *.
      destruct (Hplast u Hu) as [He|Hb]; lia.
    + apply Forall_app. split.
      * eapply Forall_impl; [exact Hpb|]. intros v Hv. exists r.
        split; [apply list_elem_of_here|done].
      * eapply Forall_impl; [exact IHb|]. intros v (y & Hy & Hv). exists y.
        split; [by apply list_elem_of_further|done].
    + intros q. rewrite InRanges_app, InRanges_cons, Hpin, IHin. tauto.
Qed.

(** [Remove] takes exactly the ports of the removal out of squashed
    ranges. *)
Lemma Remove_spec removal (rs : Ranges) :
  Begin removal ≤ End removal →
  wellFormed rs → StronglySorted squashed rs →
  wellFormed (Remove rs removal)
  ∧ ∀ q, InRanges q (Remove rs removal) ↔
         InRanges q rs ∧ ¬ (Begin removal ≤ q ∧ q ≤ End removal).
Proof.
  intros Hrem Hwf Hs. unfold Remove.
  destruct (flat_map_removeFrom_spec removal rs Hrem Hwf Hs)
    as (Hfwf & Hfs & _ & Hfin).
  destruct (Squash_linked _ Hfwf Hfs) as (Hswf & Hsin).
  split; [done|]. intros q. by rewrite Hsin.
Qed.

(** Cutting ranges below a floor keeps them in ascending order. *)
Lemma removeFrom_floor floor r :
  Begin r ≤ End r → End r < 2 ^ 64 →
  Forall (λ v, Begin v = N.max (Begin r) (floor + 1))
         (removeFrom {| Begin := 0; End := floor |} r).
Proof.
  intros Hr Hr64. unfold removeFrom. simpl.
  destruct (N.leb_spec 0 (Begin r)) as [?|?]; [|lia].
  destruct (N.leb_spec (End r) floor) as [?|?]; simpl; [constructor|].
  destruct (N.ltb_spec (Begin r) 0) as [?|?]; [lia|]. simpl.
  destruct (N.ltb_spec (End r) 0) as [?|?]; [lia|]. simpl.
  destruct (N.ltb_spec floor (Begin r)) as [?|?]; simpl.
  - repeat constructor. lia.
  - destruct (N.ltb_spec floor (End r)) as [?|?]; [|lia].
    rewrite u64_small by lia. repeat constructor. simpl. lia.
Qed.

Lemma flat_map_floor_lower floor b (rs : Ranges) :
  wellFormed rs → Forall (λ x, b ≤ Begin x) rs →
  Forall (λ w, N.max b (floor + 1) ≤ Begin w)
         (flat_map (removeFrom {| Begin := 0; End := floor |}) rs).
Proof.
  induction rs as [|r rs IH]; simpl; intros Hwf Hb; [constructor|].
  apply Forall_cons in Hb as [Hb Hbs].
  apply Forall_cons in Hwf as [[Hr Hr64] Hwf].
  apply Forall_app. split; [|by apply IH].
  eapply Forall_impl; [apply (removeFrom_floor floor r Hr Hr64)|].
  simpl. intros w ->. lia.
Qed.

Lemma flat_map_floor_ascending floor (rs : Ranges) :
  wellFormed rs → StronglySorted ascending rs →
  ∀ v tl, flat_map (removeFrom {| Begin := 0; End := floor |}) rs = v :: tl →
  Forall (λ w, Begin v ≤ Begin w) tl.
Proof.
  induction rs as [|r rs IH]; simpl; intros Hwf Hs v tl Hf; [done|].
  apply Forall_cons in Hwf as [[Hr Hr64] Hwf].
  apply StronglySorted_inv in Hs as [Hs Hall].
  pose proof (removeFrom_floor floor r Hr Hr64) as Hp.
  destruct (removeFrom _ r) as [|v' tl'] eqn:Hrm; simpl in Hf.
  - by apply IH.
  - injection Hf as -> <-. apply Forall_cons in Hp as [Hv Hp].
    apply Forall_app. split.
    + eapply Forall_impl; [exact Hp|]. simpl. intros w ->. lia.
    + eapply Forall_impl; [apply (flat_map_floor_lower floor (Begin r)); done|].
      simpl. intros w Hw. lia.
Qed.

(** The [Min] of squashed ranges cut below a floor is their least port
    above the floor. *)
Lemma Min_Remove_floor floor (rs : Ranges) p :
  wellFormed rs → StronglySorted squashed rs →
  Min (Remove rs {| Begin := 0; End := floor |}) = Some p →
  leastAbove floor rs p.
Proof.
  intros Hwf Hs Hmin.
  destruct (Remove_spec {| Begin := 0; End := floor |} rs) as (Hrwf & Hrin);
    [simpl; lia|done..|].
  unfold Remove in *.
  destruct (flat_map_removeFrom_spec {| Begin := 0; End := floor |} rs)
    as (Hfwf & Hfs & _ & Hfin); [simpl; lia|done..|].
  assert (StronglySorted ascending rs) as Hasc.
  { clear -Hs. induction Hs as [|x l Hl IH Hall]; constructor; [done|].
    eapply Forall_impl; [exact Hall|]. by intros y [_ ?]. }
  pose proof (flat_map_floor_ascending floor rs Hwf Hasc) as Hhead.
  destruct (flat_map _ rs) as [|v tl] eqn:Hf; [done|].
  specialize (Hhead v tl eq_refl). simpl in Hmin, Hrwf, Hrin.
  destruct (squashFrom_head tl v) as (e & tl' & Heq). rewrite Heq in *.
  injection Hmin as <-. simpl in *.
  apply Forall_cons in Hrwf as [[Hv _] _]. simpl in Hv.
  assert (InRanges (Begin v) ({| Begin := Begin v; End := e |} :: tl')) as Hp.
  { apply InRanges_cons. left. simpl. lia. }
  assert (∀ q, InRanges q (v :: tl) → Begin v ≤ q) as Hleast.
  { intros q [Hq|(w & Hw & Hq)]%InRanges_cons; [lia|].
    rewrite Forall_forall in Hhead. specialize (Hhead w Hw). lia. }
  pose proof (proj1 (Hrin _) Hp) as [Hp1 Hp2]. simpl in Hp2.
  split; [lia|]. split; [done|].
  intros q Hq Hfl. apply Hleast, Hfin. split; [done|]. simpl. lia.
Qed.

End RangesFacts.

(** ** Claiming ports *)

Section ClaimFacts.

(** The minuend that [Subtract] removes from holds the ports of the
    ranges it was given. *)
Lemma Subtract_minuend (rs : Ranges) :
  wellFormed rs →
  let a := if (1 <? length rs)%nat then Squash (Sort rs) else rs in
  wellFormed a ∧ StronglySorted squashed a ∧ ∀ q, InRanges q a ↔ InRanges q rs.
Proof.
  intros Hwf. destruct rs as [|x [|y rs]]; simpl.
  - split_and!; [done|constructor|done].
  - split_and!; [done|repeat constructor|done].
  - apply (Squash_Sort_spec (x :: y :: rs) Hwf).
Qed.

(** Claiming a port of well-formed ranges, in whatever order they come:
    the port is the least one above the floor, and it is the one port
    taken out of the remaining resources. *)
Lemma claimPort_spec floor r p r' :
  wellFormed (ports r) → claimPort floor r = Claimed p r' →
  leastAbove floor (ports r) p ∧ withoutPort p r r'.
Proof.
  intros Hwf. unfold claimPort, Ports.
  destruct (ports r) as [|r0 rs] eqn:Hports; [done|].
  destruct (Squash_Sort_spec (r0 :: rs) Hwf) as (Hnwf & Hns & Hnin).
  destruct (Min _) as [port|] eqn:Hmin; [|done]. intros [= <- <-].
  destruct (Min_Remove_floor _ _ _ Hnwf Hns Hmin) as (Hfloor & Hp & Hleast).
  split.
  - split_and!; [done|by apply Hnin|]. intros q Hq ?. apply Hleast; [|done].
    by apply Hnin.
  - unfold withoutPort, SubtractPorts, Subtract. simpl. rewrite Hports.
    destruct (Subtract_minuend (r0 :: rs) Hwf) as (Hmwf & Hms & Hmin').
    destruct (Remove_spec (Span port port) _ ltac:(simpl; lia) Hmwf Hms)
      as (Hrwf & Hrin).
    split_and!; [done..|]. intros q. rewrite Hrin, Hmin'. simpl. split.
    + intros [? ?]. split; [done|]. intros ->. lia.
    + intros [? ?]. split; [done|]. lia.
Qed.

Lemma bindPorts_spec chs r b b' r' :
  wellFormed (ports r) → bindPorts chs r b = Bound b' r' →
  ∃ ps, length ps = length chs
        ∧ claimedInOrder dynamicPortFloor r ps r'
        ∧ b' = bindAll b chs ps
        ∧ wellFormed (ports r').
Proof.
  revert r b. induction chs as [|ch chs IH]; intros r b Hc; simpl.
  - intros [= <- <-]. by exists [].
  - destruct (claimPort dynamicPortFloor r) as [port r1| |] eqn:Hclaim; [|done..].
    intros Hrest. destruct (claimPort_spec _ _ _ _ Hc Hclaim) as (Hleast & Hwo).
    destruct (IH r1 _ (proj1 (proj2 (proj2 Hwo))) Hrest) as (ps & Hlen & Hps & Hb & Hc').
    exists (port :: ps). simpl. split_and!; [by rewrite Hlen|done|by exists r1|done|done].
Qed.

Lemma claimedInOrder_above floor r ps r' :
  claimedInOrder floor r ps r' → Forall (λ p, floor + 1 ≤ p) ps.
Proof.
  revert r. induction ps as [|p ps IH]; intros r; simpl; [constructor|].
  intros ((? & _) & r1 & _ & Hps). constructor; [lia|by eapply IH].
Qed.

Lemma not_snoc_self {A} (l : list A) x : l ≠ l ++ [x].
Proof. intros H%(f_equal length). rewrite length_app in H. simpl in H. lia. Qed.

End ClaimFacts.

(** ** One iteration of the descriptor loop *)

Ltac unfold_updates :=
  unfold launch, doNotDecline, emit, setRemaining; simpl;
  rewrite <- ?app_assoc; simpl.

Section StepFacts.
Context (C : Collaborators) (constraints : Descriptor → list (string * string)).
Context (offer : Offer) (exec : string).

Lemma matchDescriptor_returned i st st' :
  matchDescriptor C constraints offer exec i st = Returned st' →
  ∃ d, descriptorsToDeploy st !! i = Some d ∧ stepOf offer d i st st'.
Proof.
  unfold matchDescriptor.
  destruct (descriptorsToDeploy st !! i) as [d|] eqn:Hd; [|done].
  intros H. exists d. split; [done|]. revert H.
  destruct (negb _); [intros [= <-]; apply step_skipped|].
  destruct (GetWantsForDescriptor C d) as [wants|];
    [|intros [= <-]; apply step_skipped].
  destruct (negb _); [intros [= <-]; apply step_skipped|].
  simpl.
  destruct (bindPorts _ _ _) as [bindMap r1|r1|];
    [|intros [= <-]; unfold_updates; apply step_skipped|done].
  destruct (NewTaskForMesosOffer _ _ _ _ _) as [taskPtr|]; simpl.
  2:{ intros [= <-]. unfold_updates. apply step_no_task. }
  destruct (claimPort controlPortFloor r1) as [controlPort r2| |]; [| |done].
  2:{ intros [= <-]. unfold_updates.
      apply (step_abandoned offer d i st r1 taskPtr false). }
  destruct (jsonMarshal C _) as [jsonCommand|].
  - intros [= <-]. unfold_updates. apply step_launched.
  - intros [= <-]. unfold_updates.
    apply (step_abandoned offer d i st r2 taskPtr true).
Qed.

End StepFacts.

(** ** What is subtracted from the remaining resources *)

Section RemainingFacts.
Context (C : Collaborators) (constraints : Descriptor → list (string * string)).
Context (offer : Offer) (exec : string).

Lemma claimPort_scalars floor r p r' :
  claimPort floor r = Claimed p r' → sameScalars r r'.
Proof.
  unfold claimPort. destruct (Ports r); [|done].
  destruct (Min _); [|done]. by intros [= _ <-].
Qed.

Lemma bindPorts_scalars chs : ∀ r b,
  match bindPorts chs r b with
  | Bound _ r' | Exhausted r' | BindPanicked r' => sameScalars r r'
  end.
Proof.
  induction chs as [|ch chs IH]; intros r b; simpl; [done|].
  destruct (claimPort dynamicPortFloor r) as [port r1| |] eqn:Hclaim; [|done..].
  apply claimPort_scalars in Hclaim as [Hc Hm].
  specialize (IH r1 (<[ch:=port]> b)).
  destruct (bindPorts chs r1 _); destruct IH as [? ?]; split; congruence.
Qed.

(** Whatever an iteration does, the CPU and the memory of the remaining
    resources are left as they were: ports are all that is ever
    subtracted. *)
Lemma matchDescriptor_scalars i st :
  sameScalars (remainingResources st)
    (remainingResources
       (stateOf (matchDescriptor C constraints offer exec i st))).
Proof.
  unfold matchDescriptor.
  destruct (descriptorsToDeploy st !! i) as [d|]; [|done].
  destruct (negb _); [done|].
  destruct (GetWantsForDescriptor C d) as [wants|]; [|done].
  destruct (negb _); [done|]. simpl.
  pose proof (bindPorts_scalars (BindPorts wants) (remainingResources st) ∅)
    as Hbind.
  destruct (bindPorts _ _ _) as [bindMap r1|r1|r1]; [|done..].
  destruct (NewTaskForMesosOffer _ _ _ _ _) as [taskPtr|]; simpl; [|done].
  destruct (claimPort controlPortFloor r1) as [controlPort r2| |] eqn:Hclaim;
    [|done..].
  apply claimPort_scalars in Hclaim as [? ?].
  destruct Hbind as [? ?].
  destruct (jsonMarshal C _); simpl; split; congruence.
Qed.

Lemma forDescriptors_scalars n : ∀ st,
  sameScalars (remainingResources st)
    (remainingResources
       (stateOf (forDescriptors C constraints offer exec n st))).
Proof.
  induction n as [|n IH]; intros st; simpl; [done|].
  pose proof (matchDescriptor_scalars n st) as Hstep.
  destruct (matchDescriptor _ _ _ _ _ _) as [st1|st1]; simpl in *; [|done].
  destruct (IH st1) as [? ?], Hstep as [? ?]. split; congruence.
Qed.

Lemma bindPorts_wellFormed chs : ∀ r b,
  wellFormed (ports r) →
  match bindPorts chs r b with
  | Bound _ r' | Exhausted r' | BindPanicked r' => wellFormed (ports r')
  end.
Proof.
  induction chs as [|ch chs IH]; intros r b Hc; simpl; [done|].
  destruct (claimPort dynamicPortFloor r) as [port r1| |] eqn:Hclaim; [|done..].
  apply IH. by destruct (claimPort_spec _ _ _ _ Hc Hclaim) as (_ & _ & _ & ? & _).
Qed.

(** The remaining port ranges of an offer stay well-formed along its
    loop. *)
Lemma matchDescriptor_wellFormed i st :
  wellFormed (ports (remainingResources st)) →
  wellFormed (ports (remainingResources
                      (stateOf (matchDescriptor C constraints offer exec i st)))).
Proof.
  intros Hc. unfold matchDescriptor.
  destruct (descriptorsToDeploy st !! i) as [d|]; [|done].
  destruct (negb _); [done|].
  destruct (GetWantsForDescriptor C d) as [wants|]; [|done].
  destruct (negb _); [done|]. simpl.
  pose proof (bindPorts_wellFormed (BindPorts wants) (remainingResources st) ∅ Hc)
    as Hbind.
  destruct (bindPorts _ _ _) as [bindMap r1|r1|r1]; [|done..].
  destruct (NewTaskForMesosOffer _ _ _ _ _) as [taskPtr|]; simpl; [|done].
  destruct (claimPort controlPortFloor r1) as [controlPort r2| |] eqn:Hclaim;
    [|done..].
  destruct (claimPort_spec _ _ _ _ Hbind Hclaim) as (_ & _ & _ & ? & _).
  by destruct (jsonMarshal C _).
Qed.

Lemma forDescriptors_wellFormed n : ∀ st,
  wellFormed (ports (remainingResources st)) →
  wellFormed (ports (remainingResources
                      (stateOf (forDescriptors C constraints offer exec n st)))).
Proof.
  induction n as [|n IH]; intros st Hc; simpl; [done|].
  pose proof (matchDescriptor_wellFormed n st Hc) as Hstep.
  destruct (matchDescriptor _ _ _ _ _ _) as [st1|st1]; simpl in *; [|done].
  by apply IH.
Qed.

End RemainingFacts.

(** ** The ports of a matched descriptor *)

(** C2 (as amended).  When an iteration of the descriptor loop launches a
    task on an offer each of whose remaining port ranges begins at or below
    its end, in whatever order the ranges come and whether they overlap or
    not, the named dynamic ports were bound one after the other, each to
    the minimum port available strictly above 8999 in what remained of the
    offer at that moment (so each is at least 9000), and the control port
    is the minimum port available strictly above 29999 in what remained
    after them (so it is at least 30000).  Each port bound is the one port
    taken out of what remains.  The bind map given to the task manager and
    the control port of the serialized command are these ports, and they
    are the ports of the resources requested. *)
Theorem matched_ports_are_least_above_floor
    C constraints offer exec i st st' info :
  wellFormed (ports (remainingResources st)) →
  matchDescriptor C constraints offer exec i st = Returned st' →
  tasks st' = tasks st ++ [info] →
  ∃ d wants ps r1 controlPort cmd,
    descriptorsToDeploy st !! i = Some d
    ∧ GetWantsForDescriptor C d = Some wants
    ∧ length ps = length (BindPorts wants)
    ∧ claimedInOrder dynamicPortFloor (remainingResources st) ps r1
    ∧ Forall (λ p, 9000 ≤ p) ps
    ∧ is_Some (NewTaskForMesosOffer C offer d (bindAll ∅ (BindPorts wants) ps) exec)
    ∧ leastAbove controlPortFloor (ports r1) controlPort
    ∧ 30000 ≤ controlPort
    ∧ withoutPort controlPort r1 (remainingResources st')
    ∧ ControlPort cmd = controlPort
    ∧ jsonMarshal C cmd = Some (Data info)
    ∧ TaskResources info =
        resourcesRequest wants (bindAll ∅ (BindPorts wants) ps) controlPort
          (executorResources C).
Proof.
  intros Hc. unfold matchDescriptor.
  destruct (descriptorsToDeploy st !! i) as [d|] eqn:Hd; [|done].
  destruct (negb _); [intros [= <-] H; by apply not_snoc_self in H|].
  destruct (GetWantsForDescriptor C d) as [wants|] eqn:Hw;
    [|intros [= <-] H; by apply not_snoc_self in H].
  destruct (negb _); [intros [= <-] H; by apply not_snoc_self in H|].
  simpl.
  destruct (bindPorts _ _ _) as [bindMap r1| |] eqn:Hbind;
    [|intros [= <-] H; by apply not_snoc_self in H|done].
  destruct (bindPorts_spec _ _ _ _ _ Hc Hbind) as (ps & Hlen & Hps & -> & Hc1).
  destruct (NewTaskForMesosOffer _ _ _ _ _) as [taskPtr|] eqn:Hnew;
    [|intros [= <-] H; by apply not_snoc_self in H].
  simpl.
  destruct (claimPort controlPortFloor r1) as [controlPort r2| |] eqn:Hclaim;
    [|intros [= <-] H; by apply not_snoc_self in H|done].
  destruct (claimPort_spec _ _ _ _ Hc1 Hclaim) as (Hleast & Hwo).
  destruct (jsonMarshal C _) as [jsonCommand|] eqn:Hjson;
    [|intros [= <-] H; by apply not_snoc_self in H].
  intros [= <-]. simpl. intros [= <-]%app_inv_head.
  eexists d, wants, ps, r1, controlPort, _.
  split_and!; try done.
  - eapply Forall_impl; [by eapply claimedInOrder_above|].
    unfold dynamicPortFloor. simpl. lia.
  - destruct Hleast as (? & _). unfold controlPortFloor in *. lia.
  - done.
Qed.

(** ** The descriptor loop of one offer *)

Section LoopFacts.
Context (C : Collaborators) (constraints : Descriptor → list (string * string)).
Context (offer : Offer) (exec : string).

Lemma processed_app tr1 tr2 : processed (tr1 ++ tr2) = processed tr1 ++ processed tr2.
Proof. apply flat_map_app. Qed.

Lemma stepOf_processed d i st st' :
  stepOf offer d i st st' → processed (trace st') = processed (trace st) ++ [d].
Proof.
  destruct 1 as [r|r|r t [|]|r t info]; simpl;
    by rewrite ?processed_app; simpl; rewrite ?app_nil_r.
Qed.

Lemma forDescriptors_walk n : ∀ st st' pre suf,
  descriptorsToDeploy st = pre ++ suf → length pre = n →
  forDescriptors C constraints offer exec n st = Returned st' →
  ∃ kept launched,
    descriptorsToDeploy st' = kept ++ suf
    ∧ kept `sublist_of` pre
    ∧ launched `sublist_of` reverse pre
    ∧ pre ≡ₚ kept ++ launched
    ∧ (tasksDeployedForCurrentOffer st').*2
      = (tasksDeployedForCurrentOffer st).*2 ++ launched
    ∧ length (tasks st') = (length (tasks st) + length launched)%nat
    ∧ processed (trace st') = processed (trace st) ++ reverse pre.
Proof.
  induction n as [|n IH]; intros st st' pre suf Hds Hlen; simpl.
  - intros [= <-]. apply nil_length_inv in Hlen as ->. exists [], []. simpl.
    rewrite !app_nil_r. by split_and!.
  - destruct pre as [|d pre _] using rev_ind; [done|].
    rewrite length_app in Hlen. simpl in Hlen.
    assert (length pre = n) as Hn by lia.
    destruct (matchDescriptor _ _ _ _ _ _) as [st1|] eqn:Hstep; [|done].
    apply matchDescriptor_returned in Hstep as (d' & Hd' & Hstep).
    rewrite Hds, <- app_assoc in Hd'. simpl in Hd'.
    rewrite list_lookup_middle in Hd' by done. injection Hd' as <-.
    pose proof (stepOf_processed _ _ _ _ Hstep) as Hproc.
    intros Hrest.
    assert (descriptorsToDeploy st1 = pre ++ d :: suf
            ∧ tasksDeployedForCurrentOffer st1 = tasksDeployedForCurrentOffer st
            ∧ tasks st1 = tasks st
            ∨ descriptorsToDeploy st1 = pre ++ suf
              ∧ (∃ t, tasksDeployedForCurrentOffer st1
                      = tasksDeployedForCurrentOffer st ++ [(t, d)])
              ∧ (∃ info, tasks st1 = tasks st ++ [info])) as [(Hds1 & Hdep & Htasks)|(Hds1 & (t & Hdep) & (info & Htasks))].
    { destruct Hstep as [r|r|r t u|r t info]; simpl;
        rewrite Hds, <- ?app_assoc; simpl; [by left..|].
      right. split_and!; [|by eexists..].
      rewrite take_app_length' by done.
      rewrite (cons_middle d pre suf), (app_assoc pre [d] suf).
      rewrite drop_app_length'; [done|]. rewrite length_app. simpl. lia. }
    + destruct (IH _ _ pre (d :: suf) Hds1 Hn Hrest)
        as (kept & launched & Hk & Hsk & Hsl & Hperm & Hd2 & Ht2 & Hp2).
      exists (kept ++ [d]), launched.
      rewrite reverse_snoc, <- !app_assoc. simpl.
      split_and!; [done| |by apply sublist_cons| | | |].
      * by apply sublist_app.
      * rewrite Hperm, <- Permutation_cons_append. apply Permutation_middle.
      * by rewrite Hd2, Hdep.
      * by rewrite Ht2, Htasks.
      * by rewrite Hp2, Hproc, <- app_assoc.
    + destruct (IH _ _ pre suf Hds1 Hn Hrest)
        as (kept & launched & Hk & Hsk & Hsl & Hperm & Hd2 & Ht2 & Hp2).
      exists kept, (d :: launched).
      rewrite reverse_snoc.
      split_and!; [done| |by apply sublist_skip| | | |].
      * transitivity (kept ++ []); [by rewrite app_nil_r|].
        apply sublist_app; [done|apply sublist_nil_l].
      * rewrite Hperm, <- Permutation_cons_append. apply Permutation_middle.
      * rewrite Hd2, Hdep, fmap_app, <- app_assoc. done.
      * rewrite Ht2, Htasks, length_app. simpl. lia.
      * by rewrite Hp2, Hproc, <- app_assoc.
Qed.

End LoopFacts.

(** ** The decline-set along a cycle *)

Section DeclineFacts.
Context (C : Collaborators).

Lemma launchesOn_app id tr1 tr2 :
  launchesOn id (tr1 ++ tr2) = launchesOn id tr1 ++ launchesOn id tr2.
Proof. apply flat_map_app. Qed.

Lemma tasksCreatedOn_app id tr1 tr2 :
  tasksCreatedOn id (tr1 ++ tr2) = tasksCreatedOn id tr1 ++ tasksCreatedOn id tr2.
Proof. apply flat_map_app. Qed.

Lemma declineBatches_app tr1 tr2 :
  declineBatches (tr1 ++ tr2) = declineBatches tr1 ++ declineBatches tr2.
Proof. apply flat_map_app. Qed.

Lemma acceptedOffers_app tr1 tr2 :
  acceptedOffers (tr1 ++ tr2) = acceptedOffers tr1 ++ acceptedOffers tr2.
Proof. apply flat_map_app. Qed.

Lemma not_declined_difference (D : gset string) (o id : string) :
  id ∉ D → id ∉ D ∖ {[ o ]}.
Proof. intros Hid [? _]%elem_of_difference. done. Qed.

Lemma stepOf_inv ids0 offer d i st st' :
  stepOf offer d i st st' → offerInv ids0 (ID offer) st →
  offerInv ids0 (ID offer) st'
  ∧ acceptedOffers (trace st') = acceptedOffers (trace st).
Proof.
  intros Hstep ((Ha & Hb & Hc & Hd) & Ht).
  assert (∀ t id, id ∈ ids0 →
            tasksCreatedOn id (trace st)
            ++ (if decide (ID offer = id) then [t] else []) ++ [] = [] →
            id ∈ offerIDsToDecline st ∖ {[ ID offer ]}) as Hcreated.
  { intros t id Hid. destruct (decide (ID offer = id)) as [->|Hne].
    - by intros [_ ?]%app_eq_nil.
    - rewrite app_nil_r. intros H. apply elem_of_difference.
      split; [by apply Hb|]. intros ->%elem_of_singleton. done. }
  assert (offerIDsToDecline st ∖ {[ ID offer ]} ⊆ ids0) as Hc'.
  { intros x [? _]%elem_of_difference. by apply Hc. }
  assert (ID offer ∉ offerIDsToDecline st ∖ {[ ID offer ]}) as Hout.
  { intros [_ Hn]%elem_of_difference. by apply Hn, elem_of_singleton. }
  destruct Hstep as [r|r|r t u|r t info]; [| |destruct u|];
    unfold offerInv, cycleInv; simpl;
    rewrite acceptedOffers_app, declineBatches_app, Hd; simpl;
    rewrite app_nil_r; (split; [split; [split_and!|]|done]); try done;
    try (intros id; rewrite launchesOn_app; simpl; rewrite app_nil_r);
    try (intros id Hid; rewrite tasksCreatedOn_app; simpl).
  all: try apply Ha.
  all: try (intros ?%Ha; by apply not_declined_difference).
  all: try (by apply Hcreated).
  all: rewrite app_nil_r; by apply Hb.
Qed.

Lemma forDescriptors_inv ids0 constraints offer exec n : ∀ st st',
  forDescriptors C constraints offer exec n st = Returned st' →
  offerInv ids0 (ID offer) st →
  offerInv ids0 (ID offer) st'
  ∧ acceptedOffers (trace st') = acceptedOffers (trace st).
Proof.
  induction n as [|n IH]; intros st st'; simpl.
  - by intros [= <-].
  - destruct (matchDescriptor _ _ _ _ _ _) as [st1|] eqn:Hstep; [|done].
    apply matchDescriptor_returned in Hstep as (d & _ & Hstep).
    intros Hrest Hinv.
    destruct (stepOf_inv _ _ _ _ _ _ Hstep Hinv) as (Hinv1 & Hacc1).
    destruct (IH _ _ Hrest Hinv1) as (Hinv2 & Hacc2).
    split; [done|congruence].
Qed.

Lemma processOffer_inv ids0 constraints offer cs cs' :
  processOffer C constraints offer cs = Returned cs' →
  cycleInv ids0 (cycleToDecline cs) (cycleTrace cs) →
  cycleInv ids0 (cycleToDecline cs') (cycleTrace cs')
  ∧ acceptedOffers (cycleTrace cs') = acceptedOffers (cycleTrace cs) ++ [ID offer].
Proof.
  intros Hp (Ha & Hb & Hc & Hd). unfold processOffer in Hp.
  destruct (forDescriptors _ _ _ _ _ _) as [st|] eqn:Hloop; [|done].
  apply (forDescriptors_inv ids0) in Hloop as (((Ha' & Hb' & Hc' & Hd') & Ht) & Hacc).
  2:{ unfold offerInv, cycleInv, enterOffer. simpl. split_and!; try done.
      - intros id. rewrite launchesOn_app. simpl. rewrite app_nil_r. apply Ha.
      - intros id Hid. rewrite tasksCreatedOn_app. simpl. rewrite app_nil_r.
        by apply Hb.
      - rewrite declineBatches_app, Hd. done. }
  assert (cycleToDecline cs' = offerIDsToDecline st
          ∧ cycleTrace cs'
            = trace st ++ [EUnlock; ECall (Accept (ID offer) (tasks st))])
    as (-> & ->).
  { destruct (CallNoData C _); [by injection Hp as <-|].
    destruct (0 <? length (tasks st))%nat; by injection Hp as <-. }
  unfold cycleInv. rewrite acceptedOffers_app, declineBatches_app, Hd', Hacc.
  unfold enterOffer. simpl. rewrite acceptedOffers_app. simpl.
  rewrite app_nil_r. split_and!; try done.
  - intros id. rewrite launchesOn_app. simpl. rewrite app_nil_r.
    destruct (decide (ID offer = id)) as [<-|Hne];
      [|rewrite app_nil_r; apply Ha'].
    destruct (tasks st) as [|info l] eqn:Htasks;
      [rewrite app_nil_r; apply Ha'|].
    intros _. by apply Ht.
  - intros id Hid. rewrite tasksCreatedOn_app. simpl. rewrite app_nil_r.
    by apply Hb'.
Qed.

Lemma forOffers_inv ids0 constraints offers : ∀ cs cs',
  forOffers C constraints offers cs = Returned cs' →
  cycleInv ids0 (cycleToDecline cs) (cycleTrace cs) →
  cycleInv ids0 (cycleToDecline cs') (cycleTrace cs')
  ∧ acceptedOffers (cycleTrace cs')
    = acceptedOffers (cycleTrace cs) ++ (ID <$> offers).
Proof.
  induction offers as [|offer offers IH]; intros cs cs'; simpl.
  - intros [= <-] ?. by rewrite app_nil_r.
  - destruct (processOffer _ _ _ _) as [cs1|] eqn:Hp; [|done].
    intros Hrest Hinv.
    destruct (processOffer_inv _ _ _ _ _ Hp Hinv) as (Hinv1 & Hacc1).
    destruct (IH _ _ Hrest Hinv1) as (Hinv2 & Hacc2).
    split; [done|]. by rewrite Hacc2, Hacc1, <- app_assoc.
Qed.

Lemma finished_trace (A : Type) (f : Event → list A) cs :
  (∀ l, f (ECall (Decline l)) = []) → (∀ m, f (ENotify m) = []) →
  flat_map f (cycleTrace (notifyListeners C (declineRest cs)))
  = flat_map f (cycleTrace cs).
Proof.
  intros Hdecl Hnot. unfold notifyListeners, declineRest.
  destruct (listenerReady C), (0 <? size (cycleToDecline cs))%nat; simpl;
    rewrite ?flat_map_app; simpl; by rewrite ?Hdecl, ?Hnot, ?app_nil_r.
Qed.

Lemma finished_declined cs id :
  declineBatches (cycleTrace cs) = [] →
  (length (declineBatches (cycleTrace (notifyListeners C (declineRest cs)))) ≤ 1)%nat
  ∧ (id ∈ concat (declineBatches (cycleTrace (notifyListeners C (declineRest cs))))
     ↔ id ∈ cycleToDecline cs)
  ∧ cycleToDecline (notifyListeners C (declineRest cs)) = cycleToDecline cs.
Proof.
  intros Hd. unfold notifyListeners, declineRest.
  destruct (Nat.ltb_spec 0 (size (cycleToDecline cs))) as [Hs|Hs],
    (listenerReady C); simpl;
    rewrite ?declineBatches_app, ?Hd; simpl;
    rewrite ?app_nil_r; (split; [lia|split; [|done]]).
  1,2: apply elem_of_elements.
  all: assert (cycleToDecline cs = ∅) as -> by (apply leibniz_equiv, size_empty_inv; lia).
  all: by rewrite elem_of_nil, elem_of_empty.
Qed.

End DeclineFacts.

(** C3 (as amended).  In a cycle that returns, the identifiers of all the
    offers received start in the decline-set and at most one DECLINE is
    sent, for the offers left in the set.  An offer on which a task was
    launched is not declined; an offer for which no task was created is
    declined; nothing else than received offers is declined.  Whenever
    descriptors are pending, every offer is moreover sent one ACCEPT, in
    arrival order, with the tasks launched on it, be there none and be the
    offer declined as well. *)
Theorem offers_settled C offers tasksToDeploy cs :
  resourceOffers C offers tasksToDeploy = Returned cs →
  (length (declineBatches (cycleTrace cs)) ≤ 1)%nat
  ∧ (∀ id, id ∈ concat (declineBatches (cycleTrace cs))
           ↔ id ∈ cycleToDecline cs)
  ∧ (∀ id, id ∈ concat (declineBatches (cycleTrace cs)) → id ∈ ID <$> offers)
  ∧ (∀ id, launchesOn id (cycleTrace cs) ≠ []
           → id ∉ concat (declineBatches (cycleTrace cs)))
  ∧ (∀ offer, offer ∈ offers → tasksCreatedOn (ID offer) (cycleTrace cs) = []
              → ID offer ∈ concat (declineBatches (cycleTrace cs)))
  ∧ acceptedOffers (cycleTrace cs)
    = match default [] tasksToDeploy with [] => [] | _ => ID <$> offers end.
Proof.
  unfold resourceOffers.
  set (ids0 := list_to_set (ID <$> offers) : gset string).
  set (cs0 := {| cyclePending := default [] tasksToDeploy;
                 cycleToDecline := ids0; tasksDeployed := [];
                 tasksLaunchedThisCycle := 0; offersDeclined := 0;
                 cycleTrace := [] |}).
  assert (cycleInv ids0 (cycleToDecline cs0) (cycleTrace cs0)) as Hinv0.
  { unfold cycleInv. simpl. by split_and!. }
  assert (∀ id : string, id ∈ ids0 ↔ id ∈ ID <$> offers) as Hids.
  { intros id. unfold ids0. by rewrite elem_of_list_to_set. }
  intros Hrun.
  assert (∃ cs1, cs = notifyListeners C (declineRest cs1)
                 ∧ cycleInv ids0 (cycleToDecline cs1) (cycleTrace cs1)
                 ∧ acceptedOffers (cycleTrace cs1)
                   = match default [] tasksToDeploy with
                     | [] => [] | _ => ID <$> offers end)
    as (cs1 & -> & (Ha & Hb & Hc & Hd) & Hacc).
  { destruct (default [] tasksToDeploy) as [|d ds] eqn:Hds; simpl in Hrun.
    - injection Hrun as <-. by exists cs0.
    - destruct (forOffers _ _ _ _) as [cs1|] eqn:Hm; [|done].
      injection Hrun as <-. exists cs1. split; [done|].
      by apply forOffers_inv with (ids0 := ids0) in Hm. }
  split_and!.
  - by apply (finished_declined C cs1 ""%string).
  - intros id. destruct (finished_declined C cs1 id Hd) as (_ & -> & ->). done.
  - intros id. destruct (finished_declined C cs1 id Hd) as (_ & -> & _).
    intros ?. by apply Hids, Hc.
  - intros id. destruct (finished_declined C cs1 id Hd) as (_ & -> & _).
    unfold launchesOn. rewrite finished_trace by done. apply Ha.
  - intros offer Hin.
    destruct (finished_declined C cs1 (ID offer) Hd) as (_ & -> & _).
    unfold tasksCreatedOn. rewrite finished_trace by done.
    apply Hb, Hids. by apply list_elem_of_fmap_2.
  - unfold acceptedOffers at 1. by rewrite finished_trace.
Qed.

(** ** The order of the walk *)


(** ** Running out of ports *)

Lemma bindPorts_exhausted chs : ∀ r b r',
  bindPorts chs r b = Exhausted r' → ports r' = [].
Proof.
  induction chs as [|ch chs IH]; intros r b r'; simpl; [done|].
  destruct (claimPort dynamicPortFloor r) as [port r1| |] eqn:Hclaim;
    [by apply IH| |done].
  intros [= <-]. unfold claimPort, Ports in Hclaim.
  destruct (ports r); [done|]. by destruct (Min _).
Qed.

(** C5 (as amended).  Take a descriptor that passes the checks of the
    offer's attributes and remaining resources, and let the "ports" resource
    of the offer run out, either while the named dynamic ports are bound or,
    a task being created, when the control port is claimed.  Then the
    iteration returns with the pending list and the launches unchanged, no
    port is left in the remaining resources, and the loop goes on with the
    descriptor before this one in the pending list, on the same offer.  When
    the ports ran out while binding, the decline-set is unchanged too. *)
Theorem port_exhaustion_abandons_descriptor
    C constraints offer exec i st d wants r :
  descriptorsToDeploy st !! i = Some d →
  AttributesSatisfy C (Attributes offer) (constraints d) = true →
  GetWantsForDescriptor C d = Some wants →
  ResourcesSatisfy C (remainingResources st) wants = true →
  bindPorts (BindPorts wants) (remainingResources st) ∅ = Exhausted r
  ∨ (∃ bindMap t,
       bindPorts (BindPorts wants) (remainingResources st) ∅ = Bound bindMap r
       ∧ NewTaskForMesosOffer C offer d bindMap exec = Some t
       ∧ claimPort controlPortFloor r = NoPorts) →
  ∃ st',
    matchDescriptor C constraints offer exec i st = Returned st'
    ∧ forDescriptors C constraints offer exec (S i) st
      = forDescriptors C constraints offer exec i st'
    ∧ descriptorsToDeploy st' = descriptorsToDeploy st
    ∧ tasks st' = tasks st
    ∧ tasksDeployedForCurrentOffer st' = tasksDeployedForCurrentOffer st
    ∧ remainingResources st' = r
    ∧ ports r = []
    ∧ (bindPorts (BindPorts wants) (remainingResources st) ∅ = Exhausted r →
       offerIDsToDecline st' = offerIDsToDecline st).
Proof.
  intros Hd Hattr Hwants Hsat [Hbind|(bindMap & t & Hbind & Hnew & Hclaim)].
  - eexists.
    assert (matchDescriptor C constraints offer exec i st
            = Returned (setRemaining r (emit (EProcessing d) st))) as Hstep.
    { unfold matchDescriptor. rewrite Hd, Hattr, Hwants. simpl.
      by rewrite Hsat, Hbind. }
    split; [exact Hstep|]. simpl. rewrite Hstep.
    split_and!; try done. by eapply bindPorts_exhausted.
  - eexists.
    assert (matchDescriptor C constraints offer exec i st
            = Returned (doNotDecline (ID offer)
                (emit (ENewTask (ID offer) (Some t))
                   (emit (EAgentCacheUpdate (AgentID offer))
                      (setRemaining r (emit (EProcessing d) st)))))) as Hstep.
    { unfold matchDescriptor. rewrite Hd, Hattr, Hwants. simpl.
      rewrite Hsat, Hbind. simpl. by rewrite Hnew, Hclaim. }
    split; [exact Hstep|]. simpl. rewrite Hstep.
    split_and!; try done.
    + unfold claimPort, Ports in Hclaim.
      destruct (ports r); [done|]. by destruct (Min _).
    + by rewrite Hbind.
Qed.

(** ** Device events *)

(** C7.  An END_OF_DATA event from a known task whose environment is found
    makes the handler return; it initiates the stop-activity transition on
    that environment when the environment is in state RUNNING, and no
    transition otherwise. *)
Theorem end_of_data_stops_running_environment H evt t env :
  GetType evt = END_OF_DATA →
  GetTask H (OriginTaskId (GetOrigin evt)) = Some t →
  LookupEnvironment H (GetEnvironmentId t) = (Some env, None) →
  ∃ acts,
    handleDeviceEvent H (Some evt) = Returned acts
    ∧ transitionsInitiated acts
      = if String.eqb (SmCurrent env) "RUNNING"
        then [(env, StopActivityTransition)] else [].
Proof.
  intros Hty Htask Henv. unfold handleDeviceEvent.
  rewrite Hty, Htask, Henv. simpl.
  destruct (String.eqb (SmCurrent env) "RUNNING"); [|by eexists].
  destruct (TryTransition H env StopActivityTransition); by eexists.
Qed.

(** C9.  For an END_OF_DATA event from a known task: when the environment
    lookup succeeds the handler returns; when the lookup returns an error,
    the handler logs it, does not return, and calls CurrentState on the
    environment value that came with the error, which is a nil dereference
    when that value is nil. *)
Theorem failed_lookup_reaches_CurrentState H evt t :
  GetType evt = END_OF_DATA →
  GetTask H (OriginTaskId (GetOrigin evt)) = Some t →
  (∀ env, LookupEnvironment H (GetEnvironmentId t) = (Some env, None) →
          ∃ acts, handleDeviceEvent H (Some evt) = Returned acts)
  ∧ (∀ env err, LookupEnvironment H (GetEnvironmentId t) = (env, Some err) →
       ∃ rest,
         stateOf (handleDeviceEvent H (Some evt))
         = ALog Error "cannot find environment for DeviceEvent"
           :: ACurrentState env :: rest
         ∧ (env = None →
            handleDeviceEvent H (Some evt)
            = Panicked [ALog Error "cannot find environment for DeviceEvent";
                        ACurrentState None])).
Proof.
  intros Hty Htask. split.
  - intros env Henv. unfold handleDeviceEvent.
    rewrite Hty, Htask, Henv. simpl.
    destruct (String.eqb (SmCurrent env) "RUNNING"); [|by eexists].
    destruct (TryTransition H env StopActivityTransition); by eexists.
  - intros env err Henv. unfold handleDeviceEvent.
    rewrite Hty, Htask, Henv. destruct env as [e|]; simpl.
    + destruct (String.eqb (SmCurrent e) "RUNNING"); [|by eexists].
      destruct (TryTransition H e StopActivityTransition); by eexists.
    + by eexists.
Qed.

(** ** Routing of messages *)

(** C8 (as amended).  For a MESSAGE with a valid sender: when the payload
    cannot be parsed at the peek of _messageType, the handler returns the
    parse error to its caller and logs nothing but its own begin and end
    lines, at debug; when the discriminator is neither DeviceEvent nor
    MesosCommandResponse, it returns no error and again logs nothing else;
    when a MesosCommandResponse is named MesosCommand_Transition and parses
    in full, it returns no error and hands the response to the command
    servant with the sender made of the agent, the executor and the task of
    the response. *)
Theorem message_routing {Bytes} (J : Decoders Bytes) H (m : Message Bytes) :
  MessageAgentID m ≠ ""%string → MessageExecutorID m ≠ ""%string →
  (∀ err, unmarshalMessageType J (MessageData m) = Unparsed err →
     incomingMessageHandler J H (Some m)
     = Returned (Some err,
                 [ALog Debug "scheduler.incomingMessageHandler BEGIN";
                  ALog Debug "scheduler.incomingMessageHandler END"]))
  ∧ (∀ ty, unmarshalMessageType J (MessageData m) = Parsed ty →
       ty ≠ "DeviceEvent"%string → ty ≠ "MesosCommandResponse"%string →
       incomingMessageHandler J H (Some m)
       = Returned (None,
                   [ALog Debug "scheduler.incomingMessageHandler BEGIN";
                    ALog Debug "scheduler.incomingMessageHandler END"]))
  ∧ (∀ res,
       unmarshalMessageType J (MessageData m) = Parsed "MesosCommandResponse"%string →
       unmarshalCommandName J (MessageData m) = Parsed "MesosCommand_Transition"%string →
       unmarshalTransition J (MessageData m) = Parsed res →
       ∃ acts,
         incomingMessageHandler J H (Some m) = Returned (None, acts)
         ∧ delivered acts
           = [(res, {| TargetAgentId := MessageAgentID m;
                       TargetExecutorId := MessageExecutorID m;
                       TargetTaskId := TaskId res |})]
         ∧ (Warning ∉ logLevels acts) ∧ (Error ∉ logLevels acts)).
Proof.
  intros Hagent Hexec.
  assert ((String.length (MessageAgentID m) =? 0)%nat
          || (String.length (MessageExecutorID m) =? 0)%nat = false) as Hsender.
  { destruct (MessageAgentID m), (MessageExecutorID m); done. }
  unfold incomingMessageHandler, routeMessage. rewrite Hsender.
  split_and!.
  - intros err ->. done.
  - intros ty -> Hdev Hresp.
    apply String.eqb_neq in Hdev, Hresp. by rewrite Hdev, Hresp.
  - intros res -> -> ->. simpl. eexists. split; [done|]. simpl.
    split_and!; [done|..];
      repeat (apply not_elem_of_cons; split; [done|]); apply not_elem_of_nil.
Qed.

(** ** Refreshing repositories *)

Import repos.

Lemma refreshFrom_out_of_range refresh runeToString manager keys : ∀ i index,
  (index < i ∨ i + Z.of_nat (length keys) ≤ index)%Z →
  refreshFrom refresh runeToString manager keys i index
  = Err ("RefreshRepoByIndex: repo not found for index: " +:+ runeToString index).
Proof.
  induction keys as [|key keys IH]; intros i index Hout; simpl; [done|].
  destruct (Z.eqb_spec i index) as [->|Hne].
  - simpl in Hout. lia.
  - apply IH. simpl in Hout. lia.
Qed.

Lemma GetOrderedRepolistKeys_length manager :
  length (GetOrderedRepolistKeys manager) = size (repoList manager).
Proof.
  unfold GetOrderedRepolistKeys.
  rewrite merge_sort_Permutation, length_fmap. apply length_map_to_list.
Qed.

(** C10.  RefreshRepo returns what refresh returns on the outcome of the
    lookup of the normalized path in the repo list: on the repo for a
    registered path, and on nil for a path that is not registered, no error
    of its own being returned; RefreshRepoByIndex returns its not-found
    error for an index out of range. *)
Theorem RefreshRepo_on_unregistered_path refresh runeToString manager repoPath :
  (∀ repo, repoList manager !! EnsureTrailingSlash repoPath = Some repo →
     RefreshRepo refresh manager repoPath = refresh (Some repo))
  ∧ (repoList manager !! EnsureTrailingSlash repoPath = None →
     RefreshRepo refresh manager repoPath = refresh None)
  ∧ (∀ index, (index < 0 ∨ Z.of_nat (size (repoList manager)) ≤ index)%Z →
     RefreshRepoByIndex refresh runeToString manager index
     = Err ("RefreshRepoByIndex: repo not found for index: "
            +:+ runeToString index)).
Proof.
  unfold RefreshRepo. split_and!.
  - by intros repo ->.
  - by intros ->.
  - intros index Hout. unfold RefreshRepoByIndex.
    apply refreshFrom_out_of_range.
    rewrite GetOrderedRepolistKeys_length. lia.
Qed.

(** ** The state mutex *)

Section MutexFacts.
Context (C : Collaborators).
Hypothesis serializes : ∀ cmd, jsonMarshal C cmd ≠ None.

Lemma mutexAfter_quiet held tr :
  forallb quiet tr = true → mutexAfter held tr = inr held.
Proof.
  induction tr as [|e tr IH]; simpl; [done|].
  intros [He Htr]%andb_prop. destruct e; try done; by apply IH.
Qed.

Lemma mutexAfter_app held held' tr1 tr2 :
  mutexAfter held tr1 = inr held' →
  mutexAfter held (tr1 ++ tr2) = mutexAfter held' tr2.
Proof.
  revert held. induction tr1 as [|e tr1 IH]; intros held; simpl.
  - by intros [= ->].
  - destruct e; try apply IH; destruct held; try done; apply IH.
Qed.

Lemma matchDescriptor_quiet constraints offer exec i st st' :
  matchDescriptor C constraints offer exec i st = Returned st' →
  ∃ evs, trace st' = trace st ++ evs ∧ forallb quiet evs = true.
Proof.
  unfold matchDescriptor.
  destruct (descriptorsToDeploy st !! i) as [d|]; [|done].
  destruct (negb _); [intros [= <-]; by eexists|].
  destruct (GetWantsForDescriptor C d) as [wants|]; [|intros [= <-]; by eexists].
  destruct (negb _); [intros [= <-]; by eexists|].
  simpl.
  destruct (bindPorts _ _ _) as [bindMap r1|r1|];
    [|intros [= <-]; unfold_updates; by eexists|done].
  destruct (NewTaskForMesosOffer _ _ _ _ _) as [taskPtr|]; simpl.
  2:{ intros [= <-]. unfold_updates. by eexists. }
  destruct (claimPort controlPortFloor r1) as [controlPort r2| |]; [| |done].
  2:{ intros [= <-]. unfold_updates. by eexists. }
  destruct (jsonMarshal C _) as [jsonCommand|] eqn:Hjson;
    [|by apply serializes in Hjson].
  intros [= <-]. unfold_updates. by eexists.
Qed.

Lemma forDescriptors_quiet constraints offer exec n : ∀ st st',
  forDescriptors C constraints offer exec n st = Returned st' →
  ∃ evs, trace st' = trace st ++ evs ∧ forallb quiet evs = true.
Proof.
  induction n as [|n IH]; intros st st'; simpl.
  - intros [= <-]. exists []. by rewrite app_nil_r.
  - destruct (matchDescriptor _ _ _ _ _ _) as [st1|] eqn:Hstep; [|done].
    intros Hrest.
    apply matchDescriptor_quiet in Hstep as (evs1 & Ht1 & Hq1).
    apply IH in Hrest as (evs2 & Ht2 & Hq2).
    exists (evs1 ++ evs2). rewrite Ht2, Ht1, app_assoc. split; [done|].
    by rewrite forallb_app, Hq1, Hq2.
Qed.

Lemma processOffer_mutex constraints offer cs cs' :
  processOffer C constraints offer cs = Returned cs' →
  mutexAfter false (cycleTrace cs) = inr false →
  mutexAfter false (cycleTrace cs') = inr false.
Proof.
  unfold processOffer.
  destruct (forDescriptors _ _ _ _ _ _) as [st|] eqn:Hloop; [|done].
  apply forDescriptors_quiet in Hloop as (evs & Htr & Hq).
  intros Hp Hfree.
  assert (cycleTrace cs'
          = cycleTrace cs
            ++ ELock :: evs ++ [EUnlock; ECall (Accept (ID offer) (tasks st))])
    as ->.
  { assert (cycleTrace cs'
            = trace st ++ [EUnlock; ECall (Accept (ID offer) (tasks st))]) as ->.
    { destruct (CallNoData C _); [by injection Hp as <-|].
      destruct (0 <? length (tasks st))%nat; by injection Hp as <-. }
    rewrite Htr. unfold enterOffer. simpl. by rewrite <- !app_assoc. }
  rewrite (mutexAfter_app _ _ _ _ Hfree). simpl.
  by rewrite (mutexAfter_app _ _ _ _ (mutexAfter_quiet true evs Hq)).
Qed.

Lemma forOffers_mutex constraints offers : ∀ cs cs',
  forOffers C constraints offers cs = Returned cs' →
  mutexAfter false (cycleTrace cs) = inr false →
  mutexAfter false (cycleTrace cs') = inr false.
Proof.
  induction offers as [|offer offers IH]; intros cs cs'; simpl.
  - by intros [= <-].
  - destruct (processOffer _ _ _ _) as [cs1|] eqn:Hp; [|done].
    intros Hrest Hfree. eapply IH; [done|]. by eapply processOffer_mutex.
Qed.

(** Where every command serializes, a cycle that returns has taken and
    released the mutex in turn, once per offer, and has sent each call with
    the mutex free. *)
Lemma mutex_balanced_when_commands_serialize offers tasksToDeploy cs :
  resourceOffers C offers tasksToDeploy = Returned cs →
  mutexAfter false (cycleTrace cs) = inr false.
Proof.
  unfold resourceOffers. intros Hrun.
  assert (∃ cs1, cs = notifyListeners C (declineRest cs1)
                 ∧ mutexAfter false (cycleTrace cs1) = inr false)
    as (cs1 & -> & Hfree).
  { destruct (0 <? length (default [] tasksToDeploy))%nat.
    - destruct (forOffers _ _ _ _) as [cs1|] eqn:Hm; [|done].
      injection Hrun as <-. exists cs1. split; [done|].
      by eapply forOffers_mutex.
    - injection Hrun as <-. by eexists. }
  unfold notifyListeners, declineRest.
  destruct (listenerReady C), (0 <? size (cycleToDecline cs1))%nat; simpl;
    rewrite <- ?app_assoc, ?(mutexAfter_app _ _ _ _ Hfree); done.
Qed.

End MutexFacts.

(** * Concrete runs *)

Import Scenario.

(** C1: two descriptors of three CPUs and 2048 MB each are launched on one
    offer of four CPUs and 4096 MB.  The checks read the remaining
    resources, from which only ports are ever subtracted. *)
Lemma offer_conservation_broken :
  ∃ cs, resourceOffers lab [modestOffer] (Some [stfbuilder1; stfbuilder2])
        = Returned cs
    ∧ length (launchesOn "A" (cycleTrace cs)) = 2%nat
    ∧ (sumCpus (launchesOn "A" (cycleTrace cs)) == 31 # 5)%Q
    ∧ (cpus (Resources modestOffer) < sumCpus (launchesOn "A" (cycleTrace cs)))%Q
    ∧ (sumMem (launchesOn "A" (cycleTrace cs)) == 4224)%Q
    ∧ (mem (Resources modestOffer) < sumMem (launchesOn "A" (cycleTrace cs)))%Q
    ∧ declineBatches (cycleTrace cs) = [].
Proof. eexists. split; [vm_compute; reflexivity|]. by vm_compute. Qed.

(** The single-offer happy path: the data port is 10000, the control port
    47101, and nothing is declined. *)
Lemma single_offer_happy_path :
  ∃ cs info,
    resourceOffers lab [scenarioOffer] (Some [readout]) = Returned cs
    ∧ launchesOn "A" (cycleTrace cs) = [info]
    ∧ ports (TaskResources info) = [Span 10000 10000; Span 47101 47101]
    ∧ Data info = "readout --control-port 47101"%string
    ∧ declineBatches (cycleTrace cs) = []
    ∧ cyclePending cs = [].
Proof.
  eexists _, _. split; [vm_compute; reflexivity|].
  split; [vm_compute; reflexivity|]. by vm_compute.
Qed.

(** With a single data port and the control range, a descriptor with two
    named ports is launched all the same: its second port is the first of
    the control range and its control port the next one. *)
Lemma second_data_port_from_control_range :
  ∃ cs info,
    resourceOffers lab [oneDataPortOffer] (Some [stfsender]) = Returned cs
    ∧ launchesOn "A" (cycleTrace cs) = [info]
    ∧ ports (TaskResources info) = [Span 10000 10000; Span 47101 47102]
    ∧ Data info = "stfsender --control-port 47102"%string
    ∧ declineBatches (cycleTrace cs) = []
    ∧ cyclePending cs = [].
Proof.
  eexists _, _. split; [vm_compute; reflexivity|].
  split; [vm_compute; reflexivity|]. by vm_compute.
Qed.

(** C6: when the command of a matched descriptor does not serialize, the
    mutex taken once for the offer is released twice, in the loop and after
    it. *)
Lemma double_unlock_on_marshal_failure :
  ∃ cs, resourceOffers labNoJson [richOffer] (Some [readout]) = Returned cs
    ∧ countLocks (cycleTrace cs) = 1%nat
    ∧ countUnlocks (cycleTrace cs) = 2%nat
    ∧ mutexAfter false (cycleTrace cs) = inl UnlockOfUnlocked
    ∧ launchesOn "A" (cycleTrace cs) = [].
Proof. eexists. split; [vm_compute; reflexivity|]. by vm_compute. Qed.

(** The readout descriptor on an offer whose port ranges come in
    descending order and overlap: one data port, at least 9000, and a
    control port, at least 30000. *)
Lemma matched_ports_witness :
  wellFormed (ports (remainingResources (entering shuffledOffer [readout])))
  ∧ matchDescriptor lab noConstraints shuffledOffer "executor-of-A" 0
      (entering shuffledOffer [readout])
    = Returned (step lab shuffledOffer 0 (entering shuffledOffer [readout]))
  ∧ ∃ info ps controlPort,
      tasks (step lab shuffledOffer 0 (entering shuffledOffer [readout]))
      = tasks (entering shuffledOffer [readout]) ++ [info]
      ∧ length ps = 1%nat
      ∧ Forall (λ p, 9000 ≤ p) ps
      ∧ 30000 ≤ controlPort.
Proof.
  assert (wellFormed (ports (remainingResources (entering shuffledOffer [readout]))))
    as Hc by (repeat constructor; simpl; lia).
  assert (matchDescriptor lab noConstraints shuffledOffer "executor-of-A" 0
            (entering shuffledOffer [readout])
          = Returned (step lab shuffledOffer 0 (entering shuffledOffer [readout])))
    as Hstep by (vm_compute; reflexivity).
  assert (∃ info, tasks (step lab shuffledOffer 0 (entering shuffledOffer [readout]))
                  = tasks (entering shuffledOffer [readout]) ++ [info])
    as [info Hinfo] by (eexists; vm_compute; reflexivity).
  split; [exact Hc|]. split; [exact Hstep|].
  destruct (matched_ports_are_least_above_floor lab noConstraints shuffledOffer
              "executor-of-A" 0%nat _ _ info Hc Hstep Hinfo)
    as (d & wants & ps & r1 & controlPort & cmd & Hd & Hw & Hlen & _
        & Hps & _ & _ & Hcp & _).
  injection Hd as <-. injection Hw as <-.
  exists info, ps, controlPort. split; [exact Hinfo|].
  split; [exact Hlen|]. split; [exact Hps|exact Hcp].
Defined.

(** C2, as stated, fails: the control port of a task launched on an offer
    whose ports start at 9000 and at 30000 is 30000, below 47101. *)
Lemma control_port_below_47101 :
  ∃ cs info r,
    resourceOffers lab [richOffer] (Some [stfbuilder1]) = Returned cs
    ∧ launchesOn "A" (cycleTrace cs) = [info]
    ∧ Data info = "stfbuilder --control-port 30000"%string
    ∧ ports (TaskResources info) = [Span 30000 30000]
    ∧ claimPort controlPortFloor (Resources richOffer) = Claimed 30000 r
    ∧ ¬ (47101 ≤ 30000).
Proof.
  eexists _, _, _. split; [vm_compute; reflexivity|].
  split; [vm_compute; reflexivity|]. split; [vm_compute; reflexivity|].
  split; [vm_compute; reflexivity|]. split; [vm_compute; reflexivity|]. lia.
Qed.

(** On an offer whose port ranges come in descending order and overlap, the
    data port of a task is 9000 and its control port 30000. *)
Lemma ports_of_shuffled_offer :
  ∃ cs info r r',
    resourceOffers lab [shuffledOffer] (Some [readout]) = Returned cs
    ∧ launchesOn "A" (cycleTrace cs) = [info]
    ∧ Data info = "readout --control-port 30000"%string
    ∧ ports (TaskResources info) = [Span 9000 9000; Span 30000 30000]
    ∧ claimPort dynamicPortFloor (Resources shuffledOffer) = Claimed 9000 r
    ∧ claimPort controlPortFloor r = Claimed 30000 r'.
Proof.
  eexists _, _, _, _. split; [vm_compute; reflexivity|].
  split; [vm_compute; reflexivity|]. split; [vm_compute; reflexivity|].
  split; [vm_compute; reflexivity|]. split; vm_compute; reflexivity.
Qed.

(** A range that begins above its end holds no port, and yet its [Begin]
    is the port that is claimed: the ports bound are available ones only as
    long as every range begins at or below its end. *)
Lemma port_of_ill_formed_range :
  ∃ r,
    claimPort dynamicPortFloor {| cpus := 4; mem := 8192; ports := [Span 9500 9400] |}
    = Claimed 9500 r
    ∧ ¬ InRanges 9500 [Span 9500 9400].
Proof.
  eexists. split; [vm_compute; reflexivity|].
  intros (r & ->%list_elem_of_singleton & _ & Hr). simpl in Hr. lia.
Qed.

(** A cycle of two offers and one descriptor. *)
Lemma offers_settled_witness :
  resourceOffers lab [richOffer; smallOffer] (Some [readout])
  = Returned (cycle lab [richOffer; smallOffer] [readout])
  ∧ acceptedOffers (cycleTrace (cycle lab [richOffer; smallOffer] [readout]))
    = ["A"; "B"]%string
  ∧ (length (declineBatches
               (cycleTrace (cycle lab [richOffer; smallOffer] [readout]))) ≤ 1)%nat.
Proof.
  assert (resourceOffers lab [richOffer; smallOffer] (Some [readout])
          = Returned (cycle lab [richOffer; smallOffer] [readout]))
    as Hrun by (vm_compute; reflexivity).
  split; [exact Hrun|].
  destruct (offers_settled lab _ _ _ Hrun) as (Hone & _ & _ & _ & _ & Hacc).
  split; [exact Hacc|exact Hone].
Defined.

(** C3, as stated, fails: offer A, whose only port goes to the data channel
    of the descriptor, leaves the decline-set when the task is created and
    has no port left for the control port, so nothing is launched on it and
    it is not declined; offer B, on which nothing can be launched, is sent
    an ACCEPT and is declined. *)
Lemma offer_neither_launched_nor_declined :
  ∃ cs,
    resourceOffers lab [onePortOffer; smallOffer] (Some [readout]) = Returned cs
    ∧ launchesOn "A" (cycleTrace cs) = []
    ∧ length (tasksCreatedOn "A" (cycleTrace cs)) = 1%nat
    ∧ launchesOn "B" (cycleTrace cs) = []
    ∧ acceptedOffers (cycleTrace cs) = ["A"; "B"]%string
    ∧ declineBatches (cycleTrace cs) = [["B"%string]]
    ∧ cyclePending cs = [readout].
Proof. eexists. split; [vm_compute; reflexivity|]. by vm_compute. Qed.


(** The ports run out while the second channel of the sender is bound, and
    when the control port of the readout is claimed. *)
Lemma port_exhaustion_witness :
  (∃ st', matchDescriptor lab noConstraints onePortOffer "executor-of-A" 0
            (entering onePortOffer [stfsender]) = Returned st'
          ∧ descriptorsToDeploy st' = [stfsender]
          ∧ tasks st' = []
          ∧ offerIDsToDecline st' = {[ "A"%string ]})
  ∧ (∃ st', matchDescriptor lab noConstraints onePortOffer "executor-of-A" 0
              (entering onePortOffer [readout]) = Returned st'
            ∧ descriptorsToDeploy st' = [readout]
            ∧ tasks st' = []).
Proof.
  split.
  - destruct (port_exhaustion_abandons_descriptor lab noConstraints onePortOffer
                "executor-of-A" 0%nat (entering onePortOffer [stfsender])
                stfsender
                {| Cpu := 1; Memory := 512; StaticPorts := [];
                   BindPorts := ["data"; "monitoring"]%string |}
                {| cpus := 4; mem := 8192; ports := [] |}
                eq_refl eq_refl eq_refl eq_refl (or_introl eq_refl))
      as (st' & Hstep & _ & Hds & Htasks & _ & _ & _ & Hdecl).
    exists st'. split; [exact Hstep|]. split; [exact Hds|].
    split; [exact Htasks|]. exact (Hdecl eq_refl).
  - destruct (port_exhaustion_abandons_descriptor lab noConstraints onePortOffer
                "executor-of-A" 0%nat (entering onePortOffer [readout])
                readout
                {| Cpu := 2; Memory := 1024; StaticPorts := [];
                   BindPorts := ["data"%string] |}
                {| cpus := 4; mem := 8192; ports := [] |}
                eq_refl eq_refl eq_refl eq_refl
                (or_intror (ex_intro _ _ (ex_intro _ _
                   (conj eq_refl (conj eq_refl eq_refl))))))
      as (st' & Hstep & _ & Hds & Htasks & _).
    exists st'. split; [exact Hstep|]. split; [exact Hds|exact Htasks].
Defined.

(** C5, as stated, fails: on offer A the builder is launched, then the ports
    run out while the second channel of the sender is bound; the loop goes
    on with the readout on the same offer, and the offer is accepted with
    the launch of the builder, not declined. *)
Lemma exhausted_offer_not_declined :
  ∃ cs r,
    resourceOffers lab [tightOffer] (Some [readout; stfsender; stfbuilder1])
    = Returned cs
    ∧ bindPorts ["data"; "monitoring"]%string
        {| cpus := 4; mem := 8192; ports := [Span 9000 9000] |} ∅
      = Exhausted r
    ∧ processed (cycleTrace cs) = [stfbuilder1; stfsender; readout]
    ∧ length (launchesOn "A" (cycleTrace cs)) = 1%nat
    ∧ declineBatches (cycleTrace cs) = []
    ∧ cyclePending cs = [readout; stfsender].
Proof.
  eexists _, _. split; [vm_compute; reflexivity|].
  split; [vm_compute; reflexivity|]. by vm_compute.
Qed.

(** End of data from the readout task, whose environment is running. *)
Lemma end_of_data_witness :
  GetType (endOfDataFrom "flp.readout@A") = END_OF_DATA
  ∧ ∃ acts,
      handleDeviceEvent roster (Some (endOfDataFrom "flp.readout@A"))
      = Returned acts
      ∧ transitionsInitiated acts
        = [(runningEnvironment, StopActivityTransition)].
Proof.
  split; [reflexivity|].
  exact (end_of_data_stops_running_environment roster
           (endOfDataFrom "flp.readout@A") _ runningEnvironment
           eq_refl eq_refl eq_refl).
Defined.

(** End of data from the sender task, whose environment is gone. *)
Lemma failed_lookup_witness :
  GetType (endOfDataFrom "flp.stfsender@A") = END_OF_DATA
  ∧ handleDeviceEvent roster (Some (endOfDataFrom "flp.stfsender@A"))
    = Panicked [ALog Error "cannot find environment for DeviceEvent";
                ACurrentState None].
Proof.
  split; [reflexivity|].
  destruct (failed_lookup_reaches_CurrentState roster
              (endOfDataFrom "flp.stfsender@A") _ eq_refl eq_refl)
    as (_ & Hfail).
  destruct (Hfail None _ eq_refl) as (rest & _ & Hpanic).
  exact (Hpanic eq_refl).
Defined.

(** A transition response from the executor of offer A. *)
Lemma message_routing_witness :
  MessageAgentID (messageOf transitionResponse) ≠ ""%string
  ∧ MessageExecutorID (messageOf transitionResponse) ≠ ""%string
  ∧ ∃ acts,
      incomingMessageHandler flatJson roster (Some (messageOf transitionResponse))
      = Returned (None, acts)
      ∧ length (delivered acts) = 1%nat.
Proof.
  assert (MessageAgentID (messageOf transitionResponse) ≠ ""%string) as Ha by done.
  assert (MessageExecutorID (messageOf transitionResponse) ≠ ""%string) as He by done.
  split; [exact Ha|]. split; [exact He|].
  destruct (message_routing flatJson roster (messageOf transitionResponse) Ha He)
    as (_ & _ & Hdeliver).
  destruct (Hdeliver _ eq_refl eq_refl eq_refl) as (acts & Hrun & Hd & _).
  exists acts. split; [exact Hrun|]. by rewrite Hd.
Defined.

(** C8, as stated, fails: for a payload that is not JSON the handler returns
    the error and logs only its two debug lines, and so it does, without
    error, for a discriminator it does not know. *)
Lemma unparsed_payload_not_logged :
  ∃ err acts acts',
    incomingMessageHandler flatJson roster (Some (messageOf Garbage))
    = Returned (Some err, acts)
    ∧ logLevels acts = [Debug; Debug]
    ∧ incomingMessageHandler flatJson roster
        (Some (messageOf (Object [("_messageType", "Heartbeat")]%string)))
      = Returned (None, acts')
    ∧ logLevels acts' = [Debug; Debug].
Proof. eexists _, _, _. by vm_compute. Qed.

(** A path that is not registered, and an index out of range. *)
Lemma RefreshRepo_witness :
  repos.RefreshRepo refreshOrPanic oneRepo "github.com/AliceO2Group/Control"
  = repos.Panic
  ∧ repos.RefreshRepo refreshOrPanic oneRepo
      "github.com/AliceO2Group/ControlWorkflows"
    = repos.Nil
  ∧ repos.RefreshRepoByIndex refreshOrPanic asciiRune oneRepo 1
    = repos.Err ("RefreshRepoByIndex: repo not found for index: "
                 +:+ asciiRune 1)
  ∧ repos.RefreshRepoByIndex refreshOrPanic asciiRune oneRepo 0 = repos.Nil.
Proof.
  destruct (RefreshRepo_on_unregistered_path refreshOrPanic asciiRune oneRepo
              "github.com/AliceO2Group/Control") as (_ & Habsent & Hindex).
  split; [exact (Habsent eq_refl)|].
  split; [vm_compute; reflexivity|].
  split; [apply Hindex; vm_compute; right; discriminate|].
  vm_compute. reflexivity.
Defined.

(** * Further properties of the handlers *)

(** ** A cycle without pending descriptors *)

(** X1.  When no descriptor is pending, be the channel empty or the list
    received empty, the cycle returns without taking the mutex and without
    any ACCEPT; it declines the offers received, each once, in one batch,
    and sends no DECLINE when there is no offer; nothing is deployed. *)
Theorem no_descriptors_declines_all C offers tasksToDeploy :
  default [] tasksToDeploy = [] →
  ∃ cs,
    resourceOffers C offers tasksToDeploy = Returned cs
    ∧ countLocks (cycleTrace cs) = 0%nat
    ∧ acceptedOffers (cycleTrace cs) = []
    ∧ (length (declineBatches (cycleTrace cs)) ≤ 1)%nat
    ∧ (∀ id, id ∈ concat (declineBatches (cycleTrace cs)) ↔ id ∈ ID <$> offers)
    ∧ NoDup (concat (declineBatches (cycleTrace cs)))
    ∧ (offers = [] → declineBatches (cycleTrace cs) = [])
    ∧ tasksDeployed cs = []
    ∧ tasksLaunchedThisCycle cs = 0%nat.
Proof.
  intros Hnone. unfold resourceOffers. rewrite Hnone. simpl.
  set (cs0 := {| cyclePending := []; cycleToDecline := list_to_set (ID <$> offers);
                 tasksDeployed := []; tasksLaunchedThisCycle := 0;
                 offersDeclined := 0; cycleTrace := [] |}).
  exists (notifyListeners C (declineRest cs0)). split; [done|].
  assert (declineBatches (cycleTrace cs0) = []) as Hd by done.
  split_and!.
  - unfold notifyListeners, declineRest.
    by destruct (listenerReady C), (0 <? size (cycleToDecline cs0))%nat.
  - unfold acceptedOffers. by rewrite finished_trace.
  - by apply (finished_declined C cs0 ""%string).
  - intros id. destruct (finished_declined C cs0 id Hd) as (_ & -> & _).
    apply elem_of_list_to_set.
  - unfold notifyListeners, declineRest.
    destruct (listenerReady C), (0 <? size (cycleToDecline cs0))%nat; simpl;
      rewrite ?app_nil_r; try apply NoDup_elements; constructor.
  - intros ->. unfold notifyListeners, declineRest. simpl.
    by destruct (listenerReady C).
  - unfold notifyListeners, declineRest.
    by destruct (listenerReady C), (0 <? size (cycleToDecline cs0))%nat.
  - unfold notifyListeners, declineRest.
    by destruct (listenerReady C), (0 <? size (cycleToDecline cs0))%nat.
Qed.

(** ** Where the descriptors go *)

Section AccountFacts.
Context (C : Collaborators).

Lemma allLaunches_app tr1 tr2 :
  allLaunches (tr1 ++ tr2) = allLaunches tr1 ++ allLaunches tr2.
Proof. apply flat_map_app. Qed.

Lemma stepOf_allLaunches offer d i st st' :
  stepOf offer d i st st' → allLaunches (trace st') = allLaunches (trace st).
Proof.
  destruct 1 as [r|r|r t [|]|r t info]; simpl;
    rewrite ?allLaunches_app; simpl; by rewrite ?app_nil_r.
Qed.

Lemma forDescriptors_allLaunches constraints offer exec n : ∀ st st',
  forDescriptors C constraints offer exec n st = Returned st' →
  allLaunches (trace st') = allLaunches (trace st).
Proof.
  induction n as [|n IH]; intros st st'; simpl.
  - by intros [= <-].
  - destruct (matchDescriptor _ _ _ _ _ _) as [st1|] eqn:Hstep; [|done].
    apply matchDescriptor_returned in Hstep as (d & _ & Hstep).
    intros Hrest. rewrite (IH _ _ Hrest). by eapply stepOf_allLaunches.
Qed.

(** What one offer does to the pending list, to the launches sent and to
    the deployment map: [launched] are the descriptors matched on the offer
    and [deployed] those of them that are recorded. *)
Lemma processOffer_account constraints offer cs cs' :
  processOffer C constraints offer cs = Returned cs' →
  ∃ launched deployed,
    cyclePending cs ≡ₚ cyclePending cs' ++ launched
    ∧ length (allLaunches (cycleTrace cs'))
      = (length (allLaunches (cycleTrace cs)) + length launched)%nat
    ∧ (tasksDeployed cs').*2 = (tasksDeployed cs).*2 ++ deployed
    ∧ tasksLaunchedThisCycle cs'
      = (tasksLaunchedThisCycle cs + length deployed)%nat
    ∧ deployed `sublist_of` launched
    ∧ ((∀ c, CallNoData C c = false) → deployed = launched)
    ∧ ((∀ c, CallNoData C c = true) → deployed = []).
Proof.
  unfold processOffer.
  destruct (forDescriptors _ _ _ _ _ _) as [st|] eqn:Hloop; [|done].
  pose proof (forDescriptors_allLaunches _ _ _ _ _ _ Hloop) as Hsent.
  destruct (forDescriptors_walk C constraints offer _ _ (enterOffer offer cs) st
              (cyclePending cs) [] (eq_sym (app_nil_r _)) eq_refl Hloop)
    as (kept & launched & Hk & _ & _ & Hperm & Hdep & Hlen & _).
  rewrite app_nil_r in Hk. subst kept. simpl in Hdep, Hlen, Hsent.
  rewrite allLaunches_app in Hsent. simpl in Hsent. rewrite app_nil_r in Hsent.
  assert (length (allLaunches
                    (trace st ++ [EUnlock; ECall (Accept (ID offer) (tasks st))]))
          = (length (allLaunches (cycleTrace cs)) + length launched)%nat) as Hall.
  { rewrite allLaunches_app, length_app, Hsent. simpl. rewrite app_nil_r. lia. }
  destruct (CallNoData C (Accept (ID offer) (tasks st))) eqn:Hcall.
  - intros [= <-]. exists launched, []. simpl. rewrite app_nil_r.
    split_and!; try done; try lia.
    + apply sublist_nil_l.
    + intros Hok. by rewrite Hok in Hcall.
  - destruct (Nat.ltb_spec 0 (length (tasks st))) as [Hn|Hn].
    + intros [= <-]. exists launched, launched. simpl.
      split_and!; try done.
      * by rewrite fmap_app, Hdep.
      * lia.
      * intros Hko. by rewrite Hko in Hcall.
    + intros [= <-]. exists launched, launched. simpl.
      assert (launched = []) as -> by (apply nil_length_inv; lia).
      split_and!; try done; rewrite ?app_nil_r; try done.
Qed.

Lemma forOffers_account constraints offers : ∀ cs cs',
  forOffers C constraints offers cs = Returned cs' →
  ∃ launched deployed,
    cyclePending cs ≡ₚ cyclePending cs' ++ launched
    ∧ length (allLaunches (cycleTrace cs'))
      = (length (allLaunches (cycleTrace cs)) + length launched)%nat
    ∧ (tasksDeployed cs').*2 = (tasksDeployed cs).*2 ++ deployed
    ∧ tasksLaunchedThisCycle cs'
      = (tasksLaunchedThisCycle cs + length deployed)%nat
    ∧ deployed `sublist_of` launched
    ∧ ((∀ c, CallNoData C c = false) → deployed = launched)
    ∧ ((∀ c, CallNoData C c = true) → deployed = []).
Proof.
  induction offers as [|offer offers IH]; intros cs cs'; simpl.
  - intros [= <-]. exists [], []. rewrite !app_nil_r. by split_and!.
  - destruct (processOffer _ _ _ _) as [cs1|] eqn:Hp; [|done].
    intros Hrest.
    apply processOffer_account in Hp
      as (l1 & d1 & Hperm1 & Hall1 & Hdep1 & Hcnt1 & Hsub1 & Hok1 & Hko1).
    apply IH in Hrest
      as (l2 & d2 & Hperm2 & Hall2 & Hdep2 & Hcnt2 & Hsub2 & Hok2 & Hko2).
    exists (l1 ++ l2), (d1 ++ d2). split_and!.
    + rewrite Hperm1, Hperm2. rewrite <- !app_assoc.
      apply Permutation_app_head, Permutation_app_comm.
    + rewrite Hall2, Hall1, length_app. lia.
    + by rewrite Hdep2, Hdep1, app_assoc.
    + rewrite Hcnt2, Hcnt1, length_app. lia.
    + by apply sublist_app.
    + intros Hok. by rewrite Hok1, Hok2.
    + intros Hko. by rewrite Hko1, Hko2.
Qed.

(** The same for a whole cycle, from its start. *)
Lemma resourceOffers_account offers tasksToDeploy cs :
  resourceOffers C offers tasksToDeploy = Returned cs →
  ∃ launched deployed,
    default [] tasksToDeploy ≡ₚ cyclePending cs ++ launched
    ∧ length (allLaunches (cycleTrace cs)) = length launched
    ∧ (tasksDeployed cs).*2 = deployed
    ∧ tasksLaunchedThisCycle cs = length deployed
    ∧ deployed `sublist_of` launched
    ∧ ((∀ c, CallNoData C c = false) → deployed = launched)
    ∧ ((∀ c, CallNoData C c = true) → deployed = []).
Proof.
  unfold resourceOffers.
  set (cs0 := {| cyclePending := default [] tasksToDeploy;
                 cycleToDecline := list_to_set (ID <$> offers);
                 tasksDeployed := []; tasksLaunchedThisCycle := 0;
                 offersDeclined := 0; cycleTrace := [] |}).
  intros Hrun.
  assert (∃ cs1, cs = notifyListeners C (declineRest cs1)
            ∧ ∃ launched deployed,
                default [] tasksToDeploy ≡ₚ cyclePending cs1 ++ launched
                ∧ length (allLaunches (cycleTrace cs1)) = length launched
                ∧ (tasksDeployed cs1).*2 = deployed
                ∧ tasksLaunchedThisCycle cs1 = length deployed
                ∧ deployed `sublist_of` launched
                ∧ ((∀ c, CallNoData C c = false) → deployed = launched)
                ∧ ((∀ c, CallNoData C c = true) → deployed = []))
    as (cs1 & -> & launched & deployed & H).
  { destruct (0 <? length (default [] tasksToDeploy))%nat.
    - destruct (forOffers _ _ _ _) as [cs1|] eqn:Hm; [|done].
      injection Hrun as <-. exists cs1. split; [done|].
      apply forOffers_account in Hm
        as (l & d & Hperm & Hall & Hdep & Hcnt & Hsub & Hok & Hko).
      exists l, d. by split_and!.
    - injection Hrun as <-. exists cs0. split; [done|].
      exists [], []. rewrite app_nil_r. by split_and!. }
  exists launched, deployed.
  unfold allLaunches. rewrite finished_trace by done.
  assert (cyclePending (notifyListeners C (declineRest cs1)) = cyclePending cs1
          ∧ tasksDeployed (notifyListeners C (declineRest cs1)) = tasksDeployed cs1
          ∧ tasksLaunchedThisCycle (notifyListeners C (declineRest cs1))
            = tasksLaunchedThisCycle cs1) as (-> & -> & ->).
  { unfold notifyListeners, declineRest.
    by destruct (listenerReady C), (0 <? size (cycleToDecline cs1))%nat. }
  exact H.
Qed.

End AccountFacts.

(** X2.  In a cycle that returns, every descriptor that was pending is at
    the end either still pending or matched, the descriptors matched being
    as many as the tasks carried by the ACCEPT calls; the descriptors of the
    deployment map, taken in any order, are among those matched, none more
    often than it was matched, and the count of launched tasks is the size
    of the deployment map. *)
Theorem launch_accounting C offers tasksToDeploy cs :
  resourceOffers C offers tasksToDeploy = Returned cs →
  ∃ launched,
    default [] tasksToDeploy ≡ₚ cyclePending cs ++ launched
    ∧ length (allLaunches (cycleTrace cs)) = length launched
    ∧ (tasksDeployed cs).*2 ⊆+ launched
    ∧ tasksLaunchedThisCycle cs = length (tasksDeployed cs).
Proof.
  intros Hrun.
  destruct (resourceOffers_account C _ _ _ Hrun)
    as (launched & deployed & Hperm & Hall & Hdep & Hcnt & Hsub & _).
  exists launched. subst deployed. split_and!; [done..| |].
  - by apply sublist_submseteq.
  - by rewrite Hcnt, length_fmap.
Qed.

(** X3.  When no ACCEPT call fails, a cycle that returns has deployed
    exactly the descriptors it took off the pending list: the descriptors
    pending at the start are those still pending and those of the deployment
    map, each once, and one task was sent per deployment. *)
Theorem deployed_or_pending C offers tasksToDeploy cs :
  (∀ c, CallNoData C c = false) →
  resourceOffers C offers tasksToDeploy = Returned cs →
  default [] tasksToDeploy ≡ₚ cyclePending cs ++ (tasksDeployed cs).*2
  ∧ length (allLaunches (cycleTrace cs)) = length (tasksDeployed cs).
Proof.
  intros Hok Hrun.
  destruct (resourceOffers_account C _ _ _ Hrun)
    as (launched & deployed & Hperm & Hall & Hdep & _ & _ & Heq & _).
  rewrite Hdep, (Heq Hok). split; [done|].
  by rewrite Hall, <- (Heq Hok), <- Hdep, length_fmap.
Qed.

(** X4.  When the ACCEPT calls fail, the descriptors matched are taken off
    the pending list all the same, and none is recorded: the deployment map
    is empty and no task is counted as launched, though the pending list is
    shorter by the number of tasks that were sent. *)
Theorem failed_accept_drops_descriptors C offers tasksToDeploy cs :
  (∀ c, CallNoData C c = true) →
  resourceOffers C offers tasksToDeploy = Returned cs →
  tasksDeployed cs = []
  ∧ tasksLaunchedThisCycle cs = 0%nat
  ∧ length (default [] tasksToDeploy)
    = (length (cyclePending cs) + length (allLaunches (cycleTrace cs)))%nat.
Proof.
  intros Hko Hrun.
  destruct (resourceOffers_account C _ _ _ Hrun)
    as (launched & deployed & Hperm & Hall & Hdep & Hcnt & _ & _ & Hnil).
  rewrite (Hnil Hko) in Hdep, Hcnt. split_and!.
  - by apply fmap_nil_inv in Hdep.
  - done.
  - by rewrite Hperm, length_app, Hall.
Qed.

(** ** The mutex over a cycle *)

Lemma mutexAfter_counts tr : ∀ held held',
  mutexAfter held tr = inr held' →
  (countLocks tr + (if held then 1 else 0)
   = countUnlocks tr + (if held' then 1 else 0))%nat.
Proof.
  unfold countLocks, countUnlocks.
  induction tr as [|e tr IH]; intros held held'; simpl.
  - intros [= ->]. lia.
  - destruct e; try apply IH; destruct held; try done; simpl;
      intros Hrest; apply IH in Hrest; lia.
Qed.

(** X5.  Where every command serializes, a cycle that returns has taken
    and released the mutex in turn, as many times the one as the other, has
    sent every call with the mutex free, and leaves the mutex free. *)
Theorem mutex_free_after_cycle C offers tasksToDeploy cs :
  (∀ cmd, jsonMarshal C cmd ≠ None) →
  resourceOffers C offers tasksToDeploy = Returned cs →
  mutexAfter false (cycleTrace cs) = inr false
  ∧ countLocks (cycleTrace cs) = countUnlocks (cycleTrace cs).
Proof.
  intros Hser Hrun.
  pose proof (mutex_balanced_when_commands_serialize C Hser _ _ _ Hrun) as Hfree.
  split; [done|]. apply mutexAfter_counts in Hfree. lia.
Qed.

(** ** The scalar resources of an offer *)

(** X6.  However many iterations the descriptor loop of an offer makes and
    whatever they launch, the CPU and the memory of the remaining resources
    are those of the offer: only ports are taken out of them, so every
    descriptor of the loop is checked against the whole CPU and memory of
    the offer. *)
Theorem scalars_never_subtracted C constraints offer exec n cs :
  sameScalars (Resources offer)
    (remainingResources
       (stateOf (forDescriptors C constraints offer exec n (enterOffer offer cs)))).
Proof.
  assert (∀ st, sameScalars (remainingResources st)
                  (remainingResources
                     (stateOf (forDescriptors C constraints offer exec n st))))
    as Hloop.
  { induction n as [|n IH]; intros st; simpl; [done|].
    pose proof (matchDescriptor_scalars C constraints offer exec n st) as Hstep.
    destruct (matchDescriptor _ _ _ _ _ _) as [st1|st1]; simpl in *; [|done].
    destruct (IH st1) as [? ?], Hstep as [? ?]. split; congruence. }
  exact (Hloop (enterOffer offer cs)).
Qed.

(** ** The ports given to a task *)

Lemma claimedInOrder_distinct floor : ∀ ps r r',
  claimedInOrder floor r ps r' →
  NoDup ps
  ∧ (∀ p, p ∈ ps → InRanges p (ports r) ∧ ¬ InRanges p (ports r'))
  ∧ (∀ q, InRanges q (ports r') → InRanges q (ports r)).
Proof.
  induction ps as [|p ps IH]; intros r r'; simpl.
  - intros ->. split_and!; [constructor| |done]. intros p Hp.
    by apply elem_of_nil in Hp.
  - intros ((_ & Hp & _) & r1 & (_ & _ & _ & Hr1) & Hrest).
    destruct (IH _ _ Hrest) as (Hnd & Hin & Hsub).
    split_and!.
    + constructor; [|done]. intros Hmem. apply Hin in Hmem as [Hmem _].
      apply Hr1 in Hmem as [_ Hne]. done.
    + intros q [->|Hq]%elem_of_cons.
      * split; [done|]. intros Hq%Hsub%Hr1. by destruct Hq.
      * destruct (Hin _ Hq) as [Hq1 Hq2]. split; [|done]. by apply Hr1 in Hq1 as [? _].
    + intros q Hq%Hsub%Hr1. by destruct Hq.
Qed.

(** X7.  On an offer each of whose remaining port ranges begins at or below
    its end, in whatever order the ranges come and whether they overlap or
    not, the ports given to a launched task, its named dynamic ports and
    its control port, are pairwise distinct, were all available in the
    remaining resources of the offer before the iteration, and are not
    available in them after it, so that no later task on the offer is given
    one of them. *)
Theorem task_ports_distinct C constraints offer exec i st st' info :
  wellFormed (ports (remainingResources st)) →
  matchDescriptor C constraints offer exec i st = Returned st' →
  tasks st' = tasks st ++ [info] →
  ∃ wants ps controlPort,
    length ps = length (BindPorts wants)
    ∧ TaskResources info
      = resourcesRequest wants (bindAll ∅ (BindPorts wants) ps) controlPort
          (executorResources C)
    ∧ NoDup (ps ++ [controlPort])
    ∧ (∀ p, p ∈ ps ++ [controlPort] →
         InRanges p (ports (remainingResources st))
         ∧ ¬ InRanges p (ports (remainingResources st')))
    ∧ (∀ q, InRanges q (ports (remainingResources st')) →
         InRanges q (ports (remainingResources st))).
Proof.
  intros Hc. unfold matchDescriptor.
  destruct (descriptorsToDeploy st !! i) as [d|] eqn:Hd; [|done].
  destruct (negb _); [intros [= <-] H; by apply not_snoc_self in H|].
  destruct (GetWantsForDescriptor C d) as [wants|] eqn:Hw;
    [|intros [= <-] H; by apply not_snoc_self in H].
  destruct (negb _); [intros [= <-] H; by apply not_snoc_self in H|].
  simpl.
  destruct (bindPorts _ _ _) as [bindMap r1| |] eqn:Hbind;
    [|intros [= <-] H; by apply not_snoc_self in H|done].
  destruct (bindPorts_spec _ _ _ _ _ Hc Hbind) as (ps & Hlen & Hps & -> & Hc1).
  destruct (NewTaskForMesosOffer _ _ _ _ _) as [taskPtr|] eqn:Hnew;
    [|intros [= <-] H; by apply not_snoc_self in H].
  simpl.
  destruct (claimPort controlPortFloor r1) as [controlPort r2| |] eqn:Hclaim;
    [|intros [= <-] H; by apply not_snoc_self in H|done].
  destruct (claimPort_spec _ _ _ _ Hc1 Hclaim)
    as ((_ & Hcp & _) & (_ & _ & _ & Hr2)).
  destruct (jsonMarshal C _) as [jsonCommand|] eqn:Hjson;
    [|intros [= <-] H; by apply not_snoc_self in H].
  intros [= <-]. simpl. intros [= <-]%app_inv_head.
  destruct (claimedInOrder_distinct _ _ _ _ Hps) as (Hnd & Hin & Hsub).
  exists wants, ps, controlPort. simpl. split_and!; try done.
  - apply NoDup_app. split_and!; [done| |apply NoDup_singleton].
    intros p Hp ->%list_elem_of_singleton. by destruct (Hin _ Hp) as [_ []].
  - intros p [Hp| ->%list_elem_of_singleton]%elem_of_app.
    + destruct (Hin _ Hp) as [? Hout]. split; [done|].
      intros Hq%Hr2. destruct Hq as [? _]. by apply Hout.
    + split; [by apply Hsub|]. intros Hq%Hr2. by destruct Hq.
  - intros q Hq%Hr2. destruct Hq as [? _]. by apply Hsub.
Qed.

(** ** What the device-event handler may do *)

(** X8.  Whatever the event, the device-event handler initiates at most
    one transition, and a transition it initiates is the stop-activity
    transition, on an environment in state RUNNING that the lookup returned
    for the environment of the known task from which an END_OF_DATA event
    originates. *)
Theorem transitions_only_stop_running H evt :
  (length (transitionsInitiated (stateOf (handleDeviceEvent H evt))) ≤ 1)%nat
  ∧ ∀ e t,
      (e, t) ∈ transitionsInitiated (stateOf (handleDeviceEvent H evt)) →
      t = StopActivityTransition
      ∧ SmCurrent e = "RUNNING"%string
      ∧ ∃ ev task err,
          evt = Some ev
          ∧ GetType ev = END_OF_DATA
          ∧ GetTask H (OriginTaskId (GetOrigin ev)) = Some task
          ∧ LookupEnvironment H (GetEnvironmentId task) = (Some e, err).
Proof.
  unfold handleDeviceEvent.
  destruct evt as [ev|]; [|split; [simpl; lia|by intros e t ?%elem_of_nil]].
  destruct (GetType ev) eqn:Hty;
    [split; [simpl; lia|by intros e t ?%elem_of_nil]|
    |split; [simpl; lia|by intros e t ?%elem_of_nil]].
  destruct (GetTask H _) as [task|] eqn:Htask;
    [|split; [simpl; lia|by intros e t ?%elem_of_nil]].
  destruct (LookupEnvironment H _) as [env err] eqn:Henv.
  assert (transitionsInitiated
            match err with
            | Some _ => [ALog Error "cannot find environment for DeviceEvent"]
            | None => []
            end = []) as Hlogged by by destruct err.
  destruct env as [e0|]; simpl.
  2:{ unfold transitionsInitiated. rewrite flat_map_app.
      fold (transitionsInitiated
              match err with
              | Some _ => [ALog Error "cannot find environment for DeviceEvent"]
              | None => []
              end). rewrite Hlogged. simpl.
      split; [lia|by intros e t ?%elem_of_nil]. }
  destruct (String.eqb_spec (SmCurrent e0) "RUNNING") as [Hrun|Hrun].
  - destruct (TryTransition H e0 StopActivityTransition); simpl;
      unfold transitionsInitiated; rewrite flat_map_app;
      fold (transitionsInitiated
              match err with
              | Some _ => [ALog Error "cannot find environment for DeviceEvent"]
              | None => []
              end); rewrite Hlogged; simpl.
    all: split; [lia|].
    all: intros e t Hin%list_elem_of_singleton; inversion Hin; subst.
    all: split_and!; [by destruct t|done|]; by exists ev, task, err.
  - simpl. unfold transitionsInitiated. rewrite flat_map_app.
    fold (transitionsInitiated
            match err with
            | Some _ => [ALog Error "cannot find environment for DeviceEvent"]
            | None => []
            end). rewrite Hlogged. simpl.
    split; [lia|by intros e t ?%elem_of_nil].
Qed.

(** ** What the MESSAGE handler may do *)

Ltac nothing_delivered :=
  simpl; split; [lia|by intros res sender ?%elem_of_nil].

(** X9.  Whatever the message, the MESSAGE handler hands at most one
    response to the command servant, and only for a message with a valid
    sender whose payload has the discriminator MesosCommandResponse, the
    name MesosCommand_Transition and parses in full: the response handed
    over is the parsed one, the sender is made of the agent and the executor
    of the message and of the task of the response, and no error is
    returned. *)
Theorem delivery_only_of_transition_responses
    {Bytes} (J : Decoders Bytes) H (msg : option (Message Bytes)) :
  (length (delivered (stateOf (incomingMessageHandler J H msg)).2) ≤ 1)%nat
  ∧ ∀ res sender,
      (res, sender) ∈ delivered (stateOf (incomingMessageHandler J H msg)).2 →
      ∃ m,
        msg = Some m
        ∧ MessageAgentID m ≠ ""%string ∧ MessageExecutorID m ≠ ""%string
        ∧ unmarshalMessageType J (MessageData m)
          = Parsed "MesosCommandResponse"%string
        ∧ unmarshalCommandName J (MessageData m)
          = Parsed "MesosCommand_Transition"%string
        ∧ unmarshalTransition J (MessageData m) = Parsed res
        ∧ sender = {| TargetAgentId := MessageAgentID m;
                      TargetExecutorId := MessageExecutorID m;
                      TargetTaskId := TaskId res |}
        ∧ incomingMessageHandler J H msg
          = Returned (None,
              [ALog Debug "scheduler.incomingMessageHandler BEGIN";
               ALog Debug "processing incoming MESSAGE";
               AGo [UpdateTaskState (TaskId res) (CurrentState res);
                    ProcessResponse res sender];
               ALog Debug "scheduler.incomingMessageHandler END"]).
Proof.
  assert (∀ acts, delivered (stateOf (handleDeviceEvent H acts)) = []) as Hdev.
  { intros evt. unfold handleDeviceEvent.
    destruct evt as [ev|]; [|done]. destruct (GetType ev); [done| |done].
    destruct (GetTask H _); [|done].
    destruct (LookupEnvironment H _) as [[e|] [err|]]; simpl; try done;
      destruct (String.eqb _ _); try done;
      by destruct (TryTransition H e StopActivityTransition). }
  assert (∀ l, delivered (ALog Debug "scheduler.incomingMessageHandler BEGIN"
                          :: l ++ [ALog Debug "scheduler.incomingMessageHandler END"])
               = delivered l) as Hwrap.
  { intros l. unfold delivered. simpl. rewrite flat_map_app. simpl.
    by rewrite app_nil_r. }
  unfold incomingMessageHandler, routeMessage.
  destruct msg as [m|]; [|nothing_delivered].
  destruct (_ || _) eqn:Hs; [nothing_delivered|].
  apply orb_false_elim in Hs as [Ha He].
  destruct (unmarshalMessageType J (MessageData m)) as [ty|] eqn:Hty;
    [|nothing_delivered].
  destruct (String.eqb_spec ty "DeviceEvent") as [->|Hnd].
  { destruct (unmarshalDeviceEvent J (MessageData m)) as [[type origin]|];
      [|nothing_delivered].
    destruct (NewDeviceEvent J origin type) as [ev|]; [|nothing_delivered].
    specialize (Hdev (Some ev)).
    destruct (handleDeviceEvent H (Some ev)) as [acts|acts]; simpl in Hdev;
      cbn [stateOf snd]; rewrite Hwrap, Hdev; nothing_delivered. }
  destruct (String.eqb_spec ty "MesosCommandResponse") as [->|Hnr];
    [|nothing_delivered].
  destruct (unmarshalCommandName J (MessageData m)) as [name|] eqn:Hname;
    [|nothing_delivered].
  destruct (String.eqb_spec name "MesosCommand_Transition") as [->|Hnt];
    [|nothing_delivered].
  destruct (unmarshalTransition J (MessageData m)) as [res0|] eqn:Hres;
    [|nothing_delivered].
  simpl. split; [lia|].
  intros res sender Hin%list_elem_of_singleton. injection Hin as -> ->.
  exists m. split_and!; try done.
  - intros Hempty. by rewrite Hempty in Ha.
  - intros Hempty. by rewrite Hempty in He.
Qed.

(** X10.  When the environment manager has a non-nil environment for every
    task the task manager knows, the MESSAGE handler returns for every
    message, whatever the payload decodes to: it does not panic. *)
Theorem message_handler_returns
    {Bytes} (J : Decoders Bytes) H (msg : option (Message Bytes)) :
  (∀ id t, GetTask H id = Some t →
           (LookupEnvironment H (GetEnvironmentId t)).1 ≠ None) →
  ∃ err acts, incomingMessageHandler J H msg = Returned (err, acts).
Proof.
  intros Hsound.
  assert (∀ evt, ∃ acts, handleDeviceEvent H evt = Returned acts) as Hdev.
  { intros evt. unfold handleDeviceEvent.
    destruct evt as [ev|]; [|by eexists].
    destruct (GetType ev); [by eexists| |by eexists].
    destruct (GetTask H _) as [t|] eqn:Ht; [|by eexists].
    specialize (Hsound _ _ Ht).
    destruct (LookupEnvironment H _) as [[e|] err]; [|done]. simpl.
    destruct (String.eqb _ _); [|by eexists].
    destruct (TryTransition H e StopActivityTransition); by eexists. }
  unfold incomingMessageHandler, routeMessage.
  destruct msg as [m|]; [|by eexists _, _].
  destruct (_ || _); [by eexists _, _|].
  destruct (unmarshalMessageType J (MessageData m)) as [ty|]; [|by eexists _, _].
  destruct (String.eqb ty "DeviceEvent").
  { destruct (unmarshalDeviceEvent J (MessageData m)) as [[type origin]|];
      [|by eexists _, _].
    destruct (NewDeviceEvent J origin type) as [ev|]; [|by eexists _, _].
    destruct (Hdev (Some ev)) as (acts & ->). by eexists _, _. }
  destruct (String.eqb ty "MesosCommandResponse"); [|by eexists _, _].
  destruct (unmarshalCommandName J (MessageData m)) as [name|];
    [|by eexists _, _].
  destruct (String.eqb name "MesosCommand_Transition"); [|by eexists _, _].
  destruct (unmarshalTransition J (MessageData m)); by eexists _, _.
Qed.

(** ** Status updates *)

Lemma goStatements_app a b : goStatements (a ++ b) = goStatements a ++ goStatements b.
Proof. apply flat_map_app. Qed.

Lemma heldAfter_app acts : ∀ held held' acts',
  heldAfter held acts = Some held' →
  heldAfter held (acts ++ acts') = heldAfter held' acts'.
Proof.
  induction acts as [|a acts IH]; intros held held' acts'; simpl.
  - by intros [= ->].
  - destruct a; try apply IH; destruct held; try done; apply IH.
Qed.

Lemma statusUpdate_one increment verbose n s :
  (statusUpdate increment verbose n s).1
  = (if isFinished s then increment n else n)
  ∧ goStatements (statusUpdate increment verbose n s).2 = [s]
  ∧ heldAfter false (statusUpdate increment verbose n s).2 = Some false.
Proof.
  unfold statusUpdate, isFinished.
  destruct verbose, (GetState s); simpl; done.
Qed.

(** X11.  Handling the UPDATE events of a subscription in order, from a
    free mutex: the count of finished tasks is incremented once for each
    update in state TASK_FINISHED and for no other; for every update,
    whatever its state, the handler executes one go statement that starts
    a goroutine calling UpdateTaskStatus on it, and it executes these go
    statements in the order of arrival, which says nothing of the order in
    which the goroutines reach the task manager; and the mutex is free
    again in the end. *)
Theorem status_updates_counted increment verbose n updates :
  (statusUpdates increment verbose n updates).1
  = Nat.iter (length (List.filter isFinished updates)) increment n
  ∧ goStatements (statusUpdates increment verbose n updates).2 = updates
  ∧ heldAfter false (statusUpdates increment verbose n updates).2 = Some false.
Proof.
  revert n. induction updates as [|s updates IH]; intros n; simpl; [done|].
  destruct (statusUpdate_one increment verbose n s) as (H1 & H2 & H3).
  destruct (statusUpdate increment verbose n s) as [n1 acts1]. simpl in *.
  subst n1. destruct (IH (if isFinished s then increment n else n))
    as (IH1 & IH2 & IH3).
  destruct (statusUpdates increment verbose _ updates) as [n2 acts2].
  simpl in *. rewrite goStatements_app, H2, IH2, (heldAfter_app _ _ _ _ H3).
  split_and!; try done. rewrite IH1.
  destruct (isFinished s); simpl; [|done]. by rewrite Nat.iter_swap.
Qed.

(** ** The FAILURE handler *)

(** X12.  The FAILURE handler logs at most one entry, at the level of
    errors, and none exactly when the failure names neither an executor nor
    an agent; the entry says that an executor failed exactly when the
    failure names one, and it has the agent among its fields whenever the
    failure names one. *)
Theorem failure_logged_once f :
  (length (failure f) ≤ 1)%nat
  ∧ (failure f = [] ↔ FailureExecutorID f = None ∧ FailureAgentID f = None)
  ∧ ∀ level msg fields,
      (level, msg, fields) ∈ failure f →
      level = Error
      ∧ (msg = "executor failed"%string ↔ is_Some (FailureExecutorID f))
      ∧ (msg = "agent failed"%string ↔ FailureExecutorID f = None)
      ∧ (∀ aid, FailureAgentID f = Some aid →
                fields !! "agent"%string = Some aid)
      ∧ (∀ eid, FailureExecutorID f = Some eid →
                fields !! "executor"%string = Some eid).
Proof.
  unfold failure.
  destruct (FailureExecutorID f) as [eid|], (FailureAgentID f) as [aid|],
           (FailureStatus f) as [stat|]; simpl.
  all: split; [lia|]; split; [split; [done|by intros [? ?]]|].
  all: intros level msg fields Hin;
       try (by apply elem_of_nil in Hin);
       apply list_elem_of_singleton in Hin; injection Hin as -> -> ->.
  all: split_and!; try done;
       try (split; [by eexists|done]);
       try (split; [done|by intros [? ?]]);
       try (by intros ? [= <-]).
Qed.

(** * Further properties of the repo manager *)

(** ** The order of the keys *)

Lemma ascii_compare_refl a : Ascii.compare a a = Eq.
Proof. unfold Ascii.compare. apply N.compare_refl. Qed.

Lemma ascii_compare_lt_trans a b c :
  Ascii.compare a b = Lt → Ascii.compare b c = Lt → Ascii.compare a c = Lt.
Proof. unfold Ascii.compare. rewrite !N.compare_lt_iff. lia. Qed.

Lemma string_compare_trans : ∀ a b c,
  String.compare a b ≠ Gt → String.compare b c ≠ Gt → String.compare a c ≠ Gt.
Proof.
  induction a as [|x a IH]; intros [|y b] [|z c]; simpl; try done.
  destruct (Ascii.compare x y) eqn:Hxy; [| |done].
  - apply Ascii.compare_eq_iff in Hxy as ->.
    destruct (Ascii.compare y z); [apply IH|done|done].
  - destruct (Ascii.compare y z) eqn:Hyz; [| |done].
    + apply Ascii.compare_eq_iff in Hyz as <-. by rewrite Hxy.
    + by rewrite (ascii_compare_lt_trans _ _ _ Hxy Hyz).
Qed.

Lemma leb_transitive : Transitive (λ a b : string, String.leb a b).
Proof.
  intros a b c. unfold String.leb.
  pose proof (string_compare_trans a b c) as Htrans.
  destruct (String.compare a b), (String.compare b c), (String.compare a c);
    simpl; try done; intros _ _; by destruct Htrans.
Qed.

Lemma leb_is_total : Total (λ a b : string, String.leb a b).
Proof.
  intros a b. destruct (String.leb_total a b) as [->| ->]; [by left|by right].
Qed.

Lemma leb_ltb a b : String.leb a b → a ≠ b → String.ltb a b = true.
Proof.
  unfold String.leb, String.ltb. intros Hle Hne.
  destruct (String.compare a b) eqn:Hc; [|done|done].
  by apply String.compare_eq_iff in Hc.
Qed.

Lemma GetOrderedRepolistKeys_perm manager :
  GetOrderedRepolistKeys manager ≡ₚ (map_to_list (repoList manager)).*1.
Proof. apply merge_sort_Permutation. Qed.

Lemma GetOrderedRepolistKeys_elem manager k :
  k ∈ GetOrderedRepolistKeys manager ↔ is_Some (repoList manager !! k).
Proof.
  rewrite GetOrderedRepolistKeys_perm, list_elem_of_fmap. split.
  - intros ([k' repo] & -> & Hin%elem_of_map_to_list). by eexists.
  - intros [repo Hk]. exists (k, repo). split; [done|].
    by apply elem_of_map_to_list.
Qed.

Lemma GetOrderedRepolistKeys_NoDup manager :
  NoDup (GetOrderedRepolistKeys manager).
Proof. rewrite GetOrderedRepolistKeys_perm. apply NoDup_fst_map_to_list. Qed.

Lemma GetOrderedRepolistKeys_sorted manager :
  StronglySorted (λ a b : string, String.leb a b)
    (GetOrderedRepolistKeys manager).
Proof.
  apply (@StronglySorted_merge_sort _ _ _ leb_transitive leb_is_total).
Qed.

Lemma StronglySorted_lookup {A} (R : relation A) (l : list A) : ∀ i j a b,
  StronglySorted R l → l !! i = Some a → l !! j = Some b → (i < j)%nat → R a b.
Proof.
  induction l as [|x l IH]; intros i j a b Hs Hi Hj Hlt; [done|].
  apply StronglySorted_inv in Hs as [Hs Hall].
  destruct j as [|j]; [lia|]. simpl in Hj. destruct i as [|i]; simpl in Hi.
  - injection Hi as ->. rewrite Forall_forall in Hall.
    apply Hall. by eapply list_elem_of_lookup_2.
  - eapply (IH i j); [done..|lia].
Qed.

(** X13.  The keys are given in strictly ascending byte order, and they
    are the keys of the repo list, each once. *)
Theorem keys_ascending manager :
  (∀ i j a b,
     GetOrderedRepolistKeys manager !! i = Some a →
     GetOrderedRepolistKeys manager !! j = Some b →
     (i < j)%nat → String.ltb a b = true)
  ∧ NoDup (GetOrderedRepolistKeys manager)
  ∧ (∀ k, k ∈ GetOrderedRepolistKeys manager ↔ is_Some (repoList manager !! k))
  ∧ length (GetOrderedRepolistKeys manager) = size (repoList manager).
Proof.
  split_and!.
  - intros i j a b Hi Hj Hlt. apply leb_ltb.
    + by apply (StronglySorted_lookup _ _ i j a b
                  (GetOrderedRepolistKeys_sorted manager)).
    + intros ->.
      pose proof (NoDup_lookup _ i j b
                    (GetOrderedRepolistKeys_NoDup manager) Hi Hj). lia.
  - apply GetOrderedRepolistKeys_NoDup.
  - apply GetOrderedRepolistKeys_elem.
  - apply GetOrderedRepolistKeys_length.
Qed.

(** ** Refreshing by index *)

Lemma refreshFrom_in_range refresh runeToString manager keys : ∀ i index key,
  (i ≤ index)%Z → keys !! Z.to_nat (index - i) = Some key →
  refreshFrom refresh runeToString manager keys i index
  = refresh (repoList manager !! key).
Proof.
  induction keys as [|k keys IH]; intros i index key Hle Hkey; simpl; [done|].
  destruct (Z.eqb_spec i index) as [->|Hne].
  - rewrite Z.sub_diag in Hkey. by injection Hkey as ->.
  - apply IH; [lia|].
    replace (Z.to_nat (index - i)) with (S (Z.to_nat (index - (i + 1))))
      in Hkey by lia.
    done.
Qed.

(** X14.  For an index within the list, RefreshRepoByIndex returns what
    refresh returns on the repo registered under the key at that index in
    ascending order: the receiver is a repo of the list, never nil, and the
    not-found error is not returned. *)
Theorem RefreshRepoByIndex_in_range refresh runeToString manager index :
  (0 ≤ index < Z.of_nat (size (repoList manager)))%Z →
  ∃ key repo,
    GetOrderedRepolistKeys manager !! Z.to_nat index = Some key
    ∧ repoList manager !! key = Some repo
    ∧ RefreshRepoByIndex refresh runeToString manager index
      = refresh (Some repo).
Proof.
  intros Hin.
  destruct (lookup_lt_is_Some_2 (GetOrderedRepolistKeys manager) (Z.to_nat index))
    as [key Hkey].
  { rewrite GetOrderedRepolistKeys_length. lia. }
  destruct (proj1 (GetOrderedRepolistKeys_elem manager key)) as [repo Hrepo].
  { by eapply list_elem_of_lookup_2. }
  exists key, repo. split_and!; [done..|].
  unfold RefreshRepoByIndex.
  rewrite (refreshFrom_in_range _ _ _ _ 0 index key), Hrepo; [done|lia|].
  by rewrite Z.sub_0_r.
Qed.

(** ** Refreshing every repo *)

Section RangingFacts.
Context (refresh : option Repo → Result).
Context (getWorkflows : Repo → list string + string).
Context (rangeOver : gmap string Repo → list (string * Repo)).
Hypothesis rangeOver_entries : ∀ m, rangeOver m ≡ₚ map_to_list m.

Lemma refreshEach_spec repos :
  match refreshEach refresh repos with
  | Nil => ∀ repo, repo ∈ repos → refresh (Some repo) = Nil
  | Err msg =>
    ∃ done_ repo rest err,
      repos = done_ ++ repo :: rest
      ∧ (∀ r, r ∈ done_ → refresh (Some r) = Nil)
      ∧ refresh (Some repo) = Err err
      ∧ msg = ("refresh repo for " +:+ GetIdentifier repo +:+ ":" +:+ err)%string
  | Panic =>
    ∃ done_ repo rest,
      repos = done_ ++ repo :: rest
      ∧ (∀ r, r ∈ done_ → refresh (Some r) = Nil)
      ∧ refresh (Some repo) = Panic
  end.
Proof.
  induction repos as [|repo repos IH]; simpl.
  - by intros repo ?%elem_of_nil.
  - destruct (refresh (Some repo)) as [|err|] eqn:Hr.
    + destruct (refreshEach refresh repos) as [|msg|].
      * intros r [->|Hin]%elem_of_cons; [done|by apply IH].
      * destruct IH as (d & r & rest & err & -> & Hd & Hr' & ->).
        exists (repo :: d), r, rest, err. split_and!; try done.
        by intros r' [->|Hin]%elem_of_cons; [|apply Hd].
      * destruct IH as (d & r & rest & -> & Hd & Hr').
        exists (repo :: d), r, rest. split_and!; try done.
        by intros r' [->|Hin]%elem_of_cons; [|apply Hd].
    + exists [], repo, repos, err. split_and!; try done.
      by intros r ?%elem_of_nil.
    + exists [], repo, repos. split_and!; try done.
      by intros r ?%elem_of_nil.
Qed.

Lemma rangeOver_elem (manager : RepoManager) repo :
  repo ∈ (rangeOver (repoList manager)).*2
  ↔ ∃ k, repoList manager !! k = Some repo.
Proof.
  rewrite rangeOver_entries, list_elem_of_fmap. split.
  - intros ([k r] & -> & Hin%elem_of_map_to_list). by exists k.
  - intros [k Hk]. exists (k, repo). split; [done|].
    by apply elem_of_map_to_list.
Qed.

End RangingFacts.

(** X15.  In whatever order the range yields the repos, RefreshRepos
    returns nil exactly when refresh returns nil on every repo of the list,
    and an error it returns is that of a repo of the list, prefixed with the
    identifier of that repo. *)
Theorem RefreshRepos_nil_iff_all_refreshed refresh rangeOver manager :
  (∀ m, rangeOver m ≡ₚ map_to_list m) →
  (RefreshRepos refresh rangeOver manager = Nil
   ↔ ∀ k repo, repoList manager !! k = Some repo → refresh (Some repo) = Nil)
  ∧ (∀ msg, RefreshRepos refresh rangeOver manager = Err msg →
       ∃ k repo err,
         repoList manager !! k = Some repo
         ∧ refresh (Some repo) = Err err
         ∧ msg = ("refresh repo for " +:+ GetIdentifier repo +:+ ":" +:+ err)%string).
Proof.
  intros Hrange. unfold RefreshRepos.
  pose proof (refreshEach_spec refresh (rangeOver (repoList manager)).*2) as Hspec.
  split.
  - split.
    + intros Hnil. rewrite Hnil in Hspec. intros k repo Hk.
      apply Hspec, (rangeOver_elem rangeOver Hrange). by exists k.
    + intros Hall.
      destruct (refreshEach _ _) as [|msg|]; [done|..].
      * destruct Hspec as (d & r & rest & err & Heq & _ & Hr & _).
        assert (r ∈ (rangeOver (repoList manager)).*2) as [k Hk]%(rangeOver_elem rangeOver Hrange).
        { rewrite Heq. apply elem_of_app. right. apply list_elem_of_here. }
        by rewrite (Hall _ _ Hk) in Hr.
      * destruct Hspec as (d & r & rest & Heq & _ & Hr).
        assert (r ∈ (rangeOver (repoList manager)).*2) as [k Hk]%(rangeOver_elem rangeOver Hrange).
        { rewrite Heq. apply elem_of_app. right. apply list_elem_of_here. }
        by rewrite (Hall _ _ Hk) in Hr.
  - intros msg Hmsg. rewrite Hmsg in Hspec.
    destruct Hspec as (d & r & rest & err & Heq & _ & Hr & ->).
    assert (r ∈ (rangeOver (repoList manager)).*2) as [k Hk]%(rangeOver_elem rangeOver Hrange).
    { rewrite Heq. apply elem_of_app. right. apply list_elem_of_here. }
    by exists k, r, err.
Qed.


(** ** The templates of every repo *)

Lemma sum_list_perm l l' : l ≡ₚ l' → sum_list l = sum_list l'.
Proof. induction 1; simpl; lia. Qed.

Lemma templates_insert (tl : gmap string (list string)) k ts :
  tl !! k = None →
  sum_list (length <$> (map_to_list (<[k := ts]> tl)).*2)
  = (length ts + sum_list (length <$> (map_to_list tl).*2))%nat.
Proof.
  intros Hk.
  rewrite (sum_list_perm _ (length <$> ((k, ts) :: map_to_list tl).*2)); [done|].
  by rewrite (map_to_list_insert tl k ts Hk).
Qed.

Lemma templatesOf_spec getWorkflows : ∀ repos tl n,
  NoDup (GetIdentifier <$> repos) →
  (∀ r, r ∈ repos → tl !! GetIdentifier r = None) →
  n = sum_list (length <$> (map_to_list tl).*2) →
  match templatesOf getWorkflows repos tl n with
  | (Some tl', n', None) =>
    n' = sum_list (length <$> (map_to_list tl').*2)
    ∧ (∀ r, r ∈ repos →
            ∃ ts, getWorkflows r = inl ts ∧ tl' !! GetIdentifier r = Some ts)
    ∧ (∀ k, (∀ r, r ∈ repos → GetIdentifier r ≠ k) → tl' !! k = tl !! k)
  | (None, n', Some err) =>
    n' = 0%nat ∧ ∃ r, r ∈ repos ∧ getWorkflows r = inr err
  | _ => False
  end.
Proof.
  induction repos as [|repo repos IH]; intros tl n Hnd Hfresh Hn; simpl.
  - split_and!; [done| |done]. by intros r ?%elem_of_nil.
  - rewrite fmap_cons in Hnd. apply NoDup_cons in Hnd as [Hhead Hnd].
    destruct (getWorkflows repo) as [ts|err] eqn:Hts.
    2:{ split; [done|]. exists repo. split; [apply list_elem_of_here|done]. }
    assert (tl !! GetIdentifier repo = None) as Hrepo
      by apply Hfresh, list_elem_of_here.
    specialize (IH (<[GetIdentifier repo := ts]> tl) (n + length ts)%nat Hnd).
    destruct (templatesOf getWorkflows repos _ _) as [[[tl'|] n'] [err|]];
      try (apply IH; clear IH).
    + intros r Hr. rewrite lookup_insert_ne.
      * by apply Hfresh, list_elem_of_further.
      * intros Heq. apply Hhead. rewrite Heq. by apply list_elem_of_fmap_2.
    + rewrite (templates_insert _ _ ts Hrepo). lia.
    + destruct IH as (Hn' & Hall & Hrest).
      * intros r Hr. rewrite lookup_insert_ne.
        -- by apply Hfresh, list_elem_of_further.
        -- intros Heq. apply Hhead. rewrite Heq. by apply list_elem_of_fmap_2.
      * rewrite (templates_insert _ _ ts Hrepo). lia.
      * split_and!; [done| |].
        -- intros r [->|Hr]%elem_of_cons; [|by apply Hall].
           exists ts. split; [done|]. rewrite Hrest.
           ++ apply lookup_insert_eq.
           ++ intros r Hr Heq. apply Hhead. rewrite <- Heq.
              by apply list_elem_of_fmap_2.
        -- intros k Hk. rewrite Hrest.
           ++ apply lookup_insert_ne. apply Hk, list_elem_of_here.
           ++ intros r Hr. by apply Hk, list_elem_of_further.
    + destruct IH as (Hn' & r & Hr & Herr).
      * intros r Hr. rewrite lookup_insert_ne.
        -- by apply Hfresh, list_elem_of_further.
        -- intros Heq. apply Hhead. rewrite Heq. by apply list_elem_of_fmap_2.
      * rewrite (templates_insert _ _ ts Hrepo). lia.
      * split; [done|]. exists r. split; [by apply list_elem_of_further|done].
    + intros r Hr. rewrite lookup_insert_ne.
      * by apply Hfresh, list_elem_of_further.
      * intros Heq. apply Hhead. rewrite Heq. by apply list_elem_of_fmap_2.
    + rewrite (templates_insert _ _ ts Hrepo). lia.
Qed.

(** X16.  In whatever order the range yields the repos, each of them being
    in the list under its identifier: when GetWorkflowTemplates returns no
    error, the list it returns has the templates of each repo of the list
    under the key of that repo and nothing else, and the count it returns is
    the number of templates in it; when it returns an error, that is the
    error of a repo of the list, and the count is zero. *)
Theorem templates_counted getWorkflows rangeOver manager :
  (∀ m, rangeOver m ≡ₚ map_to_list m) →
  (∀ k repo, repoList manager !! k = Some repo → GetIdentifier repo = k) →
  match GetWorkflowTemplates getWorkflows rangeOver manager with
  | (Some templateList, numTemplates, None) =>
    numTemplates = sum_list (length <$> (map_to_list templateList).*2)
    ∧ (∀ k repo, repoList manager !! k = Some repo →
                 ∃ templates, getWorkflows repo = inl templates
                              ∧ templateList !! k = Some templates)
    ∧ (∀ k, repoList manager !! k = None → templateList !! k = None)
  | (None, numTemplates, Some err) =>
    numTemplates = 0%nat
    ∧ ∃ k repo, repoList manager !! k = Some repo ∧ getWorkflows repo = inr err
  | _ => False
  end.
Proof.
  intros Hrange Hkeyed. unfold GetWorkflowTemplates.
  assert (∀ k repo, (k, repo) ∈ rangeOver (repoList manager)
                    ↔ repoList manager !! k = Some repo) as Hin.
  { intros k repo. rewrite Hrange. apply elem_of_map_to_list. }
  assert (GetIdentifier <$> (rangeOver (repoList manager)).*2
          = (rangeOver (repoList manager)).*1) as Hids.
  { rewrite <- list_fmap_compose. apply list_fmap_ext.
    intros i [k repo] Hi. simpl. apply Hkeyed, Hin.
    by eapply list_elem_of_lookup_2. }
  pose proof (templatesOf_spec getWorkflows (rangeOver (repoList manager)).*2 ∅ 0)
    as Hspec.
  destruct (templatesOf getWorkflows _ ∅ 0%nat) as [[[tl|] n] [err|]];
    try (apply Hspec; clear Hspec).
  - rewrite Hids, Hrange. apply NoDup_fst_map_to_list.
  - intros r _. apply lookup_empty.
  - by rewrite map_to_list_empty.
  - destruct Hspec as (Hn & Hall & Hrest).
    + rewrite Hids, Hrange. apply NoDup_fst_map_to_list.
    + intros r _. apply lookup_empty.
    + by rewrite map_to_list_empty.
    + split_and!; [done| |].
      * intros k repo Hk. rewrite <- (Hkeyed _ _ Hk). apply Hall.
        apply list_elem_of_fmap. exists (k, repo). split; [done|]. by apply Hin.
      * intros k Hk. rewrite Hrest; [apply lookup_empty|].
        intros r ([k' r'] & -> & Hr)%list_elem_of_fmap Heq. simpl in Heq.
        apply Hin in Hr. rewrite (Hkeyed _ _ Hr) in Heq. congruence.
  - destruct Hspec as (Hn & r & ([k r'] & -> & Hr)%list_elem_of_fmap & Herr).
    + rewrite Hids, Hrange. apply NoDup_fst_map_to_list.
    + intros r _. apply lookup_empty.
    + by rewrite map_to_list_empty.
    + split; [done|]. exists k, r'. split; [by apply Hin|done].
  - rewrite Hids, Hrange. apply NoDup_fst_map_to_list.
  - intros r _. apply lookup_empty.
  - by rewrite map_to_list_empty.
Qed.

(** ** The default repo *)

Section PointerFacts.
Import pointers.
Context (W : World).

Lemma keys_perm m : GetOrderedRepolistKeys m ≡ₚ (map_to_list (repoList m)).*1.
Proof. apply merge_sort_Permutation. Qed.

Lemma keys_elem m k :
  k ∈ GetOrderedRepolistKeys m ↔ is_Some (repoList m !! k).
Proof.
  rewrite keys_perm, list_elem_of_fmap. split.
  - intros ([k' p] & -> & Hin%elem_of_map_to_list). by eexists.
  - intros [p Hk]. exists (k, p). split; [done|]. by apply elem_of_map_to_list.
Qed.

Lemma keys_NoDup m : NoDup (GetOrderedRepolistKeys m).
Proof. rewrite keys_perm. apply NoDup_fst_map_to_list. Qed.

Lemma keys_length m : length (GetOrderedRepolistKeys m) = size (repoList m).
Proof. rewrite keys_perm, length_fmap. apply length_map_to_list. Qed.

Lemma keys_sorted m :
  StronglySorted (λ a b : string, String.leb a b) (GetOrderedRepolistKeys m).
Proof.
  apply (@StronglySorted_merge_sort _ _ _ leb_transitive leb_is_total).
Qed.

Lemma keys_lookup m i key :
  GetOrderedRepolistKeys m !! i = Some key → is_Some (repoList m !! key).
Proof. intros Hi. apply keys_elem. by eapply list_elem_of_lookup_2. Qed.

Lemma keys_top m top rest :
  GetOrderedRepolistKeys m = top :: rest →
  is_Some (repoList m !! top)
  ∧ ∀ k, is_Some (repoList m !! k) → String.leb top k = true.
Proof.
  intros Hkeys. split.
  - apply keys_elem. rewrite Hkeys. apply list_elem_of_here.
  - intros k Hk%keys_elem. pose proof (keys_sorted m) as Hs.
    rewrite Hkeys in Hs, Hk. apply StronglySorted_inv in Hs as [_ Hall].
    apply elem_of_cons in Hk as [->|Hk].
    + by destruct (String.leb_total top top).
    + rewrite Forall_forall in Hall. apply Is_true_true, Hall, Hk.
Qed.

Lemma keys_same_list m m' :
  repoList m' = repoList m → GetOrderedRepolistKeys m' = GetOrderedRepolistKeys m.
Proof. unfold GetOrderedRepolistKeys. by intros ->. Qed.

(** The keys are those that the functions which only read see. *)
Lemma keys_view m :
  GetOrderedRepolistKeys m = repos.GetOrderedRepolistKeys (view m).
Proof.
  assert (AntiSymm eq (λ a b : string, String.leb a b)) as Hanti.
  { intros a b Ha Hb. apply String.leb_antisym; by apply Is_true_true. }
  apply (StronglySorted_unique (λ a b : string, String.leb a b)).
  - apply (@StronglySorted_merge_sort _ _ _ leb_transitive leb_is_total).
  - apply GetOrderedRepolistKeys_sorted.
  - rewrite GetOrderedRepolistKeys_perm. unfold GetOrderedRepolistKeys.
    rewrite merge_sort_Permutation. unfold view. simpl.
    rewrite map_to_list_fmap, <- list_fmap_compose.
    assert ((map_to_list (repoList m)).*1
            = fst ∘ prod_map id (store m) <$> map_to_list (repoList m)) as <-;
      [|done].
    apply list_fmap_ext. by intros i [k p] _.
Qed.

(** What setDefaultRepo leaves. *)
Lemma setDefaultRepo_fields p done m :
  repoList (setDefaultRepo W p done m).2 = repoList m
  ∧ allocated (setDefaultRepo W p done m).2 = allocated m
  ∧ defaultRepo (setDefaultRepo W p done m).2 = Some p
  ∧ Default (store (setDefaultRepo W p done m).2 p) = true
  ∧ (∀ q, GetIdentifier (store (setDefaultRepo W p done m).2 q)
          = GetIdentifier (store m q))
  ∧ (∀ q, Revision (store (setDefaultRepo W p done m).2 q)
          = Revision (store m q))
  ∧ (∀ q, q ≠ p →
          Default (store (setDefaultRepo W p done m).2 q)
          = if decide (defaultRepo m = Some q) then false
            else Default (store m q)).
Proof.
  unfold setDefaultRepo, write, assign. simpl.
  destruct (defaultRepo m) as [old|]; simpl.
  - split_and!; try done.
    + by rewrite decide_True.
    + intros q. repeat case_decide; by subst.
    + intros q. repeat case_decide; by subst.
    + intros q Hq. rewrite decide_False by done.
      repeat case_decide; simplify_eq; done.
  - split_and!; try done.
    + by rewrite decide_True.
    + intros q. by case_decide; subst.
    + intros q. by case_decide; subst.
    + intros q Hq. by rewrite decide_False.
Qed.

Lemma setDefaultRepo_done p done m :
  ∃ warned,
    (setDefaultRepo W p done m).1
    = done ++ NewDefaultRepo (GetIdentifier (store m p)) :: warned
    ∧ ∀ e, e ∈ warned → ∃ msg, e = Warning msg.
Proof.
  unfold setDefaultRepo. simpl.
  assert (GetIdentifier
            (store match defaultRepo m with
                   | Some old => write old (withDefault false) m
                   | None => m
                   end p) = GetIdentifier (store m p)) as ->.
  { destruct (defaultRepo m); [|done]. unfold write, assign. simpl.
    by case_decide; subst. }
  destruct (newDefaultRepo W done _) as [err|].
  - eexists [_]. rewrite <- app_assoc. split; [done|].
    intros e ->%list_elem_of_singleton. by eexists.
  - exists []. split; [done|]. by intros e ?%elem_of_nil.
Qed.

Lemma setDefaultRepo_sound p k done m :
  shaped m → repoList m !! k = Some p →
  (∀ k' q, repoList m !! k' = Some q → Default (store m q) = true →
           defaultRepo m = Some q ∨ q = p) →
  sound (setDefaultRepo W p done m).2.
Proof.
  intros [Hla Hda Hld Hid] Hk Hflag.
  destruct (setDefaultRepo_fields p done m)
    as (Hl & Ha & Hd & Hp & Hi & _ & Hq).
  split; [split|..]; rewrite ?Hl, ?Ha, ?Hd.
  - exact Hla.
  - intros q [= <-]. by eapply Hla.
  - exact Hld.
  - intros k' q Hk'. rewrite Hi. by apply Hid.
  - intros _. by exists k, p.
  - by intros q [= <-].
  - intros k' q Hk' Hdef. destruct (decide (q = p)) as [->|Hne]; [done|].
    rewrite (Hq _ Hne) in Hdef. case_decide; [done|].
    by destruct (Hflag _ _ Hk' Hdef).
Qed.

(** A manager that differs from a sound one in neither the flag nor the
    identifier of any repo is sound. *)
Lemma sound_same_flags m m' :
  sound m →
  repoList m' = repoList m → allocated m' = allocated m →
  defaultRepo m' = defaultRepo m →
  (∀ q, GetIdentifier (store m' q) = GetIdentifier (store m q)) →
  (∀ q, Default (store m' q) = Default (store m q)) →
  sound m'.
Proof.
  intros [[Hla Hda Hld Hid] Hdl Hdf Hfd] Hl Ha Hd Hi Hf.
  split; [split|..]; rewrite ?Hl, ?Ha, ?Hd; [exact Hla|exact Hda|exact Hld|..].
  - intros k p Hk. rewrite Hi. by apply Hid.
  - exact Hdl.
  - intros p Hp. rewrite Hf. by apply Hdf.
  - intros k p Hk. rewrite Hf. by apply (Hfd k).
Qed.

Lemma register_sound repo done m :
  sound m → repoList m !! GetIdentifier repo = None → Default repo = false →
  sound (register W repo done m).2.
Proof.
  intros [[Hla Hda Hld Hid] Hdl Hdf Hfd] Hnew Hflag. unfold register.
  set (m1 := {| store := assign (allocated m) repo (store m);
                allocated := S (allocated m);
                repoList := <[GetIdentifier repo := allocated m]> (repoList m);
                defaultRepo := defaultRepo m |}).
  assert (∀ q, (q < allocated m)%nat →
               assign (allocated m) repo (store m) q = store m q) as Hold.
  { intros q Hq. unfold assign. rewrite decide_False; [done|lia]. }
  assert (assign (allocated m) repo (store m) (allocated m) = repo) as Hp.
  { unfold assign. by rewrite decide_True. }
  assert (shaped m1) as Hshaped.
  { split; simpl.
    - intros k p [[<- <-]|[_ Hk]]%lookup_insert_Some; [lia|].
      apply Hla in Hk. lia.
    - intros p Hp'%Hda. lia.
    - intros k k' p [[<- <-]|[Hne Hk]]%lookup_insert_Some
                    [[<- Heq]|[Hne' Hk']]%lookup_insert_Some; try done.
      + apply Hla in Hk'. lia.
      + apply Hla in Hk. lia.
      + by eapply Hld.
    - intros k p [[<- <-]|[Hne Hk]]%lookup_insert_Some.
      + by rewrite Hp.
      + rewrite Hold by by eapply Hla. by apply Hid. }
  destruct (Nat.eqb_spec (size (repoList m1)) 1) as [Hone|Hmore].
  - apply (setDefaultRepo_sound _ (GetIdentifier repo)); [done|..].
    + apply lookup_insert_eq.
    + intros k' q Hk' _. right.
      assert (repoList m = ∅) as Hempty.
      { apply map_size_empty_inv. unfold m1 in Hone. simpl in Hone.
        rewrite map_size_insert_None in Hone by done. lia. }
      unfold m1 in Hk'. simpl in Hk'. rewrite Hempty in Hk'.
      by apply lookup_insert_Some in Hk' as [[_ <-]|[_ ?]].
  - simpl. split; [done|..]; simpl.
    + intros _. destruct Hdl as (k & p & Hd & Hk).
      { intros Hempty. apply Hmore. unfold m1. simpl.
        rewrite map_size_insert_None by done. rewrite Hempty.
        by rewrite map_size_empty. }
      exists k, p. split; [done|]. rewrite lookup_insert_ne; [done|].
      intros <-. by rewrite Hnew in Hk.
    + intros p Hd. rewrite Hold by by apply Hda. by apply Hdf.
    + intros k p [[<- <-]|[Hne Hk]]%lookup_insert_Some.
      * rewrite Hp. by rewrite Hflag.
      * rewrite Hold by by eapply Hla. by apply (Hfd k).
Qed.

(** ** Soundness along the calls *)

(** What AddRepo leaves. *)
Lemma register_fields repo done m :
  repoList (register W repo done m).2
  = <[GetIdentifier repo := allocated m]> (repoList m)
  ∧ allocated (register W repo done m).2 = S (allocated m)
  ∧ GetIdentifier (store (register W repo done m).2 (allocated m))
    = GetIdentifier repo
  ∧ (size (<[GetIdentifier repo := allocated m]> (repoList m)) = 1%nat →
     defaultRepo (register W repo done m).2 = Some (allocated m)
     ∧ Default (store (register W repo done m).2 (allocated m)) = true)
  ∧ (size (<[GetIdentifier repo := allocated m]> (repoList m)) ≠ 1%nat →
     defaultRepo (register W repo done m).2 = defaultRepo m
     ∧ store (register W repo done m).2 = assign (allocated m) repo (store m)
     ∧ (register W repo done m).1 = done).
Proof.
  unfold register. cbn [repoList].
  set (m1 := {| store := assign (allocated m) repo (store m);
                allocated := S (allocated m);
                repoList := <[GetIdentifier repo := allocated m]> (repoList m);
                defaultRepo := defaultRepo m |}).
  assert (GetIdentifier (store m1 (allocated m)) = GetIdentifier repo) as Hid.
  { unfold m1, assign. simpl. by rewrite decide_True. }
  destruct (Nat.eqb_spec (size (<[GetIdentifier repo := allocated m]> (repoList m))) 1)
    as [Hone|Hmore].
  - destruct (setDefaultRepo_fields (allocated m) done m1)
      as (Hl & Ha & Hd & Hp & Hi & _).
    split_and!; try done. by rewrite Hi.
  - split_and!; try done.
Qed.

Lemma removeRepo_sound key p done m :
  sound m → repoList m !! key = Some p →
  sound (removeRepo W key done m).1.2 ∧ (removeRepo W key done m).2 ≠ None.
Proof.
  intros [[Hla Hda Hld Hid] Hdl Hdf Hfd] Hk. unfold removeRepo. rewrite Hk.
  set (m2 := {| store := store m; allocated := allocated m;
                repoList := delete key (repoList m);
                defaultRepo := defaultRepo m |}).
  assert (shaped m2) as Hshaped.
  { split; unfold m2; cbn [repoList allocated defaultRepo store].
    - intros k q [_ Hq]%lookup_delete_Some. by eapply Hla.
    - exact Hda.
    - intros k k' q [_ Hq]%lookup_delete_Some [_ Hq']%lookup_delete_Some.
      by eapply Hld.
    - intros k q [_ Hq]%lookup_delete_Some. by apply Hid. }
  assert (∀ k q, repoList m2 !! k = Some q →
                 q ≠ p ∧ repoList m !! k = Some q) as Hgone.
  { intros k q Hq. unfold m2 in Hq. simpl in Hq.
    apply lookup_delete_Some in Hq as [Hne Hq]. split; [|done].
    intros ->. apply Hne. by eapply Hld. }
  destruct (Default (store m p)) eqn:Hflag; cbn [andb].
  - pose proof (Hfd _ _ Hk Hflag) as Hd.
    destruct (Nat.ltb_spec 0 (size (repoList m2))) as [Hmore|Hlast].
    + destruct (GetOrderedRepolistKeys m2) as [|top rest] eqn:Hkeys.
      { pose proof (keys_length m2) as Hlen. rewrite Hkeys in Hlen.
        change (0 = size (repoList m2))%nat in Hlen. lia. }
      destruct (keys_top _ _ _ Hkeys) as [[q Hq] _]. rewrite Hq.
      destruct (setDefaultRepo W q _ m2) as [d' m'] eqn:Hset.
      assert (m' = (setDefaultRepo W q
                      (done ++ [RemoveAll (getCloneDir W (store m p))]) m2).2)
        as Hm' by by rewrite Hset.
      assert (GetOrderedRepolistKeys m' = top :: rest) as ->.
      { rewrite <- Hkeys. apply keys_same_list. rewrite Hm'.
        by destruct (setDefaultRepo_fields q
                       (done ++ [RemoveAll (getCloneDir W (store m p))]) m2)
          as (-> & _). }
      split; [|done]. simpl. rewrite Hm'.
      apply (setDefaultRepo_sound _ top); [done..|].
      intros k' q' Hk' Hflag'. exfalso.
      destruct (Hgone _ _ Hk') as [Hne Hin]. apply Hne.
      pose proof (Hfd _ _ Hin Hflag') as Hd'. congruence.
    + assert (repoList m2 = ∅) as Hempty
        by (apply map_size_empty_inv; lia).
      assert ((size (repoList m2) =? 0)%nat = true) as ->
        by (apply Nat.eqb_eq; lia).
      split; [|done]. simpl. split; [done|..].
      * by intros [].
      * exact Hdf.
      * intros k q. rewrite Hempty. by rewrite lookup_empty.
  - assert (defaultRepo m ≠ Some p) as Hne.
    { intros Hd%Hdf. congruence. }
    assert (sound m2) as Hsound.
    { split; [done|..].
      - intros _. destruct Hdl as (k0 & d & Hd & Hk0).
        { intros Hempty. by rewrite Hempty, lookup_empty in Hk. }
        exists k0, d. split; [done|]. unfold m2. simpl.
        apply lookup_delete_Some. split; [|done]. intros <-. congruence.
      - exact Hdf.
      - intros k q [_ Hq]%Hgone. by apply (Hfd k). }
    destruct (size (repoList m2) =? 0)%nat; by split.
Qed.

Lemma removeFrom_in_range keys done m : ∀ i index key,
  (i ≤ index)%Z → keys !! Z.to_nat (index - i) = Some key →
  removeFrom W keys i index done m = removeRepo W key done m.
Proof.
  induction keys as [|k keys IH]; intros i index key Hle Hkey; simpl; [done|].
  destruct (Z.eqb_spec i index) as [->|Hne].
  - rewrite Z.sub_diag in Hkey. by injection Hkey as ->.
  - apply IH; [lia|].
    replace (Z.to_nat (index - i)) with (S (Z.to_nat (index - (i + 1))))
      in Hkey by lia.
    done.
Qed.

Lemma removeFrom_out_of_range keys done m : ∀ i index,
  (index < i ∨ i + Z.of_nat (length keys) ≤ index)%Z →
  removeFrom W keys i index done m = (done, m, Some (false, ""%string)).
Proof.
  induction keys as [|k keys IH]; intros i index Hout; simpl; [done|].
  destruct (Z.eqb_spec i index) as [->|Hne].
  - simpl in Hout. lia.
  - apply IH. simpl in Hout. lia.
Qed.

Lemma RemoveRepoByIndex_removes index done m :
  (0 ≤ index < Z.of_nat (size (repoList m)))%Z →
  ∃ key p,
    GetOrderedRepolistKeys m !! Z.to_nat index = Some key
    ∧ repoList m !! key = Some p
    ∧ RemoveRepoByIndex W index done m = removeRepo W key done m.
Proof.
  intros Hin.
  destruct (lookup_lt_is_Some_2 (GetOrderedRepolistKeys m) (Z.to_nat index))
    as [key Hkey].
  { rewrite keys_length. lia. }
  destruct (keys_lookup _ _ _ Hkey) as [p Hp].
  exists key, p. split_and!; [done..|].
  unfold RemoveRepoByIndex. apply removeFrom_in_range; [lia|].
  by rewrite Z.sub_0_r.
Qed.

Lemma RemoveRepoByIndex_sound index done m :
  sound m →
  sound (RemoveRepoByIndex W index done m).1.2
  ∧ (RemoveRepoByIndex W index done m).2 ≠ None.
Proof.
  intros Hs.
  destruct (decide (0 ≤ index < Z.of_nat (size (repoList m)))%Z) as [Hin|Hout].
  - destruct (RemoveRepoByIndex_removes index done m Hin)
      as (key & p & _ & Hp & ->).
    by eapply removeRepo_sound.
  - unfold RemoveRepoByIndex. rewrite removeFrom_out_of_range; [done|].
    rewrite keys_length. lia.
Qed.

Lemma updateDefault_sound k done m :
  sound m →
  sound (updateDefault W (repoList m !! k) done m).1.2
  ∧ (updateDefault W (repoList m !! k) done m).2 ≠ Panic.
Proof.
  intros Hs. unfold updateDefault.
  destruct (repoList m !! k) as [p|] eqn:Hk; [|done].
  case_decide; [done|]. split; [|done]. cbn [fst snd].
  apply (setDefaultRepo_sound _ k); [by destruct Hs|done|].
  intros k' q Hq Hflag. left. by eapply flagged_default.
Qed.

Section Tame.
Hypothesis NewRepo_unflagged :
  ∀ path repo, NewRepo W path = inl repo → Default repo = false.
Hypothesis checkout_keeps : ∀ done repo rev,
  Default (checkoutRevision W done repo rev).1 = Default repo
  ∧ GetIdentifier (checkoutRevision W done repo rev).1 = GetIdentifier repo.

Lemma AddRepo_sound repoPath done m :
  sound m →
  sound (AddRepo W repoPath done m).1.2 ∧ (AddRepo W repoPath done m).2 ≠ Panic.
Proof.
  intros Hs. unfold AddRepo.
  destruct (NewRepo W _) as [repo|err] eqn:Hnew; [|done].
  apply NewRepo_unflagged in Hnew.
  destruct (repoList m !! GetIdentifier repo) eqn:Hk; [done|].
  destruct (plainClone W done repo).
  - split; [|done]. simpl.
    destruct (register W repo _ m) as [d' m'] eqn:Hr.
    change m' with (d', m').2. rewrite <- Hr. by apply register_sound.
  - match goal with
    | |- context [checkoutRevision W ?d repo (Revision repo)] =>
      destruct (checkout_keeps d repo (Revision repo)) as [Hf Hi];
      destruct (checkoutRevision W d repo (Revision repo)) as [repo' [e|]]
    end; [by simpl|].
    simpl in Hf, Hi. split; [|done]. simpl.
    destruct (register W repo' _ m) as [d' m'] eqn:Hr.
    change m' with (d', m').2. rewrite <- Hr.
    apply register_sound; [done|by rewrite Hi|by rewrite Hf].
  - destruct (cleanCloneParentDirs W _ _) as [d [e|]]; by simpl.
Qed.

Lemma resolveIn_fields p revision file done m :
  repoList (resolveIn W (Some p) revision file done m).1.2 = repoList m
  ∧ allocated (resolveIn W (Some p) revision file done m).1.2 = allocated m
  ∧ defaultRepo (resolveIn W (Some p) revision file done m).1.2 = defaultRepo m
  ∧ (∀ q, GetIdentifier (store (resolveIn W (Some p) revision file done m).1.2 q)
          = GetIdentifier (store m q))
  ∧ (∀ q, Default (store (resolveIn W (Some p) revision file done m).1.2 q)
          = Default (store m q)).
Proof.
  unfold resolveIn.
  set (m1 := if negb (String.eqb revision "")
             then write p (withRevision revision) m else m).
  assert (repoList m1 = repoList m ∧ allocated m1 = allocated m
          ∧ defaultRepo m1 = defaultRepo m
          ∧ (∀ q, GetIdentifier (store m1 q) = GetIdentifier (store m q))
          ∧ (∀ q, Default (store m1 q) = Default (store m q)))
    as (Hl & Ha & Hd & Hi & Hf).
  { unfold m1. destruct (negb _); [|done]. unfold write, assign. simpl.
    split_and!; try done; intros q; by case_decide; subst. }
  destruct (checkout_keeps done (store m1 p) (Revision (store m1 p)))
    as [Hcf Hci].
  destruct (checkoutRevision W done (store m1 p) (Revision (store m1 p)))
    as [repo err]. simpl in Hcf, Hci.
  assert (∀ q, GetIdentifier (store (write p (λ _, repo) m1) q)
               = GetIdentifier (store m q)) as Hi'.
  { intros q. unfold write, assign. simpl. case_decide; subst; [|done].
    by rewrite Hci. }
  assert (∀ q, Default (store (write p (λ _, repo) m1) q)
               = Default (store m q)) as Hf'.
  { intros q. unfold write, assign. simpl. case_decide; subst; [|done].
    by rewrite Hcf. }
  by destruct err.
Qed.

Lemma GetWorkflow_fields workflowPath done m :
  repoList (GetWorkflow W workflowPath done m).1.2 = repoList m
  ∧ allocated (GetWorkflow W workflowPath done m).1.2 = allocated m
  ∧ defaultRepo (GetWorkflow W workflowPath done m).1.2 = defaultRepo m
  ∧ (∀ q, GetIdentifier (store (GetWorkflow W workflowPath done m).1.2 q)
          = GetIdentifier (store m q))
  ∧ (∀ q, Default (store (GetWorkflow W workflowPath done m).1.2 q)
          = Default (store m q)).
Proof.
  unfold GetWorkflow.
  destruct (match Split workflowPath "@" with
            | [path; revision] => (path, revision)
            | _ => (workflowPath, ""%string)
            end) as [path revision].
  destruct (Split path "workflows/") as [|a [|b [|c l]]]; [done| | |done].
  - destruct (defaultRepo m) as [p|] eqn:Hd; [|done].
    destruct (resolveIn_fields p revision a done m) as (? & ? & Hd' & ? & ?).
    rewrite Hd in Hd'. by split_and!.
  - destruct (repoList m !! a) as [p|]; [|done]. apply resolveIn_fields.
Qed.

Lemma GetWorkflow_sound workflowPath done m :
  sound m → sound (GetWorkflow W workflowPath done m).1.2.
Proof.
  intros Hs.
  destruct (GetWorkflow_fields workflowPath done m) as (Hl & Ha & Hd & Hi & Hf).
  by eapply sound_same_flags.
Qed.

Lemma AddRepo_registers repoPath done m done' m' :
  AddRepo W repoPath done m = (done', m', Nil) →
  ∃ repo0 repo d,
    NewRepo W (EnsureTrailingSlash repoPath) = inl repo0
    ∧ GetIdentifier repo = GetIdentifier repo0
    ∧ Default repo = false
    ∧ repoList m !! GetIdentifier repo = None
    ∧ register W repo d m = (done', m').
Proof.
  unfold AddRepo.
  destruct (NewRepo W _) as [repo|err] eqn:Hnew; [|done].
  pose proof (NewRepo_unflagged _ _ Hnew) as Hflag.
  destruct (repoList m !! GetIdentifier repo) eqn:Hk; [done|].
  destruct (plainClone W done repo).
  - intros [= Hreg]. exists repo, repo. eexists. by split_and!.
  - match goal with
    | |- context [checkoutRevision W ?d repo (Revision repo)] =>
      destruct (checkout_keeps d repo (Revision repo)) as [Hf Hi];
      destruct (checkoutRevision W d repo (Revision repo)) as [repo' [e|]]
    end; [done|].
    simpl in Hf, Hi. intros [= Hreg]. exists repo, repo'. eexists.
    split_and!; try done; congruence.
  - by destruct (cleanCloneParentDirs W _ _) as [d [e|]].
Qed.

Lemma AddRepo_failed repoPath done m done' m' r :
  AddRepo W repoPath done m = (done', m', r) → r ≠ Nil → m' = m.
Proof.
  unfold AddRepo.
  destruct (NewRepo W _) as [repo|err]; [|by intros [= _ <- _]].
  destruct (repoList m !! GetIdentifier repo); [by intros [= _ <- _]|].
  destruct (plainClone W done repo).
  - by intros [= _ <-].
  - destruct (checkoutRevision W _ repo (Revision repo)) as [repo' [e|]].
    + by intros [= _ <- _].
    + by intros [= _ <-].
  - destruct (cleanCloneParentDirs W _ _) as [d [e|]]; by intros [= _ <- _].
Qed.

(** AddRepo on a list that is not empty leaves the default repo and the
    repos there are as they were. *)
Lemma AddRepo_keeps repoPath done m :
  repoList m ≠ ∅ →
  defaultRepo (AddRepo W repoPath done m).1.2 = defaultRepo m
  ∧ (∀ k p, repoList m !! k = Some p →
            repoList (AddRepo W repoPath done m).1.2 !! k = Some p)
  ∧ (∀ q, (q < allocated m)%nat →
          store (AddRepo W repoPath done m).1.2 q = store m q).
Proof.
  intros Hne.
  destruct (AddRepo W repoPath done m) as [[done' m'] r] eqn:Hadd.
  assert (r = Nil ∨ r ≠ Nil) as [->|Hr] by (destruct r; [by left|by right..]).
  - apply AddRepo_registers in Hadd
      as (repo0 & repo & d & _ & _ & _ & Habsent & Hreg).
    destruct (register_fields repo d m) as (Hl & _ & _ & _ & Hmore).
    rewrite Hreg in Hl, Hmore. simpl in *.
    destruct Hmore as (Hd & Hs & _).
    { rewrite map_size_insert_None by done.
      assert (size (repoList m) ≠ 0%nat); [|lia].
      by intros ?%map_size_empty_inv. }
    split_and!; [done| |].
    + intros k p Hk. rewrite Hl, lookup_insert_ne; [done|].
      intros <-. by rewrite Habsent in Hk.
    + intros q Hq. rewrite Hs. unfold assign. rewrite decide_False; [done|lia].
  - by rewrite (AddRepo_failed _ _ _ _ _ _ Hadd Hr).
Qed.

Lemma ensurePresent_sound repo done m :
  sound m →
  sound (ensurePresent W repo done m).1.2
  ∧ (ensurePresent W repo done m).2 ≠ Panic.
Proof.
  intros Hs. unfold ensurePresent.
  destruct (repoList m !! GetIdentifier repo) as [p|] eqn:Hk;
    [|by apply AddRepo_sound].
  destruct (negb _); [|done].
  destruct (checkout_keeps done (store m p) (Revision repo)) as [Hf Hi].
  destruct (checkoutRevision W done (store m p) (Revision repo)) as [r err].
  simpl in Hf, Hi. split; [|by destruct err]. simpl.
  apply (sound_same_flags m); try done.
  - intros q. unfold write, assign. simpl. by case_decide; subst.
  - intros q. unfold write, assign. simpl. by case_decide; subst.
Qed.

Lemma ensureEach_sound repos : ∀ done m,
  sound m →
  sound (ensureEach W repos done m).1.2
  ∧ (ensureEach W repos done m).2 ≠ Panic.
Proof.
  induction repos as [|repo repos IH]; intros d m Hs; simpl; [done|].
  destruct (ensurePresent_sound repo d m Hs) as [Hs' Hr].
  destruct (ensurePresent W repo d m) as [[d1 m1] []]; simpl in *;
    [by apply IH|done|done].
Qed.

Lemma EnsureReposPresent_sound taskClasses done m :
  sound m →
  sound (EnsureReposPresent W taskClasses done m).1.2
  ∧ (EnsureReposPresent W taskClasses done m).2 ≠ Panic.
Proof.
  intros Hs. unfold EnsureReposPresent.
  destruct (reposRequired W taskClasses); [by apply ensureEach_sound|done].
Qed.

Lemma AddRepo_monotone repoPath done m k p :
  repoList m !! k = Some p →
  repoList (AddRepo W repoPath done m).1.2 !! k = Some p.
Proof.
  intros Hk. destruct (AddRepo_keeps repoPath done m) as (_ & Hmono & _).
  - intros Hempty. by rewrite Hempty, lookup_empty in Hk.
  - by apply Hmono.
Qed.

Lemma ensurePresent_monotone repo done m k p :
  repoList m !! k = Some p →
  repoList (ensurePresent W repo done m).1.2 !! k = Some p.
Proof.
  intros Hk. unfold ensurePresent.
  destruct (repoList m !! GetIdentifier repo) as [q|];
    [|by apply AddRepo_monotone].
  destruct (negb _); [|done].
  by destruct (checkoutRevision W done (store m q) (Revision repo)) as [r err].
Qed.

Lemma ensureEach_monotone repos k p : ∀ d m,
  repoList m !! k = Some p →
  repoList (ensureEach W repos d m).1.2 !! k = Some p.
Proof.
  induction repos as [|repo repos IH]; intros d m Hk; simpl; [done|].
  pose proof (ensurePresent_monotone repo d m k p Hk) as Hk'.
  destruct (ensurePresent W repo d m) as [[d1 m1] []]; simpl in *;
    [by apply IH|done|done].
Qed.

Section Identified.
Hypothesis NewRepo_of_identifier : ∀ path repo repo',
  NewRepo W path = inl repo →
  NewRepo W (EnsureTrailingSlash (GetIdentifier repo)) = inl repo' →
  GetIdentifier repo' = GetIdentifier repo.

Lemma ensurePresent_present path repo d m d' m' :
  NewRepo W path = inl repo →
  ensurePresent W repo d m = (d', m', Nil) →
  is_Some (repoList m' !! GetIdentifier repo).
Proof.
  intros Hnew. unfold ensurePresent.
  destruct (repoList m !! GetIdentifier repo) as [q|] eqn:Hk.
  - destruct (negb _); [|intros [= _ <-]; by eexists].
    destruct (checkoutRevision W d (store m q) (Revision repo)) as [r [e|]];
      [done|].
    intros [= _ <-]. simpl. by eexists.
  - intros (repo0 & repo' & d0 & Hnew0 & Hid & _ & _ & Hreg)%AddRepo_registers.
    destruct (register_fields repo' d0 m) as (Hl & _).
    rewrite Hreg in Hl. simpl in Hl.
    rewrite Hl, Hid, (NewRepo_of_identifier _ _ _ Hnew Hnew0).
    rewrite lookup_insert_eq. by eexists.
Qed.

Lemma ensureEach_present repos : ∀ d m d' m',
  (∀ repo, repo ∈ repos → ∃ path, NewRepo W path = inl repo) →
  ensureEach W repos d m = (d', m', Nil) →
  ∀ repo, repo ∈ repos → is_Some (repoList m' !! GetIdentifier repo).
Proof.
  induction repos as [|repo repos IH]; intros d m d' m' Hnew; simpl.
  - by intros _ repo ?%elem_of_nil.
  - destruct (ensurePresent W repo d m) as [[d1 m1] []] eqn:Hone; [|done..].
    intros Hrest repo' [->|Hin]%elem_of_cons.
    + destruct (Hnew repo) as [path Hpath]; [apply list_elem_of_here|].
      destruct (ensurePresent_present _ _ _ _ _ _ Hpath Hone) as [p Hp].
      exists p.
      pose proof (ensureEach_monotone repos _ _ d1 m1 Hp) as Hmono.
      by rewrite Hrest in Hmono.
    + eapply IH; [|done..]. intros r Hr. apply Hnew. by apply list_elem_of_further.
Qed.

End Identified.

Lemma reposRequired_spec taskClasses :
  match reposRequired W taskClasses with
  | inl repos =>
    Forall2 (λ taskClass repo, NewRepo W taskClass = inl repo) taskClasses repos
  | inr err =>
    ∃ taskClass, taskClass ∈ taskClasses ∧ NewRepo W taskClass = inr err
  end.
Proof.
  induction taskClasses as [|taskClass taskClasses IH]; simpl; [done|].
  destruct (NewRepo W taskClass) as [repo|err] eqn:Hnew.
  - destruct (reposRequired W taskClasses) as [repos|err].
    + by constructor.
    + destruct IH as (tc & Hin & Herr). exists tc. split; [|done].
      by apply list_elem_of_further.
  - exists taskClass. split; [apply list_elem_of_here|done].
Qed.

Lemma perform_sound op done m done' m' :
  sound m → perform W op done m = Some (done', m') → sound m'.
Proof.
  intros Hs. destruct op as [path|index|path|index|path|classes]; simpl.
  - destruct (AddRepo_sound path done m Hs) as [Hs' _].
    destruct (AddRepo W path done m) as [[d1 m1] []]; [|by intros [= _ <-]..].
    by intros [= _ <-].
  - destruct (RemoveRepoByIndex_sound index done m Hs) as [Hs' _].
    destruct (RemoveRepoByIndex W index done m) as [[d1 m1] [r|]]; [|done].
    by intros [= _ <-].
  - unfold UpdateDefaultRepo.
    destruct (updateDefault_sound (EnsureTrailingSlash path) done m Hs)
      as [Hs' _].
    destruct (updateDefault W _ done m) as [[d1 m1] []];
      [by intros [= _ <-]..|done].
  - unfold UpdateDefaultRepoByIndex.
    destruct (if (0 <=? index)%Z then _ else _) as [key|]; [|done].
    destruct (updateDefault_sound key done m Hs) as [Hs' _].
    destruct (updateDefault W _ done m) as [[d1 m1] []];
      [by intros [= _ <-]..|done].
  - pose proof (GetWorkflow_sound path done m Hs) as Hs'.
    destruct (GetWorkflow W path done m) as [[d1 m1] [r|]]; [|done].
    by intros [= _ <-].
  - destruct (EnsureReposPresent_sound classes done m Hs) as [Hs' _].
    destruct (EnsureReposPresent W classes done m) as [[d1 m1] []];
      [by intros [= _ <-]..|done].
Qed.

Lemma addDiscovered_keeps discovered k0 p0 : ∀ done m done' m',
  sound m → defaultRepo m = Some p0 → repoList m !! k0 = Some p0 →
  addDiscovered W discovered done m = Some (done', m') →
  sound m' ∧ defaultRepo m' = Some p0 ∧ repoList m' !! k0 = Some p0.
Proof.
  induction discovered as [|repo discovered IH]; intros done m done' m' Hs Hd Hk;
    simpl.
  - by intros [= _ <-].
  - destruct (AddRepo_sound repo done m Hs) as [Hs' _].
    destruct (AddRepo_keeps repo done m) as (Hd' & Hk' & _).
    { intros Hempty. by rewrite Hempty, lookup_empty in Hk. }
    destruct (AddRepo W repo done m) as [[d1 m1] []]; simpl in *; [| |done].
    + apply IH; [done|congruence|by apply Hk'].
    + apply IH; [done|congruence|by apply Hk'].
Qed.


Lemma performAll_sound ops : ∀ done m done' m',
  sound m → performAll W ops done m = Some (done', m') → sound m'.
Proof.
  induction ops as [|op ops IH]; intros done m done' m' Hs; simpl.
  - by intros [= _ <-].
  - destruct (perform W op done m) as [[d1 m1]|] eqn:Hop; [|done].
    apply IH. by eapply perform_sound.
Qed.

End Tame.

Lemma newManager_sound repo : sound (newManager repo).
Proof.
  split; [split|..]; simpl; try done; intros *; by rewrite lookup_empty.
Qed.

End PointerFacts.

(** ** The calls of the manager *)

Section PointerTheorems.
Import pointers.

(** X17.  Whatever calls are made on a manager, starting from the empty
    one and as long as none panics, provided a repo made by NewRepo is not
    flagged and checkoutRevision leaves the flag and the identifier of the
    repo as they are: every repo is listed under its
    identifier, and while the list is not empty the default repo is a repo
    of the list, whose flag is set and which is the only repo of the list
    whose flag is set. *)
Theorem default_repo_unique W ops repo done manager :
  (∀ path repo, NewRepo W path = inl repo → Default repo = false) →
  (∀ done repo rev,
     Default (checkoutRevision W done repo rev).1 = Default repo
     ∧ GetIdentifier (checkoutRevision W done repo rev).1 = GetIdentifier repo) →
  performAll W ops [] (newManager repo) = Some (done, manager) →
  (∀ k p, repoList manager !! k = Some p →
          GetIdentifier (store manager p) = k)
  ∧ (repoList manager ≠ ∅ →
     ∃ k p,
       defaultRepo manager = Some p
       ∧ repoList manager !! k = Some p
       ∧ ∀ k' q, repoList manager !! k' = Some q →
                 (Default (store manager q) = true ↔ k' = k)).
Proof.
  intros Hnew Hco Hrun.
  destruct (performAll_sound W Hnew Hco ops _ _ _ _ (newManager_sound repo) Hrun)
    as [[Hla Hda Hld Hid] Hdl Hdf Hfd].
  split; [exact Hid|]. intros Hne.
  destruct (Hdl Hne) as (k & p & Hd & Hk). exists k, p. split_and!; [done..|].
  intros k' q Hq. split.
  - intros Hflag. pose proof (Hfd _ _ Hq Hflag) as Hd'.
    rewrite Hd in Hd'. injection Hd' as <-. by eapply Hld.
  - intros ->. rewrite Hk in Hq. injection Hq as <-. by apply Hdf.
Qed.

Lemma length_append a b :
  String.length (a +:+ b) = (String.length a + String.length b)%nat.
Proof. induction a as [|c a IH]; simpl; [done|]. by rewrite IH. Qed.

(** X18.  UpdateDefaultRepoByIndex panics for an index outside the list,
    and for an index within it the repo is found: either it is the default
    repo already, which is the error returned, nothing being changed, or it
    becomes the default repo, its flag set and that of the former default
    repo unset, and the backend is told its identifier.  The error for a
    repo that is not found is never returned. *)
Theorem UpdateDefaultRepoByIndex_outcomes W index done m :
  ((index < 0 ∨ Z.of_nat (size (repoList m)) ≤ index)%Z →
   UpdateDefaultRepoByIndex W index done m = (done, m, Panic))
  ∧ ((0 ≤ index < Z.of_nat (size (repoList m)))%Z →
     ∃ key p,
       GetOrderedRepolistKeys m !! Z.to_nat index = Some key
       ∧ repoList m !! key = Some p
       ∧ (defaultRepo m = Some p →
          UpdateDefaultRepoByIndex W index done m
          = (done, m,
             Err (GetIdentifier (store m p) +:+ " is already the default repo")))
       ∧ (defaultRepo m ≠ Some p →
          ∃ done' m' warned,
            UpdateDefaultRepoByIndex W index done m = (done', m', Nil)
            ∧ repoList m' = repoList m
            ∧ defaultRepo m' = Some p
            ∧ Default (store m' p) = true
            ∧ (∀ old, defaultRepo m = Some old → Default (store m' old) = false)
            ∧ done' = done ++ NewDefaultRepo (GetIdentifier (store m p)) :: warned
            ∧ ∀ e, e ∈ warned → ∃ msg, e = Warning msg))
  ∧ (UpdateDefaultRepoByIndex W index done m).2 ≠ Err "Repo not found".
Proof.
  assert ((index < 0 ∨ Z.of_nat (size (repoList m)) ≤ index)%Z →
          UpdateDefaultRepoByIndex W index done m = (done, m, Panic)) as Hout.
  { intros Hout. unfold UpdateDefaultRepoByIndex.
    destruct (Z.leb_spec 0 index) as [Hpos|Hneg]; [|done].
    rewrite lookup_ge_None_2; [done|]. rewrite keys_length. lia. }
  assert ((0 ≤ index < Z.of_nat (size (repoList m)))%Z →
          ∃ key p,
            GetOrderedRepolistKeys m !! Z.to_nat index = Some key
            ∧ repoList m !! key = Some p
            ∧ UpdateDefaultRepoByIndex W index done m
              = updateDefault W (Some p) done m) as Hin.
  { intros Hin. unfold UpdateDefaultRepoByIndex.
    destruct (Z.leb_spec 0 index) as [Hpos|Hneg]; [|lia].
    destruct (lookup_lt_is_Some_2 (GetOrderedRepolistKeys m) (Z.to_nat index))
      as [key Hkey].
    { rewrite keys_length. lia. }
    destruct (keys_lookup _ _ _ Hkey) as [p Hp].
    exists key, p. by rewrite Hkey, Hp. }
  split; [exact Hout|]. split.
  - intros Hrange. destruct (Hin Hrange) as (key & p & Hkey & Hp & ->).
    exists key, p. split_and!; [done..| |].
    + intros Hd. unfold updateDefault. by rewrite decide_True.
    + intros Hd. unfold updateDefault. rewrite decide_False by done.
      destruct (setDefaultRepo_fields W p done m)
        as (Hl & _ & Hd' & Hflag & _ & _ & Hother).
      destruct (setDefaultRepo_done W p done m) as (warned & Hdone & Hwarned).
      destruct (setDefaultRepo W p done m) as [done' m'] eqn:Hset.
      simpl in *. exists done', m', warned. split_and!; try done.
      intros old Hold. rewrite Hother by congruence.
      by rewrite decide_True.
  - destruct (decide (0 ≤ index < Z.of_nat (size (repoList m)))%Z)
      as [Hrange|Hrange].
    + destruct (Hin Hrange) as (key & p & _ & _ & ->). unfold updateDefault.
      case_decide; [|done]. simpl. intros [= Heq].
      apply (f_equal String.length) in Heq. rewrite length_append in Heq.
      simpl in Heq. lia.
    + rewrite Hout by lia. done.
Qed.

(** X19.  For an index outside the list RemoveRepoByIndex returns false and
    no name, having done nothing and with the manager as it was. *)
Theorem RemoveRepoByIndex_out_of_range W index done m :
  (index < 0 ∨ Z.of_nat (size (repoList m)) ≤ index)%Z →
  RemoveRepoByIndex W index done m = (done, m, Some (false, ""%string)).
Proof.
  intros Hout. unfold RemoveRepoByIndex. apply removeFrom_out_of_range.
  rewrite keys_length. lia.
Qed.

(** X20.  Removing the default repo of a sound manager while other repos
    remain: the repo leaves the list and its flag is unset, and the repo
    under the first of the remaining keys in ascending order becomes the
    default repo, with its flag set; that key is the name returned, and
    the manager is sound. *)
Theorem removing_default_promotes_first W index done m key p :
  sound m →
  (0 ≤ index)%Z →
  GetOrderedRepolistKeys m !! Z.to_nat index = Some key →
  repoList m !! key = Some p →
  defaultRepo m = Some p →
  (1 < size (repoList m))%nat →
  ∃ done' m' top q,
    RemoveRepoByIndex W index done m = (done', m', Some (true, top))
    ∧ repoList m' = delete key (repoList m)
    ∧ repoList m' !! top = Some q
    ∧ (∀ k, is_Some (repoList m' !! k) → String.leb top k = true)
    ∧ defaultRepo m' = Some q
    ∧ Default (store m' q) = true
    ∧ Default (store m' p) = false
    ∧ sound m'.
Proof.
  intros Hs Hpos Hkey Hp Hd Hsize.
  pose proof (removeRepo_sound W key p done m Hs Hp) as [Hs' _].
  revert Hs'.
  unfold RemoveRepoByIndex.
  rewrite (removeFrom_in_range W _ done m 0 index key) by (by rewrite ?Z.sub_0_r).
  unfold removeRepo. rewrite Hp.
  rewrite (default_flagged _ Hs _ Hd). cbn [andb].
  set (m2 := {| store := store m; allocated := allocated m;
                repoList := delete key (repoList m);
                defaultRepo := defaultRepo m |}).
  assert (size (repoList m2) = Init.Nat.pred (size (repoList m))) as Hsize2.
  { unfold m2. simpl. by apply map_size_delete_Some. }
  destruct (Nat.ltb_spec 0 (size (repoList m2))) as [_|?]; [|lia].
  destruct (GetOrderedRepolistKeys m2) as [|top rest] eqn:Hkeys.
  { pose proof (keys_length m2) as Hlen. rewrite Hkeys in Hlen.
    change (0 = size (repoList m2))%nat in Hlen. lia. }
  destruct (keys_top _ _ _ Hkeys) as [[q Hq] Hleast]. rewrite Hq.
  destruct (setDefaultRepo_fields W q
              (done ++ [RemoveAll (getCloneDir W (store m p))]) m2)
    as (Hl & _ & Hd' & Hflag & _ & _ & Hother).
  destruct (setDefaultRepo W q _ m2) as [done' m'] eqn:Hset.
  simpl in Hl, Hd', Hflag, Hother.
  rewrite (keys_same_list m2 m' Hl), Hkeys. cbn [fst snd]. intros Hs'.
  exists done', m', top, q. split_and!; try done.
  - by rewrite Hl.
  - intros k. rewrite Hl. apply Hleast.
  - rewrite Hother.
    + unfold m2. simpl. by rewrite decide_True.
    + intros ->. unfold m2 in Hq. simpl in Hq.
      apply lookup_delete_Some in Hq as [Hne Hq]. apply Hne.
      by eapply (listed_distinct _ (sound_shaped _ Hs)).
Qed.

(** X21.  Removing the only repo of a sound manager empties the list and
    leaves the default repo as it was: the manager goes on pointing to the
    repo that it removed, whose flag stays set; the directory of the repo is
    removed and the backend is told the default repo of the
    configuration. *)
Theorem removing_last_repo_keeps_default W done m :
  sound m →
  size (repoList m) = 1%nat →
  ∃ key p warned,
    repoList m !! key = Some p
    ∧ defaultRepo m = Some p
    ∧ RemoveRepoByIndex W 0 done m
      = (done ++ [RemoveAll (getCloneDir W (store m p));
                  NewDefaultRepo (defaultRepoSetting W)] ++ warned,
         {| store := store m; allocated := allocated m; repoList := ∅;
            defaultRepo := Some p |},
         Some (true, ""%string))
    ∧ Default (store m p) = true
    ∧ (∀ e, e ∈ warned → ∃ msg, e = Warning msg).
Proof.
  intros Hs Hsize.
  destruct (GetOrderedRepolistKeys m) as [|key [|key' rest]] eqn:Hkeys.
  { pose proof (keys_length m) as Hlen. rewrite Hkeys in Hlen. simpl in Hlen. lia. }
  2:{ pose proof (keys_length m) as Hlen. rewrite Hkeys in Hlen. simpl in Hlen. lia. }
  destruct (keys_top _ _ _ Hkeys) as [[p Hp] _].
  assert (∀ k, is_Some (repoList m !! k) → k = key) as Honly.
  { intros k Hk%keys_elem. rewrite Hkeys in Hk.
    by apply list_elem_of_singleton in Hk. }
  destruct (default_listed _ Hs) as (k0 & d & Hd & Hk0).
  { intros Hempty. by rewrite Hempty, lookup_empty in Hp. }
  assert (k0 = key) as -> by (apply Honly; by eexists).
  rewrite Hp in Hk0. injection Hk0 as <-.
  assert (delete key (repoList m) = ∅) as Hempty.
  { apply map_size_empty_inv. rewrite map_size_delete_Some by by eexists. lia. }
  unfold RemoveRepoByIndex. rewrite Hkeys. simpl. unfold removeRepo.
  rewrite Hp, (default_flagged _ Hs _ Hd). simpl. rewrite Hempty.
  rewrite map_size_empty. simpl. rewrite Hd.
  destruct (newDefaultRepo W _ _) as [err|].
  - exists key, p, [Warning "Failed to update default_repo backend"].
    split_and!; try done.
    + by rewrite <- !app_assoc.
    + by apply (default_flagged _ Hs).
    + intros e ->%list_elem_of_singleton. by eexists.
  - exists key, p, []. split_and!; try done.
    + by rewrite <- !app_assoc.
    + by apply (default_flagged _ Hs).
    + by intros e ?%elem_of_nil.
Qed.

(** X22.  Removing from a sound manager a repo that is not the default
    repo takes it off the list and removes its directory, and nothing else:
    no repo is written, the default repo stays, the backend is not told
    anything and no name is returned. *)
Theorem removing_other_repo_keeps_default W index done m key p :
  sound m →
  (0 ≤ index)%Z →
  GetOrderedRepolistKeys m !! Z.to_nat index = Some key →
  repoList m !! key = Some p →
  defaultRepo m ≠ Some p →
  RemoveRepoByIndex W index done m
  = (done ++ [RemoveAll (getCloneDir W (store m p))],
     {| store := store m; allocated := allocated m;
        repoList := delete key (repoList m); defaultRepo := defaultRepo m |},
     Some (true, ""%string))
  ∧ ∃ k d, k ≠ key ∧ repoList m !! k = Some d ∧ defaultRepo m = Some d.
Proof.
  intros Hs Hpos Hkey Hp Hd.
  destruct (default_listed _ Hs) as (k0 & d & Hd0 & Hk0).
  { intros Hempty. by rewrite Hempty, lookup_empty in Hp. }
  assert (k0 ≠ key) as Hne by (intros ->; congruence).
  split; [|by exists k0, d].
  unfold RemoveRepoByIndex.
  rewrite (removeFrom_in_range W _ done m 0 index key) by (by rewrite ?Z.sub_0_r).
  unfold removeRepo. rewrite Hp.
  destruct (Default (store m p)) eqn:Hflag.
  { by apply (flagged_default _ Hs key) in Hflag. }
  cbn [andb].
  assert ((size (delete key (repoList m)) =? 0)%nat = false) as Hsize.
  { apply Nat.eqb_neq. intros Hz%map_size_empty_inv.
    assert (delete key (repoList m) !! k0 = Some d) as Hin
      by by apply lookup_delete_Some.
    by rewrite Hz, lookup_empty in Hin. }
  simpl. by rewrite Hsize.
Qed.

(** X23.  AddRepo does not panic.  When it returns an error the manager is
    as it was, and for a repo that is listed already the error says so and
    nothing has been done, no clone attempted.  When it returns nil, one
    repo has entered the list, under its identifier and at a pointer that
    was not in use; it has become the default repo, with its flag set, when
    it is the only repo of the list, and otherwise the default repo and the
    other repos are as they were. *)
Theorem AddRepo_outcomes W repoPath done m :
  ∃ done' m' r,
    AddRepo W repoPath done m = (done', m', r)
    ∧ r ≠ Panic
    ∧ (r ≠ Nil → m' = m)
    ∧ (∀ repo, NewRepo W (EnsureTrailingSlash repoPath) = inl repo →
               is_Some (repoList m !! GetIdentifier repo) →
               r = Err "Repo already present" ∧ done' = done)
    ∧ (r = Nil →
       ∃ repo,
         repoList m' = <[GetIdentifier repo := allocated m]> (repoList m)
         ∧ allocated m' = S (allocated m)
         ∧ GetIdentifier (store m' (allocated m)) = GetIdentifier repo
         ∧ (size (repoList m') = 1%nat →
            defaultRepo m' = Some (allocated m)
            ∧ Default (store m' (allocated m)) = true)
         ∧ (size (repoList m') ≠ 1%nat →
            defaultRepo m' = defaultRepo m
            ∧ store m' = assign (allocated m) repo (store m))).
Proof.
  assert (∀ repo d, ∃ done' m',
    register W repo d m = (done', m')
    ∧ ∃ repo0,
        repoList m' = <[GetIdentifier repo0 := allocated m]> (repoList m)
        ∧ allocated m' = S (allocated m)
        ∧ GetIdentifier (store m' (allocated m)) = GetIdentifier repo0
        ∧ (size (repoList m') = 1%nat →
           defaultRepo m' = Some (allocated m)
           ∧ Default (store m' (allocated m)) = true)
        ∧ (size (repoList m') ≠ 1%nat →
           defaultRepo m' = defaultRepo m
           ∧ store m' = assign (allocated m) repo0 (store m))) as Hreg.
  { intros repo d.
    destruct (register_fields W repo d m) as (Hl & Ha & Hi & Hone & Hmore).
    destruct (register W repo d m) as [done' m']. simpl in *.
    exists done', m'. split; [done|]. exists repo. rewrite Hl.
    split_and!; try done. intros Hsize. by destruct (Hmore Hsize) as (? & ? & _). }
  unfold AddRepo.
  destruct (NewRepo W _) as [repo|err] eqn:Hnew.
  2:{ eexists _, _, _. split; [done|]. split_and!; try done. }
  destruct (repoList m !! GetIdentifier repo) as [p|] eqn:Hk.
  { eexists _, _, _. split; [done|]. split_and!; try done. }
  destruct (plainClone W done repo).
  - destruct (Hreg repo (done ++ [PlainClone (getCloneDir W repo) (getUrl W repo)
                                             (Revision repo)]))
      as (done' & m' & -> & Hfields).
    exists done', m', Nil. split_and!; try done.
    intros repo' [= <-] [? Hin]. by rewrite Hk in Hin.
  - destruct (checkoutRevision W _ repo (Revision repo)) as [repo' [e|]].
    + eexists _, _, _. split; [done|]. split_and!; try done.
      intros repo'' [= <-] [? Hin]. by rewrite Hk in Hin.
    + destruct (Hreg repo' ((done ++ [PlainClone (getCloneDir W repo)
                                                 (getUrl W repo) (Revision repo)])
                            ++ [Checkout (getCloneDir W repo) (Revision repo)]))
        as (done' & m' & -> & Hfields).
      exists done', m', Nil. split_and!; try done.
      intros repo'' [= <-] [? Hin]. by rewrite Hk in Hin.
  - destruct (cleanCloneParentDirs W _ _) as [d [e|]].
    + eexists _, _, _. split; [done|]. split_and!; try done.
      intros repo'' [= <-] [? Hin]. by rewrite Hk in Hin.
    + eexists _, _, _. split; [done|]. split_and!; try done.
      intros repo'' [= <-] [? Hin]. by rewrite Hk in Hin.
Qed.

Lemma HasSuffix_append a b suffix :
  HasSuffix b suffix = true → HasSuffix (a +:+ b) suffix = true.
Proof.
  intros Hb. induction a as [|c a IH]; simpl; [done|].
  rewrite IH. apply orb_true_r.
Qed.

Lemma HasSuffix_refl s : HasSuffix s s = true.
Proof. destruct s; simpl; [done|]. by rewrite Ascii.eqb_refl, String.eqb_refl. Qed.

(** X24.  GetWorkflow changes neither the list nor the default repo.  It
    panics exactly when the path names no repo and no default repo is set,
    and it has then done and written nothing.  When it returns no repo, it
    returns one of its two errors and has done and written nothing.  When
    it returns a repo, that repo is the default repo or a repo of the list
    and the only repo written, one checkout was made, of the revision asked
    for if the path gives one, and the path returned when there is no error
    ends in .yaml and starts with the workflow directory of the repo. *)
Theorem GetWorkflow_outcomes W workflowPath done m :
  ∃ done' m' r,
    GetWorkflow W workflowPath done m = (done', m', r)
    ∧ repoList m' = repoList m
    ∧ defaultRepo m' = defaultRepo m
    ∧ (r = None ↔ namesNoRepo workflowPath ∧ defaultRepo m = None)
    ∧ match r with
      | None => done' = done ∧ m' = m
      | Some (path, None, err) =>
        path = ""%string ∧ done' = done ∧ m' = m
        ∧ (err = Some "Workflow comes from an unknown repo"%string
           ∨ err = Some "Workflow path resolution failed"%string)
      | Some (path, Some p, err) =>
        (defaultRepo m = Some p ∨ ∃ k, repoList m !! k = Some p)
        ∧ (∀ q, q ≠ p → store m' q = store m q)
        ∧ (∃ dir revision,
             done' = done ++ [Checkout dir revision]
             ∧ ∀ path' revision',
                 Split workflowPath "@" = [path'; revision'] →
                 revision' ≠ ""%string → revision = revision')
        ∧ match err with
          | Some _ => path = ""%string
          | None =>
            HasSuffix path ".yaml" = true
            ∧ ∃ file, path = (getWorkflowDir W (store m' p) +:+ file)%string
          end
      end.
Proof.
  unfold GetWorkflow, namesNoRepo.
  destruct (match Split workflowPath "@" with
            | [path; revision] => (path, revision)
            | _ => (workflowPath, ""%string)
            end) as [path revision] eqn:Hrev.
  assert (match Split workflowPath "@" with
          | [path; _] => path
          | _ => workflowPath
          end = path) as ->.
  { revert Hrev. destruct (Split workflowPath "@") as [|? [|? [|? ?]]];
      by intros [= <- _]. }
  assert (∀ path' revision',
            Split workflowPath "@" = [path'; revision'] →
            revision' ≠ ""%string → revision = revision') as Hasked.
  { intros path' revision' Hsplit _. rewrite Hsplit in Hrev. congruence. }
  assert (∀ p file, (defaultRepo m = Some p ∨ ∃ k, repoList m !! k = Some p) →
    ∃ done' m' path err,
      resolveIn W (Some p) revision file done m
      = (done', m', Some (path, Some p, err))
      ∧ repoList m' = repoList m
      ∧ defaultRepo m' = defaultRepo m
      ∧ (defaultRepo m = Some p ∨ ∃ k, repoList m !! k = Some p)
      ∧ (∀ q, q ≠ p → store m' q = store m q)
      ∧ (∃ dir revision0,
           done' = done ++ [Checkout dir revision0]
           ∧ ∀ path' revision',
               Split workflowPath "@" = [path'; revision'] →
               revision' ≠ ""%string → revision0 = revision')
      ∧ match err with
        | Some _ => path = ""%string
        | None =>
          HasSuffix path ".yaml" = true
          ∧ ∃ file, path = (getWorkflowDir W (store m' p) +:+ file)%string
        end) as Hresolve.
  { intros p file Hp. unfold resolveIn.
    set (m1 := if negb (String.eqb revision "")
               then write p (withRevision revision) m else m).
    assert (repoList m1 = repoList m ∧ defaultRepo m1 = defaultRepo m
            ∧ (∀ q, q ≠ p → store m1 q = store m q)
            ∧ ∀ path' revision',
                Split workflowPath "@" = [path'; revision'] →
                revision' ≠ ""%string → Revision (store m1 p) = revision')
      as (Hl & Hd & Hother & Hr).
    { unfold m1. destruct (String.eqb_spec revision "") as [->|Hne]; simpl.
      - split_and!; try done. intros path' revision' Hsplit Hne.
        by rewrite <- (Hasked _ _ Hsplit Hne) in Hne.
      - unfold write, assign. simpl. split_and!; try done.
        + intros q Hq. by rewrite decide_False.
        + intros path' revision' Hsplit Hne'. rewrite decide_True by done.
          simpl. by apply (Hasked path'). }
    destruct (checkoutRevision W done (store m1 p) (Revision (store m1 p)))
      as [repo err].
    assert (∀ q, q ≠ p → store (write p (λ _, repo) m1) q = store m q) as Hother'.
    { intros q Hq. unfold write, assign. simpl. rewrite decide_False by done.
      by apply Hother. }
    destruct err as [err|].
    - eexists _, _, _, _. split; [done|]. split_and!; try done.
      by eexists _, _.
    - eexists _, _, _, _. split; [done|]. split_and!; try done.
      + by eexists _, _.
      + apply HasSuffix_append.
        destruct (HasSuffix file ".yaml") eqn:Hs; simpl; [done|].
        apply HasSuffix_append, HasSuffix_refl.
      + by eexists. }
  destruct (Split path "workflows/") as [|a [|b [|c l]]].
  - eexists _, _, _. split; [done|]. split_and!; try done.
    + split; [done|]. by intros [[file [=]] _].
    + by right.
  - destruct (defaultRepo m) as [p|] eqn:Hd.
    + destruct (Hresolve p a) as (done' & m' & path' & err & -> & Hl & Hd' & H);
        [by left|].
      rewrite ?Hd in Hd'. exists done', m', (Some (path', Some p, err)).
      destruct H as (_ & Ho & Hc & Hm). split_and!; try done.
      * split; [done|]. by intros [_ [=]].
      * by left.
    + eexists _, _, _. split; [done|]. split_and!; try done.
      split; [|done]. intros _. split; [by exists a|done].
  - destruct (repoList m !! a) as [p|] eqn:Hk.
    + destruct (Hresolve p b) as (done' & m' & path' & err & -> & Hl & Hd' & H);
        [right; by exists a|].
      exists done', m', (Some (path', Some p, err)).
      destruct H as (Hor & Ho & Hc & Hm). split_and!; try done.
      split; [done|]. by intros [[file [=]] _].
    + eexists _, _, _. split; [done|]. split_and!; try done.
      * split; [done|]. by intros [[file [=]] _].
      * by left.
  - eexists _, _, _. split; [done|]. split_and!; try done.
    + split; [done|]. by intros [[file [=]] _].
    + by right.
Qed.

(** X25.  When NewRepo gives an error for one of the task classes,
    EnsureReposPresent returns an error having done nothing for any of
    them: no repo is added or checked out, the manager is as it was. *)
Theorem unparsable_task_class_stops_all W taskClassesRequired done m taskClass err :
  taskClass ∈ taskClassesRequired →
  NewRepo W taskClass = inr err →
  ∃ err', EnsureReposPresent W taskClassesRequired done m = (done, m, Err err').
Proof.
  intros Hin Herr. unfold EnsureReposPresent.
  pose proof (reposRequired_spec W taskClassesRequired) as Hspec.
  destruct (reposRequired W taskClassesRequired) as [repos|err']; [|by eexists].
  apply list_elem_of_lookup in Hin as [i Hi].
  destruct (Forall2_lookup_l _ _ _ _ _ Hspec Hi) as (repo & _ & Hrepo).
  congruence.
Qed.

(** X26.  When EnsureReposPresent returns nil, the repo of every task
    class is in the list, under its identifier, and the repos that were in
    the list are still there; this provided the range over the repos
    required yields each of them, a repo made by NewRepo is not flagged,
    checkoutRevision leaves the flag and the identifier of a repo as they
    are, and NewRepo gives the identifier of a repo the same identifier
    again, since it is by its identifier alone that a missing repo is
    added. *)
Theorem EnsureReposPresent_ensures W taskClassesRequired done m done' m' :
  (∀ repos repo, repo ∈ rangeOverKeys W repos ↔ repo ∈ repos) →
  (∀ path repo, NewRepo W path = inl repo → Default repo = false) →
  (∀ done repo rev,
     Default (checkoutRevision W done repo rev).1 = Default repo
     ∧ GetIdentifier (checkoutRevision W done repo rev).1 = GetIdentifier repo) →
  (∀ path repo repo',
     NewRepo W path = inl repo →
     NewRepo W (EnsureTrailingSlash (GetIdentifier repo)) = inl repo' →
     GetIdentifier repo' = GetIdentifier repo) →
  EnsureReposPresent W taskClassesRequired done m = (done', m', Nil) →
  (∀ taskClass repo,
     taskClass ∈ taskClassesRequired → NewRepo W taskClass = inl repo →
     is_Some (repoList m' !! GetIdentifier repo))
  ∧ (∀ k p, repoList m !! k = Some p → repoList m' !! k = Some p).
Proof.
  intros Hrange Hnew Hco Hid. unfold EnsureReposPresent.
  pose proof (reposRequired_spec W taskClassesRequired) as Hspec.
  destruct (reposRequired W taskClassesRequired) as [repos|err']; [|done].
  intros Hrun. split.
  - intros taskClass repo [i Hi]%list_elem_of_lookup Hrepo.
    destruct (Forall2_lookup_l _ _ _ _ _ Hspec Hi) as (repo' & Hi' & Hrepo').
    assert (repo' = repo) as -> by congruence.
    eapply (ensureEach_present W Hnew Hco Hid); [|done|].
    + intros r Hr. apply (proj1 (Hrange _ _)) in Hr.
      apply list_elem_of_lookup in Hr as [j Hj].
      destruct (Forall2_lookup_r _ _ _ _ _ Hspec Hj) as (tc & _ & Htc).
      by exists tc.
    + apply (proj2 (Hrange _ _)). by eapply list_elem_of_lookup_2.
  - intros k p Hk.
    pose proof (ensureEach_monotone W Hnew Hco (rangeOverKeys W repos) k p done m Hk)
      as Hmono.
    by rewrite Hrun in Hmono.
Qed.

(** X27.  When initializeRepos returns a manager, its default repo is the
    repo that was added first, which is the repo that the backend names or,
    when the backend gives an error, the repo of the configuration: it is
    in the list under its identifier, its flag is set, and it is the only
    repo of the list whose flag is set, whatever repos were discovered and
    added after it.  This provided a repo made by NewRepo is not flagged and
    checkoutRevision leaves the flag and the identifier of a repo as they
    are. *)
Theorem initializeRepos_default W repo done m :
  (∀ path repo, NewRepo W path = inl repo → Default repo = false) →
  (∀ done repo rev,
     Default (checkoutRevision W done repo rev).1 = Default repo
     ∧ GetIdentifier (checkoutRevision W done repo rev).1 = GetIdentifier repo) →
  initializeRepos W (newManager repo) = (done, Some m) →
  ∃ name repo0 p,
    name = match getDefaultRepo W [] with
           | inl name => name
           | inr _ => defaultRepoSetting W
           end
    ∧ NewRepo W (EnsureTrailingSlash name) = inl repo0
    ∧ defaultRepo m = Some p
    ∧ repoList m !! GetIdentifier repo0 = Some p
    ∧ GetIdentifier (store m p) = GetIdentifier repo0
    ∧ ∀ k q, repoList m !! k = Some q →
             (Default (store m q) = true ↔ k = GetIdentifier repo0).
Proof.
  intros Hnew Hco. unfold initializeRepos.
  set (name := match getDefaultRepo W [] with
               | inl name => name
               | inr _ => defaultRepoSetting W
               end).
  destruct (match getDefaultRepo W [] with
            | inl defaultRepo => ([GetDefaultRepo], defaultRepo)
            | inr _ =>
              ([GetDefaultRepo;
                Warning "Failed to parse default_repo from backend"],
               defaultRepoSetting W)
            end) as [d0 name'] eqn:Hname.
  assert (name' = name) as ->.
  { unfold name. destruct (getDefaultRepo W []); by injection Hname as _ <-. }
  pose proof (AddRepo_sound W Hnew Hco name d0 _ (newManager_sound repo))
    as [Hs1 _].
  destruct (AddRepo W name d0 (newManager repo)) as [[d1 m1] []] eqn:Hadd;
    [|done..].
  simpl in Hs1.
  apply (AddRepo_registers W Hnew Hco) in Hadd
    as (repo0 & repo1 & d & Hrepo0 & Hid & _ & _ & Hreg).
  destruct (register_fields W repo1 d (newManager repo))
    as (Hl & _ & Hi & Hone & _).
  rewrite Hreg in Hl, Hi, Hone. simpl in Hl, Hi, Hone.
  destruct Hone as [Hd1 _]; [by rewrite insert_empty, map_size_singleton|].
  assert (repoList m1 !! GetIdentifier repo0 = Some 0%nat) as Hk1.
  { rewrite Hl, Hid. by rewrite lookup_insert_eq. }
  destruct (discoverRepos W d1) as [[d2 discovered] err].
  destruct (addDiscovered W discovered _ m1) as [[d3 m3]|] eqn:Hrest; [|done].
  intros [= _ <-].
  destruct (addDiscovered_keeps W Hnew Hco _ _ _ _ _ _ _ Hs1 Hd1 Hk1 Hrest)
    as (Hs3 & Hd3 & Hk3).
  exists name, repo0, 0%nat. split_and!; try done.
  - by apply (listed_by_identifier _ (sound_shaped _ Hs3)).
  - intros k q Hq. split.
    + intros Hflag. pose proof (flagged_default _ Hs3 _ _ Hq Hflag) as Hd'.
      rewrite Hd3 in Hd'. injection Hd' as <-.
      by eapply (listed_distinct _ (sound_shaped _ Hs3)).
    + intros ->. rewrite Hk3 in Hq. injection Hq as <-.
      by apply (default_flagged _ Hs3).
Qed.

End PointerTheorems.

(** * Further concrete runs *)

(** Two offers and nothing to deploy. *)
Lemma no_descriptors_witness :
  default [] (None : option (list Descriptor)) = []
  ∧ ∃ cs,
      resourceOffers lab [richOffer; smallOffer] None = Returned cs
      ∧ countLocks (cycleTrace cs) = 0%nat
      ∧ acceptedOffers (cycleTrace cs) = []
      ∧ (length (declineBatches (cycleTrace cs)) ≤ 1)%nat.
Proof.
  split; [reflexivity|].
  destruct (no_descriptors_declines_all lab [richOffer; smallOffer] None eq_refl)
    as (cs & Hrun & Hlocks & Hacc & Hone & _).
  exists cs. split; [exact Hrun|]. split; [exact Hlocks|].
  split; [exact Hacc|exact Hone].
Defined.

(** Two descriptors on the rich offer. *)
Lemma launch_accounting_witness :
  resourceOffers lab [richOffer] (Some [readout; stfbuilder1])
  = Returned (cycle lab [richOffer] [readout; stfbuilder1])
  ∧ ∃ launched,
      default [] (Some [readout; stfbuilder1])
      ≡ₚ cyclePending (cycle lab [richOffer] [readout; stfbuilder1]) ++ launched
      ∧ length (allLaunches
                  (cycleTrace (cycle lab [richOffer] [readout; stfbuilder1])))
        = length launched
      ∧ (tasksDeployed (cycle lab [richOffer] [readout; stfbuilder1])).*2
        ⊆+ launched
      ∧ tasksLaunchedThisCycle (cycle lab [richOffer] [readout; stfbuilder1])
        = length (tasksDeployed (cycle lab [richOffer] [readout; stfbuilder1])).
Proof.
  assert (resourceOffers lab [richOffer] (Some [readout; stfbuilder1])
          = Returned (cycle lab [richOffer] [readout; stfbuilder1]))
    as Hrun by (vm_compute; reflexivity).
  split; [exact Hrun|]. exact (launch_accounting lab _ _ _ Hrun).
Defined.

(** The same cycle, every call succeeding. *)
Lemma deployed_or_pending_witness :
  (∀ c, CallNoData lab c = false)
  ∧ resourceOffers lab [richOffer; smallOffer] (Some [readout; stfbuilder1])
    = Returned (cycle lab [richOffer; smallOffer] [readout; stfbuilder1])
  ∧ length (allLaunches
              (cycleTrace (cycle lab [richOffer; smallOffer] [readout; stfbuilder1])))
    = length (tasksDeployed (cycle lab [richOffer; smallOffer] [readout; stfbuilder1])).
Proof.
  assert (resourceOffers lab [richOffer; smallOffer] (Some [readout; stfbuilder1])
          = Returned (cycle lab [richOffer; smallOffer] [readout; stfbuilder1]))
    as Hrun by (vm_compute; reflexivity).
  split; [intros c; reflexivity|]. split; [exact Hrun|].
  exact (proj2 (deployed_or_pending lab _ _ _ (λ _, eq_refl) Hrun)).
Defined.

(** The same cycle, every call failing. *)
Lemma failed_accept_witness :
  (∀ c, CallNoData labNoCalls c = true)
  ∧ resourceOffers labNoCalls [richOffer] (Some [readout; stfbuilder1])
    = Returned (cycle labNoCalls [richOffer] [readout; stfbuilder1])
  ∧ tasksDeployed (cycle labNoCalls [richOffer] [readout; stfbuilder1]) = []
  ∧ tasksLaunchedThisCycle (cycle labNoCalls [richOffer] [readout; stfbuilder1])
    = 0%nat.
Proof.
  assert (resourceOffers labNoCalls [richOffer] (Some [readout; stfbuilder1])
          = Returned (cycle labNoCalls [richOffer] [readout; stfbuilder1]))
    as Hrun by (vm_compute; reflexivity).
  split; [intros c; reflexivity|]. split; [exact Hrun|].
  destruct (failed_accept_drops_descriptors labNoCalls _ _ _ (λ _, eq_refl) Hrun)
    as (Hdep & Hcount & _).
  split; [exact Hdep|exact Hcount].
Defined.

(** Two offers and two descriptors in the lab, where every command
    serializes. *)
Lemma mutex_free_witness :
  (∀ cmd, jsonMarshal lab cmd ≠ None)
  ∧ resourceOffers lab [richOffer; smallOffer] (Some [readout; stfbuilder1])
    = Returned (cycle lab [richOffer; smallOffer] [readout; stfbuilder1])
  ∧ mutexAfter false
      (cycleTrace (cycle lab [richOffer; smallOffer] [readout; stfbuilder1]))
    = inr false
  ∧ countLocks
      (cycleTrace (cycle lab [richOffer; smallOffer] [readout; stfbuilder1]))
    = countUnlocks
        (cycleTrace (cycle lab [richOffer; smallOffer] [readout; stfbuilder1])).
Proof.
  assert (∀ cmd, jsonMarshal lab cmd ≠ None) as Hser
    by (intros cmd; discriminate).
  assert (resourceOffers lab [richOffer; smallOffer] (Some [readout; stfbuilder1])
          = Returned (cycle lab [richOffer; smallOffer] [readout; stfbuilder1]))
    as Hrun by (vm_compute; reflexivity).
  split; [exact Hser|]. split; [exact Hrun|].
  exact (mutex_free_after_cycle lab _ _ _ Hser Hrun).
Defined.

(** The stfsender descriptor on an offer whose port ranges come in
    descending order and overlap: two data ports and a control port, all
    distinct. *)
Lemma task_ports_witness :
  wellFormed (ports (remainingResources (entering shuffledOffer [stfsender])))
  ∧ matchDescriptor lab noConstraints shuffledOffer "executor-of-A" 0
      (entering shuffledOffer [stfsender])
    = Returned (step lab shuffledOffer 0 (entering shuffledOffer [stfsender]))
  ∧ ∃ info (ps : list N) (controlPort : N),
      tasks (step lab shuffledOffer 0 (entering shuffledOffer [stfsender]))
      = tasks (entering shuffledOffer [stfsender]) ++ [info]
      ∧ NoDup (ps ++ [controlPort])
      ∧ ∀ p, p ∈ ps ++ [controlPort] →
             InRanges p (ports (remainingResources
                                  (entering shuffledOffer [stfsender]))).
Proof.
  assert (wellFormed (ports (remainingResources (entering shuffledOffer [stfsender]))))
    as Hc by (repeat constructor; simpl; lia).
  assert (matchDescriptor lab noConstraints shuffledOffer "executor-of-A" 0
            (entering shuffledOffer [stfsender])
          = Returned (step lab shuffledOffer 0 (entering shuffledOffer [stfsender])))
    as Hstep by (vm_compute; reflexivity).
  assert (∃ info, tasks (step lab shuffledOffer 0 (entering shuffledOffer [stfsender]))
                  = tasks (entering shuffledOffer [stfsender]) ++ [info])
    as [info Hinfo] by (eexists; vm_compute; reflexivity).
  split; [exact Hc|]. split; [exact Hstep|].
  destruct (task_ports_distinct lab noConstraints shuffledOffer
              "executor-of-A" 0%nat _ _ info Hc Hstep Hinfo)
    as (wants & ps & controlPort & _ & _ & Hnd & Hin & _).
  exists info, ps, controlPort. split; [exact Hinfo|].
  split; [exact Hnd|]. intros p Hp. exact (proj1 (Hin p Hp)).
Defined.

(** A message of any kind from the one task of the sound roster. *)
Lemma message_handler_witness :
  (∀ id t, GetTask soundRoster id = Some t →
           (LookupEnvironment soundRoster (GetEnvironmentId t)).1 ≠ None)
  ∧ ∃ err acts,
      incomingMessageHandler flatJson soundRoster
        (Some (messageOf transitionResponse))
      = Returned (err, acts).
Proof.
  assert (∀ id t, GetTask soundRoster id = Some t →
                  (LookupEnvironment soundRoster (GetEnvironmentId t)).1 ≠ None)
    as Hsound.
  { intros id t. simpl. destruct (String.eqb id "flp.readout@A"); [|done].
    by intros [= <-]. }
  split; [exact Hsound|].
  exact (message_handler_returns flatJson soundRoster _ Hsound).
Defined.

(** * Concrete runs of the repo manager *)

(** The second of two repos. *)
Lemma RefreshRepoByIndex_witness :
  (0 ≤ 1 < Z.of_nat (size (repoList twoListed)))%Z
  ∧ ∃ key repo,
      GetOrderedRepolistKeys twoListed !! Z.to_nat 1 = Some key
      ∧ repoList twoListed !! key = Some repo
      ∧ RefreshRepoByIndex refreshUnlessNil asciiRune twoListed 1
        = refreshUnlessNil (Some repo).
Proof.
  assert (size (repoList twoListed) = 2%nat) as Hsize
    by (vm_compute; reflexivity).
  assert (0 ≤ 1 < Z.of_nat (size (repoList twoListed)))%Z as Hin
    by (rewrite Hsize; lia).
  split; [exact Hin|].
  exact (RefreshRepoByIndex_in_range refreshUnlessNil asciiRune twoListed 1 Hin).
Defined.

(** The two repos refreshed in the order of the map. *)
Lemma RefreshRepos_witness :
  (∀ m : gmap string Repo, map_to_list m ≡ₚ map_to_list m)
  ∧ (RefreshRepos refreshUnlessNil map_to_list twoListed = Nil
     ↔ ∀ k repo, repoList twoListed !! k = Some repo →
                 refreshUnlessNil (Some repo) = Nil).
Proof.
  split; [reflexivity|].
  exact (proj1 (RefreshRepos_nil_iff_all_refreshed refreshUnlessNil map_to_list
                  twoListed (λ _, reflexivity _))).
Defined.

Lemma twoListed_keyed k repo :
  repoList twoListed !! k = Some repo → GetIdentifier repo = k.
Proof.
  unfold twoListed. simpl.
  intros [[<- <-]|[_ [<- <-]%lookup_singleton_Some]]%lookup_insert_Some;
    reflexivity.
Qed.

(** The templates of the two repos. *)
Lemma templates_witness :
  (∀ m : gmap string Repo, map_to_list m ≡ₚ map_to_list m)
  ∧ (∀ k repo, repoList twoListed !! k = Some repo → GetIdentifier repo = k)
  ∧ ∃ templateList numTemplates,
      GetWorkflowTemplates templatesIn map_to_list twoListed
      = (Some templateList, numTemplates, None)
      ∧ numTemplates = sum_list (length <$> (map_to_list templateList).*2).
Proof.
  split; [reflexivity|]. split; [exact twoListed_keyed|].
  pose proof (templates_counted templatesIn map_to_list twoListed
                (λ _, reflexivity _) twoListed_keyed) as Hcounted.
  destruct (GetWorkflowTemplates templatesIn map_to_list twoListed)
    as [[[templateList|] numTemplates] [err|]].
  - destruct Hcounted.
  - exists templateList, numTemplates. split; [reflexivity|].
    exact (proj1 Hcounted).
  - exfalso. destruct Hcounted as (_ & k & repo & _ & Herr).
    unfold templatesIn in Herr. destruct (String.eqb _ _); discriminate.
  - destruct Hcounted.
Defined.

Section PointerRuns.
Import pointers.

Lemma hasSuffixSlash_append s : hasSuffixSlash (s +:+ "/") = true.
Proof.
  induction s as [|c s IH]; [done|]. simpl.
  destruct (s +:+ "/")%string eqn:Hs; [by destruct s|]. exact IH.
Qed.

Lemma EnsureTrailingSlash_again path :
  EnsureTrailingSlash (EnsureTrailingSlash path) = EnsureTrailingSlash path.
Proof.
  unfold EnsureTrailingSlash. destruct (hasSuffixSlash path) eqn:Hs.
  - by rewrite Hs.
  - by rewrite hasSuffixSlash_append.
Qed.

Lemma disk_unflagged path repo :
  NewRepo disk path = inl repo → Default repo = false.
Proof. simpl. destruct (String.eqb path "/"); [done|]. by intros [= <-]. Qed.

Lemma disk_checkout_keeps done repo rev :
  Default (checkoutRevision disk done repo rev).1 = Default repo
  ∧ GetIdentifier (checkoutRevision disk done repo rev).1 = GetIdentifier repo.
Proof. done. Qed.

Lemma disk_identifies path repo repo' :
  NewRepo disk path = inl repo →
  NewRepo disk (EnsureTrailingSlash (GetIdentifier repo)) = inl repo' →
  GetIdentifier repo' = GetIdentifier repo.
Proof.
  simpl. destruct (String.eqb path "/"); [done|]. intros [= <-]. simpl.
  rewrite !EnsureTrailingSlash_again.
  destruct (String.eqb _ "/"); [done|]. by intros [= <-].
Qed.

Lemma addBoth_run :
  performAll disk addBoth [] (newManager (repoOf ""))
  = Some (doneAfter addBoth, after addBoth).
Proof. vm_compute. reflexivity. Qed.

Lemma addOne_run :
  performAll disk addOne [] (newManager (repoOf ""))
  = Some (doneAfter addOne, after addOne).
Proof. vm_compute. reflexivity. Qed.

Lemma addBoth_sound : sound (after addBoth).
Proof.
  exact (performAll_sound disk disk_unflagged disk_checkout_keeps addBoth
           _ _ _ _ (newManager_sound _) addBoth_run).
Qed.

Lemma addOne_sound : sound (after addOne).
Proof.
  exact (performAll_sound disk disk_unflagged disk_checkout_keeps addOne
           _ _ _ _ (newManager_sound _) addOne_run).
Qed.

(** Two repos added to the empty manager: the first is the default one. *)
Lemma default_repo_witness :
  performAll disk addBoth [] (newManager (repoOf ""))
  = Some (doneAfter addBoth, after addBoth)
  ∧ repoList (after addBoth) ≠ ∅
  ∧ ∃ k p,
      defaultRepo (after addBoth) = Some p
      ∧ repoList (after addBoth) !! k = Some p
      ∧ ∀ k' q, repoList (after addBoth) !! k' = Some q →
                (Default (store (after addBoth) q) = true ↔ k' = k).
Proof.
  assert (repoList (after addBoth) ≠ ∅) as Hne.
  { intros Hempty.
    assert (size (repoList (after addBoth)) = 2%nat) as Hsize
      by (vm_compute; reflexivity).
    rewrite Hempty in Hsize. by rewrite map_size_empty in Hsize. }
  split; [exact addBoth_run|]. split; [exact Hne|].
  exact (proj2 (default_repo_unique disk addBoth (repoOf "") _ _
                  disk_unflagged disk_checkout_keeps addBoth_run) Hne).
Defined.

(** The third of two repos. *)
Lemma RemoveRepoByIndex_out_of_range_witness :
  (2 < 0 ∨ Z.of_nat (size (repoList (after addBoth))) ≤ 2)%Z
  ∧ RemoveRepoByIndex disk 2 (doneAfter addBoth) (after addBoth)
    = (doneAfter addBoth, after addBoth, Some (false, ""%string)).
Proof.
  assert (size (repoList (after addBoth)) = 2%nat) as Hsize
    by (vm_compute; reflexivity).
  assert (2 < 0 ∨ Z.of_nat (size (repoList (after addBoth))) ≤ 2)%Z as Hout
    by (right; rewrite Hsize; lia).
  split; [exact Hout|].
  exact (RemoveRepoByIndex_out_of_range disk 2 _ _ Hout).
Defined.

(** Of the two repos the second in ascending order is the default one:
    removing it makes the first the default repo. *)
Lemma removing_default_witness :
  sound (after addBoth)
  ∧ GetOrderedRepolistKeys (after addBoth) !! Z.to_nat 1
    = Some "github.com/AliceO2Group/ControlWorkflows/"%string
  ∧ defaultRepo (after addBoth) = Some 0%nat
  ∧ ∃ done' m' q,
      RemoveRepoByIndex disk 1 (doneAfter addBoth) (after addBoth)
      = (done', m', Some (true, "github.com/AliceO2Group/Control/"%string))
      ∧ defaultRepo m' = Some q
      ∧ Default (store m' q) = true
      ∧ Default (store m' 0%nat) = false.
Proof.
  assert (GetOrderedRepolistKeys (after addBoth) !! Z.to_nat 1
          = Some "github.com/AliceO2Group/ControlWorkflows/"%string) as Hkey
    by (vm_compute; reflexivity).
  assert (repoList (after addBoth) !! "github.com/AliceO2Group/ControlWorkflows/"%string
          = Some 0%nat) as Hp by (vm_compute; reflexivity).
  assert (defaultRepo (after addBoth) = Some 0%nat) as Hd
    by (vm_compute; reflexivity).
  assert (1 < size (repoList (after addBoth)))%nat as Hsize.
  { assert (size (repoList (after addBoth)) = 2%nat) as ->
      by (vm_compute; reflexivity). lia. }
  split; [exact addBoth_sound|]. split; [exact Hkey|]. split; [exact Hd|].
  destruct (removing_default_promotes_first disk 1 (doneAfter addBoth)
              (after addBoth) _ _ addBoth_sound ltac:(lia) Hkey Hp Hd Hsize)
    as (done' & m' & top & q & Hrun & Hl & Hq & Hleast & Hd' & Hflag & Hold & _).
  assert (top = "github.com/AliceO2Group/Control/"%string) as ->.
  { assert (is_Some (repoList m' !! "github.com/AliceO2Group/Control/"%string))
      as Hin by (rewrite Hl; vm_compute; by eexists).
    apply Hleast in Hin.
    assert (repoList (after addBoth) !! top = Some q) as Hq'.
    { rewrite Hl in Hq. by apply lookup_delete_Some in Hq as [_ ?]. }
    assert (top ≠ "github.com/AliceO2Group/ControlWorkflows/"%string) as Hne.
    { rewrite Hl in Hq. by apply lookup_delete_Some in Hq as [? _]. }
    assert (∀ k, is_Some (repoList (after addBoth) !! k) →
                 k = "github.com/AliceO2Group/ControlWorkflows/"%string
                 ∨ k = "github.com/AliceO2Group/Control/"%string) as Hkeys.
    { intros k Hk%keys_elem. revert Hk.
      assert (GetOrderedRepolistKeys (after addBoth)
              = ["github.com/AliceO2Group/Control/";
                 "github.com/AliceO2Group/ControlWorkflows/"]%string) as ->
        by (vm_compute; reflexivity).
      intros [->|[->|[]%elem_of_nil]%elem_of_cons]%elem_of_cons;
        [by right|by left]. }
    destruct (Hkeys top) as [Heq|Heq];
      [exists q; exact Hq'|destruct (Hne Heq)|exact Heq]. }
  exists done', m', q. split; [exact Hrun|]. split; [exact Hd'|].
  split; [exact Hflag|exact Hold].
Defined.

(** Removing the only repo. *)
Lemma removing_last_witness :
  sound (after addOne)
  ∧ size (repoList (after addOne)) = 1%nat
  ∧ ∃ key p warned,
      repoList (after addOne) !! key = Some p
      ∧ defaultRepo (after addOne) = Some p
      ∧ RemoveRepoByIndex disk 0 (doneAfter addOne) (after addOne)
        = (doneAfter addOne
           ++ [RemoveAll (getCloneDir disk (store (after addOne) p));
               NewDefaultRepo (defaultRepoSetting disk)] ++ warned,
           {| store := store (after addOne); allocated := allocated (after addOne);
              repoList := ∅; defaultRepo := Some p |},
           Some (true, ""%string))
      ∧ Default (store (after addOne) p) = true
      ∧ (∀ e, e ∈ warned → ∃ msg, e = Warning msg).
Proof.
  assert (size (repoList (after addOne)) = 1%nat) as Hsize
    by (vm_compute; reflexivity).
  split; [exact addOne_sound|]. split; [exact Hsize|].
  exact (removing_last_repo_keeps_default disk (doneAfter addOne) (after addOne)
           addOne_sound Hsize).
Defined.

(** Of the two repos the first in ascending order is not the default one. *)
Lemma removing_other_witness :
  sound (after addBoth)
  ∧ GetOrderedRepolistKeys (after addBoth) !! Z.to_nat 0
    = Some "github.com/AliceO2Group/Control/"%string
  ∧ repoList (after addBoth) !! "github.com/AliceO2Group/Control/"%string
    = Some 1%nat
  ∧ defaultRepo (after addBoth) ≠ Some 1%nat
  ∧ RemoveRepoByIndex disk 0 (doneAfter addBoth) (after addBoth)
    = (doneAfter addBoth
       ++ [RemoveAll (getCloneDir disk (store (after addBoth) 1%nat))],
       {| store := store (after addBoth); allocated := allocated (after addBoth);
          repoList := delete "github.com/AliceO2Group/Control/"%string
                             (repoList (after addBoth));
          defaultRepo := defaultRepo (after addBoth) |},
       Some (true, ""%string)).
Proof.
  assert (GetOrderedRepolistKeys (after addBoth) !! Z.to_nat 0
          = Some "github.com/AliceO2Group/Control/"%string) as Hkey
    by (vm_compute; reflexivity).
  assert (repoList (after addBoth) !! "github.com/AliceO2Group/Control/"%string
          = Some 1%nat) as Hp by (vm_compute; reflexivity).
  assert (defaultRepo (after addBoth) ≠ Some 1%nat) as Hd
    by (vm_compute; discriminate).
  split; [exact addBoth_sound|]. split; [exact Hkey|]. split; [exact Hp|].
  split; [exact Hd|].
  exact (proj1 (removing_other_repo_keeps_default disk 0 (doneAfter addBoth)
                  (after addBoth) _ _ addBoth_sound ltac:(lia) Hkey Hp Hd)).
Defined.

(** A task class that names no repo, after one that does. *)
Lemma unparsable_task_class_witness :
  "/"%string ∈ ["github.com/AliceO2Group/Control"; "/"]%string
  ∧ NewRepo disk "/" = inr "repo path resolution failed"%string
  ∧ ∃ err',
      EnsureReposPresent disk ["github.com/AliceO2Group/Control"; "/"]%string
        (doneAfter addOne) (after addOne)
      = (doneAfter addOne, after addOne, Err err').
Proof.
  assert ("/"%string ∈ ["github.com/AliceO2Group/Control"; "/"]%string) as Hin
    by apply list_elem_of_further, list_elem_of_here.
  split; [exact Hin|]. split; [reflexivity|].
  exact (unparsable_task_class_stops_all disk _ (doneAfter addOne) (after addOne)
           "/" _ Hin eq_refl).
Defined.

(** Two task classes, of which one names the repo there is. *)
Lemma EnsureReposPresent_witness :
  EnsureReposPresent disk bothClasses (doneAfter addOne) (after addOne)
  = ((EnsureReposPresent disk bothClasses (doneAfter addOne) (after addOne)).1.1,
     (EnsureReposPresent disk bothClasses (doneAfter addOne) (after addOne)).1.2,
     Nil)
  ∧ ∀ taskClass repo,
      taskClass ∈ bothClasses → NewRepo disk taskClass = inl repo →
      is_Some (repoList (EnsureReposPresent disk bothClasses (doneAfter addOne)
                           (after addOne)).1.2
               !! GetIdentifier repo).
Proof.
  assert (EnsureReposPresent disk bothClasses (doneAfter addOne) (after addOne)
          = ((EnsureReposPresent disk bothClasses (doneAfter addOne)
                (after addOne)).1.1,
             (EnsureReposPresent disk bothClasses (doneAfter addOne)
                (after addOne)).1.2, Nil)) as Hrun
    by (vm_compute; reflexivity).
  split; [exact Hrun|].
  exact (proj1 (EnsureReposPresent_ensures disk bothClasses _ _ _ _
                  (λ repos repo, elem_of_remove_dups repos repo)
                  disk_unflagged disk_checkout_keeps disk_identifies Hrun)).
Defined.

(** The manager started in that world: the repo that the backend names is
    the default one, and the other repo found on disk is in the list. *)
Lemma initializeRepos_witness :
  initializeRepos disk (newManager (repoOf ""))
  = ((initializeRepos disk (newManager (repoOf ""))).1, Some started)
  ∧ ∃ name repo0 p,
      name = "github.com/AliceO2Group/ControlWorkflows"%string
      ∧ NewRepo disk (EnsureTrailingSlash name) = inl repo0
      ∧ defaultRepo started = Some p
      ∧ repoList started !! GetIdentifier repo0 = Some p
      ∧ GetIdentifier (store started p) = GetIdentifier repo0.
Proof.
  assert (initializeRepos disk (newManager (repoOf ""))
          = ((initializeRepos disk (newManager (repoOf ""))).1, Some started))
    as Hrun by (vm_compute; reflexivity).
  split; [exact Hrun|].
  destruct (initializeRepos_default disk (repoOf "") _ _
              disk_unflagged disk_checkout_keeps Hrun)
    as (name & repo0 & p & Hname & Hnew & Hd & Hk & Hid & _).
  exists name, repo0, p. split; [exact Hname|]. split; [exact Hnew|].
  split; [exact Hd|]. split; [exact Hk|exact Hid].
Defined.

(** A workflow of a listed repo at a revision: the path of the template
    and the revision the repo is left at. *)
Lemma workflow_of_listed_repo :
  ∃ done' m',
    GetWorkflow disk
      "github.com/AliceO2Group/ControlWorkflows/workflows/readout-qc@dev"
      (doneAfter addBoth) (after addBoth)
    = (done', m',
       Some ("/var/lib/o2/aliecs/repos/github.com/AliceO2Group/ControlWorkflows/workflows/readout-qc.yaml"%string,
             Some 0%nat, None))
    ∧ Revision (store m' 0%nat) = "dev"%string
    ∧ Revision (store m' 1%nat) = "master"%string.
Proof. eexists _, _. split; [vm_compute; reflexivity|]. by vm_compute. Qed.

(** A path with two revisions has none, and its file keeps them. *)
Lemma workflow_with_two_revisions :
  ∃ done' m',
    GetWorkflow disk "readout-qc@dev@v1" (doneAfter addBoth) (after addBoth)
    = (done', m',
       Some ("/var/lib/o2/aliecs/repos/github.com/AliceO2Group/ControlWorkflows/workflows/readout-qc@dev@v1.yaml"%string,
             Some 0%nat, None))
    ∧ Revision (store m' 0%nat) = "master"%string.
Proof. eexists _, _. split; [vm_compute; reflexivity|]. by vm_compute. Qed.

End PointerRuns.
